(** * KeyWordGenerator: geo-target resolution, response repair, input validation

    A shallow embedding of the three routines of the repository that carry
    contracts:

    - [src/geo_targets.py]      : [GeoTargets]
    - [src/openai_client.py]    : [OpenAIClient] (on top of [Json], a model of
                                  the standard library's [json.loads])
    - [src/google_ads_client.py]: [GoogleAdsClient], [KeywordIdeas],
                                  [GoogleAdsConfig]
    - [src/csv_export.py]       : [CsvExport]

    Python text ([str]) is a sequence of Unicode code points and is modelled
    as [list N].  Python exceptions are modelled by the [outcome] type: a
    computation either returns a value or raises.  Only subclasses of
    [Exception] are modelled; interpreter signals such as [KeyboardInterrupt]
    are not. *)

From Stdlib Require Import ZArith NArith List String Ascii Bool Lia Sorted.
From stdpp Require Import base option list gmap.

Import ListNotations.
Local Open Scope N_scope.
Local Open Scope nat_scope.
Local Open Scope list_scope.
Local Set Warnings "-register-all".

(** ** Python values and helpers shared by the three modules *)

Module Py.

Abbreviation char := N.
Abbreviation str := (list N).

(** A source-level string literal as a Python [str]. *)
Definition lit (s : string) : str :=
  List.map N_of_ascii (list_ascii_of_string s).

Definition dquote : char := 34%N.
Definition newline : char := 10%N.

(** Literals whose text contains double quotes are written with [`] in
    their place. *)
Definition qlit (s : string) : str :=
  List.map (fun c => if N.eqb c 96%N then dquote else c) (lit s).

Definition ch (a : ascii) : char := N_of_ascii a.
#[global] Arguments ch : simpl never.

Fixpoint str_eqb (a b : str) : bool :=
  match a, b with
  | [], [] => true
  | x :: a', y :: b' => N.eqb x y && str_eqb a' b'
  | _, _ => false
  end.

(** [s.startswith(p)] *)
Fixpoint startswith (p s : str) : bool :=
  match p, s with
  | [], _ => true
  | x :: p', y :: s' => N.eqb x y && startswith p' s'
  | _ :: _, [] => false
  end.

(** [sub in s] *)
Fixpoint contains (sub s : str) : bool :=
  startswith sub s ||
  match s with
  | [] => false
  | _ :: s' => contains sub s'
  end.

(** [c in s] for a one-character needle. *)
Definition has_char (c : char) (s : str) : bool := existsb (N.eqb c) s.

(** [s.count(c)] for a one-character needle. *)
Definition count_char (c : char) (s : str) : nat :=
  List.length (List.filter (N.eqb c) s).

(** [s.find(c)]: [None] stands for Python's [-1]. *)
Fixpoint find_char (c : char) (s : str) : option nat :=
  match s with
  | [] => None
  | x :: s' => if N.eqb c x then Some 0
               else match find_char c s' with
                    | Some i => Some (S i)
                    | None => None
                    end
  end.

(** [s.rfind(c)] *)
Fixpoint rfind_char (c : char) (s : str) : option nat :=
  match s with
  | [] => None
  | x :: s' => match rfind_char c s' with
               | Some i => Some (S i)
               | None => if N.eqb c x then Some 0 else None
               end
  end.

(** [s[a:b]] for [0 <= a], [0 <= b]. *)
Definition slice (a b : nat) (s : str) : str := firstn (b - a) (skipn a s).

(** [str.isspace] on one code point: the characters removed by
    [str.strip()]. *)
Definition isspace (c : char) : bool :=
  ((9 <=? c) && (c <=? 13) || (28 <=? c) && (c <=? 32) || (c =? 133)
   || (c =? 160) || (c =? 5760) || (8192 <=? c) && (c <=? 8202)
   || (c =? 8232) || (c =? 8233) || (c =? 8239) || (c =? 8287)
   || (c =? 12288))%N.

Fixpoint lstrip (s : str) : str :=
  match s with
  | c :: s' => if isspace c then lstrip s' else s
  | [] => []
  end.

Definition rstrip (s : str) : str := rev (lstrip (rev s)).

(** [s.strip()] *)
Definition strip (s : str) : str := rstrip (lstrip s).

(** [s.strip(c)] for a one-character set. *)
Fixpoint lstrip_char (c : char) (s : str) : str :=
  match s with
  | x :: s' => if N.eqb c x then lstrip_char c s' else s
  | [] => []
  end.

Definition strip_char (c : char) (s : str) : str :=
  rev (lstrip_char c (rev (lstrip_char c s))).

(** [s.replace(old, new)] for a non-empty [old]: non-overlapping
    occurrences, leftmost first.  [skip] counts the characters of a match
    still to be dropped. *)
Fixpoint replace_from (old new : str) (skip : nat) (s : str) : str :=
  match s with
  | [] => []
  | c :: s' =>
      match skip with
      | S k => replace_from old new k s'
      | O => if startswith old s
             then new ++ replace_from old new (List.length old - 1) s'
             else c :: replace_from old new 0 s'
      end
  end.

Definition replace (old new s : str) : str := replace_from old new 0 s.

(** [s.split(c)] for a one-character separator. *)
Fixpoint split_char (c : char) (s : str) : list str :=
  match s with
  | [] => [[]]
  | x :: s' =>
      match split_char c s' with
      | l :: ls => if N.eqb c x then [] :: l :: ls else (x :: l) :: ls
      | [] => [[]]
      end
  end.

(** [sep.join(parts)] *)
Fixpoint join (sep : str) (parts : list str) : str :=
  match parts with
  | [] => []
  | [p] => p
  | p :: ps => p ++ sep ++ join sep ps
  end.

(** [str(n)] for a natural number. *)
Definition digit_char (d : nat) : char := N.of_nat (48 + d).

Fixpoint str_of_nat_fuel (fuel n : nat) (acc : str) : str :=
  match fuel with
  | O => acc
  | S f =>
      let acc' := digit_char (n mod 10) :: acc in
      if n <? 10 then acc' else str_of_nat_fuel f (n / 10) acc'
  end.

Definition str_of_nat (n : nat) : str := str_of_nat_fuel (S n) n [].

(** Exceptions.  Every class below is a subclass of [Exception]. *)
Inductive exn_class :=
| GoogleAdsException
| JSONDecodeError
| ValueError
| RecursionError
| AttributeError
| Exception
| OtherError (name : str).

(** [Exn c m] is an instance of class [c] with message [m];
    [ExnFrom c m e] is [raise c(m) from e]. *)
Inductive exn :=
| Exn (cls : exn_class) (msg : str)
| ExnFrom (cls : exn_class) (msg : str) (cause : exn).

Definition exn_cls (e : exn) : exn_class :=
  match e with Exn c _ | ExnFrom c _ _ => c end.

(** [str(e)] *)
Definition exn_str (e : exn) : str :=
  match e with Exn _ m | ExnFrom _ m _ => m end.

Definition is_GoogleAdsException (e : exn) : bool :=
  match exn_cls e with GoogleAdsException => true | _ => false end.

Definition is_JSONDecodeError (e : exn) : bool :=
  match exn_cls e with JSONDecodeError => true | _ => false end.

Definition is_AttributeError (e : exn) : bool :=
  match exn_cls e with AttributeError => true | _ => false end.

Inductive outcome (A : Type) :=
| Return (a : A)
| Raise (e : exn).
Arguments Return {A} a.
Arguments Raise {A} e.

Definition bind {A B} (m : outcome A) (k : A -> outcome B) : outcome B :=
  match m with
  | Return a => k a
  | Raise e => Raise e
  end.

(** [try: body  except <class matched by catches> as e: handler e] *)
Definition try_except {A} (body : outcome A) (catches : exn -> bool)
    (handler : exn -> outcome A) : outcome A :=
  match body with
  | Return a => Return a
  | Raise e => if catches e then handler e else Raise e
  end.

Definition raises {A} (m : outcome A) : Prop :=
  match m with Raise _ => True | Return _ => False end.

#[global] Instance outcome_bind : MBind outcome := fun A B k m => bind m k.

End Py.

(** ** [src/geo_targets.py] *)

Module GeoTargets.
Import Py.

(** [geo_target.target_type] is either a string, an enum member with a
    [name], or some other object rendered with [str()] (lines 63-66). *)
Inductive target_type_val :=
| TypeStr (s : str)
| TypeEnum (name : str)
| TypeOther (repr : str).

(** [suggestion.geo_target_constant] *)
Record suggestion := {
  target_type : target_type_val;
  resource_name : str
}.

(** The cache file [geo_target_cache.json] as [load_cache] sees it: absent;
    present, with [open] or the read raising [IOError]; present, with a text
    that [json.load] rejects with [JSONDecodeError]; or present, holding a
    JSON object of strings.  These are the cases that [load_cache] handles.
    A file of bytes that are not UTF-8 (reading it raises
    [UnicodeDecodeError], which line 21 does not catch) and a file that
    holds JSON other than an object of strings (which [json.load] returns as
    it is) are outside this model. *)
Inductive file :=
| NoFile                             (* os.path.exists is false *)
| Unreadable                         (* open/read raises IOError *)
| Malformed                          (* json.load raises JSONDecodeError *)
| Stored (content : gmap str str).   (* a JSON object of strings *)

Section Service.

(** The remote suggestion service: its state, and one call of
    [suggest_geo_target_constants] for a location name under locale [en]
    (lines 48-55), which returns the suggestions or raises. *)
Variable remote : Type.
Variable suggest_geo_target_constants :
  str -> remote -> outcome (list suggestion) * remote.

Record world := {
  disk : file;
  (* whether the save of the cache at the end of a batch succeeds; a save
     that fails is taken to fail when the file is opened, before the file
     is touched *)
  writable : bool;
  service : remote;
  (* the requests sent to the suggestion service with their responses,
     oldest first *)
  calls : list (str * outcome (list suggestion))
}.

Definition load_cache (w : world) : gmap str str :=
  match disk w with
  | Stored content => content
  | NoFile | Unreadable | Malformed => ∅
  end.

(** A save that succeeds leaves the cache in the file.  A save that fails
    is taken to fail with an [IOError] at [open], before the file is
    touched: the error is reported on standard output and swallowed, and the
    file is as it was.  A failure after the file was opened (mode [w]
    empties it first) and names or identifiers that UTF-8 cannot encode
    ([UnicodeEncodeError] is not an [IOError]) are outside this model. *)
Definition save_cache (cache : gmap str str) (w : world) : world :=
  if writable w
  then {| disk := Stored cache; writable := writable w;
          service := service w; calls := calls w |}
  else w.

Definition target_type_str (t : target_type_val) : str :=
  match t with
  | TypeStr s => s
  | TypeEnum name => name
  | TypeOther repr => repr
  end.

(** One of the two [for] loops of lines 60-71 and 74-85: the resource name
    of the first suggestion whose type string is, or contains, [kind]. *)
Fixpoint first_of_type (kind : str) (suggestions : list suggestion)
  : option str :=
  match suggestions with
  | [] => None
  | suggestion :: rest =>
      let target_type_str := target_type_str (target_type suggestion) in
      if str_eqb target_type_str kind || contains kind target_type_str
      then Some (resource_name suggestion)
      else first_of_type kind rest
  end.

(** Lines 58-93: the resource name chosen among the suggestions. *)
Definition best_match (suggestions : list suggestion) : option str :=
  match suggestions with
  | [] => None
  | first_suggestion :: _ =>
      match first_of_type (lit "COUNTRY") suggestions with
      | Some resource_name => Some resource_name
      | None =>
          match first_of_type (lit "PROVINCE") suggestions with
          | Some resource_name => Some resource_name
          | None => Some (resource_name first_suggestion)
          end
      end
  end.

Definition log_call (name : str) (response : outcome (list suggestion))
    (r : remote) (w : world) : world :=
  {| disk := disk w; writable := writable w;
     service := r; calls := calls w ++ [(name, response)] |}.

(** The result, the cache dictionary after the call (it is mutated in
    place) and the world after the call. *)
Definition resolve_country_to_geo_target
    (country_name : str) (cache : gmap str str) (w : world)
  : outcome (option str) * gmap str str * world :=
  match cache !! country_name with
  | Some cached => (Return (Some cached), cache, w)
  | None =>
      let '(response, r) := suggest_geo_target_constants country_name (service w) in
      let w := log_call country_name response r w in
      let '(body, cache) :=
        match response with
        | Raise e => (Raise e, cache)
        | Return suggestions =>
            match best_match suggestions with
            | Some resource_name =>
                (Return (Some resource_name), <[country_name := resource_name]> cache)
            | None => (Return None, cache)
            end
        end in
      (try_except
         (try_except body is_GoogleAdsException (fun _ => Return None))
         (fun _ => true) (fun _ => Return None),
       cache, w)
  end.

(** [if geo_target:] *)
Definition truthy (geo_target : option str) : bool :=
  match geo_target with
  | Some (_ :: _) => true
  | Some [] | None => false
  end.

(** The [for] loop of lines 118-121. *)
Fixpoint resolve_each (country_names : list str) (geo_targets : list str)
    (cache : gmap str str) (w : world)
  : outcome (list str) * gmap str str * world :=
  match country_names with
  | [] => (Return geo_targets, cache, w)
  | country_name :: rest =>
      match resolve_country_to_geo_target country_name cache w with
      | (Return geo_target, cache, w) =>
          let geo_targets :=
            match geo_target with
            | Some g => if truthy geo_target then geo_targets ++ [g] else geo_targets
            | None => geo_targets
            end in
          resolve_each rest geo_targets cache w
      | (Raise e, cache, w) => (Raise e, cache, w)
      end
  end.

Definition resolve_countries (country_names : list str) (w : world)
  : outcome (list str) * world :=
  let cache := load_cache w in
  match resolve_each country_names [] cache w with
  | (Return geo_targets, cache, w) => (Return geo_targets, save_cache cache w)
  | (Raise e, _, w) => (Raise e, w)
  end.

End Service.

Arguments disk {remote} w.
Arguments writable {remote} w.
Arguments service {remote} w.
Arguments calls {remote} w.

End GeoTargets.

(** ** The standard library's [json.loads]

    A model of CPython's decoder as it runs under [json.loads(text)] with the
    default arguments: the accelerated scanner ([_json.c]: [scan_once],
    [_parse_object], [_parse_array], [scanstring], [_match_number]) driven by
    [JSONDecoder.decode].  The scanner works on the remaining text together
    with the index of its first character; indices only feed error
    messages. *)

Module Json.
Import Py.

Inductive json :=
| JNull
| JBool (b : bool)
| JInt (z : Z)
| JFloat (text : str)          (* the float denoted by [text] *)
| JString (s : str)
| JArray (items : list json)
| JObject (members : list (str * json)).

Definition is_dict (v : json) : bool :=
  match v with JObject _ => true | _ => false end.

(** [d[key] = val] on an insertion-ordered dictionary. *)
Fixpoint dict_set (key : str) (val : json) (d : list (str * json))
  : list (str * json) :=
  match d with
  | [] => [(key, val)]
  | (k, v) :: d' =>
      if str_eqb k key then (k, val) :: d' else (k, v) :: dict_set key val d'
  end.

(** How a scan fails.  A position in the document is recorded as [remaining], the
    number of characters from that position to the end of the document; the
    index that Python reports is the length of the document minus [remaining]. *)
Inductive failure :=
| DecodeError (msg : str) (remaining : nat)   (* JSONDecodeError(msg, doc, idx) *)
| StopIteration (remaining : nat)             (* StopIteration(idx) *)
| Error (e : exn).

(** A scan returns a value and the text that remains, or fails. *)
Inductive scan (A : Type) :=
| Ok (a : A) (rest : str)
| Failed (f : failure).
Arguments Ok {A} a rest.
Arguments Failed {A} f.

Definition is_char (a : ascii) (c : char) : bool := N.eqb c (N_of_ascii a).
Arguments is_char a%_char c.

Definition is_whitespace (c : char) : bool :=
  is_char " " c || N.eqb c 9%N || N.eqb c 10%N || N.eqb c 13%N.

Fixpoint skip_ws (s : str) : str :=
  match s with
  | c :: s' => if is_whitespace c then skip_ws s' else s
  | [] => []
  end.

Definition is_digit (c : char) : bool := ((48 <=? c) && (c <=? 57))%N.

Definition hex_val (c : char) : option N :=
  if is_digit c then Some (c - 48)%N
  else if ((97 <=? c) && (c <=? 102))%N then Some (c - 87)%N
  else if ((65 <=? c) && (c <=? 70))%N then Some (c - 55)%N
  else None.

Definition hex4 (a b c d : char) : option N :=
  match hex_val a, hex_val b, hex_val c, hex_val d with
  | Some x, Some y, Some z, Some w => Some (((x * 16 + y) * 16 + z) * 16 + w)%N
  | _, _, _, _ => None
  end.

Definition is_high_surrogate (c : N) : bool := ((55296 <=? c) && (c <=? 56319))%N.
Definition is_low_surrogate (c : N) : bool := ((56320 <=? c) && (c <=? 57343))%N.
Definition join_surrogates (c c2 : N) : N :=
  (65536 + ((c - 55296) * 1024 + (c2 - 56320)))%N.

Definition escape_char (c : char) : option char :=
  if N.eqb c dquote then Some dquote
  else if is_char "\" c then Some c
  else if is_char "/" c then Some c
  else if is_char "b" c then Some 8%N
  else if is_char "f" c then Some 12%N
  else if is_char "n" c then Some 10%N
  else if is_char "r" c then Some 13%N
  else if is_char "t" c then Some 9%N
  else None.

Definition unterminated : str := lit "Unterminated string starting at".
Definition invalid_uXXXX : str := lit "Invalid \uXXXX escape".

(** [scanstring(s, end, strict=True)]: [s] starts after the opening quote,
    [begin] locates that quote, and [chunks] holds the decoded characters so
    far, last first. *)
Fixpoint scanstring (s : str) (begin : nat) (chunks : str) {struct s}
  : scan str :=
  match s with
  | [] => Failed (DecodeError unterminated begin)
  | c :: s1 =>
      if N.eqb c dquote then Ok (rev chunks) s1
      else if is_char "\" c then
        match s1 with
        | [] => Failed (DecodeError unterminated begin)
        | e :: s2 =>
            if is_char "u" e then
              match s2 with
              | h1 :: h2 :: h3 :: h4 :: ((_ :: _) as s3) =>
                  match hex4 h1 h2 h3 h4 with
                  | None => Failed (DecodeError invalid_uXXXX (List.length s1))
                  | Some c1 =>
                      match s3 with
                      | b :: ((u :: g1 :: g2 :: g3 :: g4 :: ((_ :: _) as s4)) as s3') =>
                          if is_high_surrogate c1 && is_char "\" b && is_char "u" u then
                            match hex4 g1 g2 g3 g4 with
                            | None =>
                                Failed (DecodeError invalid_uXXXX (List.length s3'))
                            | Some c2 =>
                                if is_low_surrogate c2
                                then scanstring s4 begin
                                       (join_surrogates c1 c2 :: chunks)
                                else scanstring s3 begin (c1 :: chunks)
                            end
                          else scanstring s3 begin (c1 :: chunks)
                      | _ => scanstring s3 begin (c1 :: chunks)
                      end
                  end
              | _ => Failed (DecodeError invalid_uXXXX (List.length s1))
              end
            else
              match escape_char e with
              | Some x => scanstring s2 begin (x :: chunks)
              | None => Failed (DecodeError (lit "Invalid \escape") (List.length s))
              end
        end
      else if (c <=? 31)%N
      then Failed (DecodeError (lit "Invalid control character at") (List.length s))
      else scanstring s1 begin (c :: chunks)
  end.

(** The lookahead of [scanstring] after an escape [\uXXXX] that decoded to
    [c1], as a function of the text [s3] that follows the escape: a low
    surrogate that pairs with [c1], none, or a malformed one. *)
Inductive lookahead :=
| Paired (c : N) (rest : str)
| Unpaired
| BadPair (remaining : nat).

Definition low_surrogate_ahead (c1 : N) (s3 : str) : lookahead :=
  match s3 with
  | b :: ((u :: g1 :: g2 :: g3 :: g4 :: ((_ :: _) as s4)) as s3') =>
      if is_high_surrogate c1 && is_char "\" b && is_char "u" u then
        match hex4 g1 g2 g3 g4 with
        | None => BadPair (List.length s3')
        | Some c2 =>
            if is_low_surrogate c2 then Paired (join_surrogates c1 c2) s4
            else Unpaired
        end
      else Unpaired
  | _ => Unpaired
  end.

(** Text made of JSON whitespace only. *)
Definition json_blank (p : str) : Prop :=
  Forall (fun c => is_whitespace c = true) p.

(** Text that cannot continue a number: empty, or starting with whitespace,
    a comma or a closing bracket or brace. *)
Definition delimited (t : str) : Prop :=
  match t with
  | [] => True
  | x :: _ =>
      is_whitespace x || is_char "," x || is_char "]" x || is_char "}" x = true
  end.

(** Numbers: an optional minus sign and either a single 0 or a digit run
    that does not start with 0; then optionally a dot with at least one
    digit; then optionally e or E, an optional sign and at least one digit. *)
Fixpoint take_digits (s : str) : str * str :=
  match s with
  | c :: s' =>
      if is_digit c then let '(ds, r) := take_digits s' in (c :: ds, r)
      else ([], s)
  | [] => ([], [])
  end.

Definition match_integer (s : str) : option (str * str) :=
  let '(sign, s1) :=
    match s with
    | c :: s' => if is_char "-" c then ([c], s') else ([], s)
    | [] => ([], s)
    end in
  match s1 with
  | c :: s2 =>
      if is_char "0" c then Some (sign ++ [c], s2)
      else if is_digit c
           then let '(ds, r) := take_digits s2 in Some (sign ++ c :: ds, r)
           else None
  | [] => None
  end.

Definition match_frac (s : str) : str * str :=
  match s with
  | dot :: d :: s' =>
      if is_char "." dot && is_digit d
      then let '(ds, r) := take_digits (d :: s') in (dot :: ds, r)
      else ([], s)
  | _ => ([], s)
  end.

Definition match_exp (s : str) : str * str :=
  match s with
  | e :: s1 =>
      if is_char "e" e || is_char "E" e then
        let '(sign, s2) :=
          match s1 with
          | c :: s' => if is_char "+" c || is_char "-" c then ([c], s') else ([], s1)
          | [] => ([], s1)
          end in
        let '(ds, r) := take_digits s2 in
        match ds with
        | [] => ([], s)
        | _ :: _ => (e :: sign ++ ds, r)
        end
      else ([], s)
  | [] => ([], s)
  end.

Definition int_of_digits (ds : str) : Z :=
  fold_left (fun acc c => (acc * 10 + Z.of_N (c - 48))%Z) ds 0%Z.

(** [int(text)] on a matched integer literal, with the interpreter's limit of
    4300 digits on conversions from text. *)
Definition parse_int (text : str) : outcome json :=
  let '(negative, ds) :=
    match text with
    | c :: ds => if is_char "-" c then (true, ds) else (false, text)
    | [] => (false, text)
    end in
  if 4300 <? List.length ds
  then Raise (Exn ValueError
         (lit "Exceeds the limit (4300 digits) for integer string conversion: value has "
          ++ str_of_nat (List.length ds)
          ++ lit " digits; use sys.set_int_max_str_digits() to increase the limit"))
  else Return (JInt (if negative then - int_of_digits ds else int_of_digits ds)%Z).

Definition match_number (s : str) : scan json :=
  match match_integer s with
  | None => Failed (StopIteration (List.length s))
  | Some (integer, s1) =>
      let '(frac, s2) := match_frac s1 in
      let '(exp, s3) := match_exp s2 in
      match frac ++ exp with
      | [] => match parse_int integer with
              | Return v => Ok v s3
              | Raise e => Failed (Error e)
              end
      | _ :: _ => Ok (JFloat (integer ++ frac ++ exp)) s3
      end
  end.

Definition recursion_error (what : str) : exn :=
  Exn RecursionError
    (lit "maximum recursion depth exceeded while decoding a JSON " ++ what
     ++ lit " from a unicode string").

Definition expecting_name : str :=
  lit "Expecting property name enclosed in double quotes".
Definition expecting_colon : str := lit "Expecting ':' delimiter".
Definition expecting_comma : str := lit "Expecting ',' delimiter".

(** [scan_once], [_parse_object] and [_parse_array].  [fuel] bounds the
    nesting of calls (see [scan_once_fuel]: twice the length of the text,
    plus one, is always enough); [depth] is the interpreter's remaining
    recursion budget, and a nested object or array uses one unit of it.
    [parse_object] starts at the first property name with the pairs read so
    far, [parse_array] at the next element with the values read so far. *)
Fixpoint scan_once (fuel depth : nat) (s : str) {struct fuel}
  : option (scan json) :=
  match fuel with
  | O => None
  | S fuel =>
      match s with
      | [] => Some (Failed (StopIteration 0))
      | c :: s1 =>
          if N.eqb c dquote then
            Some match scanstring s1 (List.length s) [] with
                 | Ok str rest => Ok (JString str) rest
                 | Failed f => Failed f
                 end
          else if is_char "{" c then
            match depth with
            | O => Some (Failed (Error (recursion_error (lit "object"))))
            | S depth =>
                match skip_ws s1 with
                | c2 :: s3 =>
                    if is_char "}" c2 then Some (Ok (JObject []) s3)
                    else parse_object fuel depth (c2 :: s3) []
                | [] => parse_object fuel depth [] []
                end
            end
          else if is_char "[" c then
            match depth with
            | O => Some (Failed (Error (recursion_error (lit "array"))))
            | S depth =>
                match skip_ws s1 with
                | c2 :: s3 =>
                    if is_char "]" c2 then Some (Ok (JArray []) s3)
                    else parse_array fuel depth (c2 :: s3) []
                | [] => parse_array fuel depth [] []
                end
            end
          else if startswith (lit "null") s
          then Some (Ok JNull (skipn 4 s))
          else if startswith (lit "true") s
          then Some (Ok (JBool true) (skipn 4 s))
          else if startswith (lit "false") s
          then Some (Ok (JBool false) (skipn 5 s))
          else if startswith (lit "NaN") s
          then Some (Ok (JFloat (lit "NaN")) (skipn 3 s))
          else if startswith (lit "Infinity") s
          then Some (Ok (JFloat (lit "Infinity")) (skipn 8 s))
          else if startswith (lit "-Infinity") s
          then Some (Ok (JFloat (lit "-Infinity")) (skipn 9 s))
          else Some (match_number s)
      end
  end

with parse_object (fuel depth : nat) (s : str) (pairs : list (str * json))
    {struct fuel} : option (scan json) :=
  match fuel with
  | O => None
  | S fuel =>
      match s with
      | [] => Some (Failed (DecodeError expecting_name 0))
      | c :: s1 =>
          if negb (N.eqb c dquote)
          then Some (Failed (DecodeError expecting_name (List.length s)))
          else
          match scanstring s1 (List.length s) [] with
          | Failed f => Some (Failed f)
          | Ok key s2 =>
              match skip_ws s2 with
              | [] => Some (Failed (DecodeError expecting_colon 0))
              | colon :: s4 =>
                  if negb (is_char ":" colon)
                  then Some (Failed (DecodeError expecting_colon
                                       (List.length (colon :: s4))))
                  else
                  match scan_once fuel depth (skip_ws s4) with
                  | None => None
                  | Some (Failed f) => Some (Failed f)
                  | Some (Ok val s6) =>
                      let pairs := dict_set key val pairs in
                      match skip_ws s6 with
                      | [] => Some (Failed (DecodeError expecting_comma 0))
                      | c7 :: s8 =>
                          if is_char "}" c7 then Some (Ok (JObject pairs) s8)
                          else if is_char "," c7
                          then parse_object fuel depth (skip_ws s8) pairs
                          else Some (Failed (DecodeError expecting_comma
                                               (List.length (c7 :: s8))))
                      end
                  end
              end
          end
      end
  end

with parse_array (fuel depth : nat) (s : str) (values : list json)
    {struct fuel} : option (scan json) :=
  match fuel with
  | O => None
  | S fuel =>
      match scan_once fuel depth s with
      | None => None
      | Some (Failed f) => Some (Failed f)
      | Some (Ok val s1) =>
          let values := values ++ [val] in
          match skip_ws s1 with
          | [] => Some (Failed (DecodeError expecting_comma 0))
          | c2 :: s3 =>
              if is_char "]" c2 then Some (Ok (JArray values) s3)
              else if is_char "," c2
              then parse_array fuel depth (skip_ws s3) values
              else Some (Failed (DecodeError expecting_comma
                                   (List.length (c2 :: s3))))
          end
      end
  end.

(** [JSONDecodeError.__init__]: the message carries line, column and index. *)
Definition lineno (doc : str) (pos : nat) : nat :=
  count_char newline (firstn pos doc) + 1.

Definition colno (doc : str) (pos : nat) : nat :=
  match rfind_char newline (firstn pos doc) with
  | Some i => pos - i
  | None => pos + 1
  end.

Definition decode_error (msg doc : str) (pos : nat) : exn :=
  Exn JSONDecodeError
    (msg ++ lit ": line " ++ str_of_nat (lineno doc pos)
     ++ lit " column " ++ str_of_nat (colno doc pos)
     ++ lit " (char " ++ str_of_nat pos ++ lit ")").

(** [json.loads(s)] for a [str] argument, under a remaining recursion
    budget of [depth]. *)
Definition loads (depth : nat) (s : str) : outcome json :=
  let error msg remaining := Raise (decode_error msg s (List.length s - remaining)) in
  if startswith [65279%N] s
  then error (lit "Unexpected UTF-8 BOM (decode using utf-8-sig)") (List.length s)
  else
    match scan_once (2 * List.length s + 1) depth (skip_ws s) with
    | Some (Ok obj rest) =>
        match skip_ws rest with
        | [] => Return obj
        | c :: rest' => error (lit "Extra data") (List.length (c :: rest'))
        end
    | Some (Failed (DecodeError msg remaining)) => error msg remaining
    | Some (Failed (StopIteration remaining)) => error (lit "Expecting value") remaining
    | Some (Failed (Error e)) => Raise e
    | None => Raise (recursion_error [])   (* not reached: [scan_once_fuel] *)
    end.

(** *** Vocabulary of the facts about the scanner *)

Definition no_digit_ahead (t : str) : Prop :=
  match t with [] => True | x :: _ => is_digit x = false end.

Definition no_fraction_ahead (t : str) : Prop :=
  match t with
  | [] => True
  | x :: _ => is_digit x = false /\ is_char "." x = false
  end.

Definition no_exponent_ahead (t : str) : Prop :=
  match t with
  | [] => True
  | x :: _ => is_digit x = false /\ is_char "e" x = false /\ is_char "E" x = false
  end.

(** Text that cannot continue a number literal. *)
Definition ends_number (t : str) : Prop :=
  match t with
  | [] => True
  | x :: _ => is_digit x = false /\ is_char "." x = false
              /\ is_char "e" x = false /\ is_char "E" x = false
  end.

(** Text that starts like a number: a digit, or a minus sign and a digit. *)
Definition number_start (c : str) : Prop :=
  match c with
  | d :: c' =>
      is_digit d = true
      \/ (is_char "-" d = true
          /\ match c' with d' :: _ => is_digit d' = true | [] => False end)
  | [] => False
  end.

(** Text that starts with a character other than whitespace. *)
Definition solid (s : str) : Prop :=
  match s with x :: _ => is_whitespace x = false | [] => False end.

(** Locality of the three scanning functions: a successful scan consumed a
    prefix [c] of the text, and scans [c] to the same value whatever text
    follows it (for [scan_once], text that cannot continue a number); the
    text of a dictionary runs from its opening to its closing brace. *)
Definition local_scan (fuel depth : nat) : Prop :=
  forall s v rest,
    scan_once fuel depth s = Some (Ok v rest) ->
    exists c, s = c ++ rest
              /\ solid c
              /\ (is_dict v = true -> exists inner, c = ch "{" :: inner ++ [ch "}"])
              /\ forall t, delimited t -> scan_once fuel depth (c ++ t) = Some (Ok v t).

Definition local_object (fuel depth : nat) : Prop :=
  forall s pairs v rest,
    parse_object fuel depth s pairs = Some (Ok v rest) ->
    is_dict v = true
    /\ exists c, s = c ++ ch "}" :: rest
                 /\ forall t, parse_object fuel depth (c ++ ch "}" :: t) pairs
                              = Some (Ok v t).

Definition local_array (fuel depth : nat) : Prop :=
  forall s values v rest,
    parse_array fuel depth s values = Some (Ok v rest) ->
    is_dict v = false
    /\ exists c, s = c ++ ch "]" :: rest
                 /\ forall t, parse_array fuel depth (c ++ ch "]" :: t) values
                              = Some (Ok v t).

End Json.

(** ** [src/openai_client.py] *)

Module OpenAIClient.
Import Py Json.

Definition error_record (message : str) : json :=
  JObject [(lit "error", JString message)].

Definition missing_inputs : json :=
  error_record
    (lit "Blog text and/or keyword data missing. Please provide the necessary inputs.").

(** Lines 45-51. *)
Definition user_message (blog_content csv_content : str) : str :=
  lit "Blog Content:" ++ [newline] ++ blog_content ++ [newline; newline]
  ++ lit "Keyword Data (CSV):" ++ [newline] ++ csv_content ++ [newline; newline]
  ++ lit "Please analyze the blog content and keyword data, then return the categorized keywords in the specified JSON format.".

(** Lines 159-165: the span from the first opening brace to the last closing
    brace, or the whole text. *)
Definition json_boundaries (response_text : str) : str :=
  match find_char (ch "{") response_text, rfind_char (ch "}") response_text with
  | Some start_idx, Some end_idx =>
      if start_idx <? end_idx
      then slice start_idx (end_idx + 1) response_text
      else response_text
  | _, _ => response_text
  end.

(** Lines 173-186. *)
Definition fix_common_issues (json_text : str) : str :=
  let json_text_fixed := json_text in
  let json_text_fixed := replace (lit "'") [dquote] json_text_fixed in
  let json_text_fixed := replace (lit "None") (lit "null") json_text_fixed in
  let json_text_fixed := replace (lit "True") (lit "true") json_text_fixed in
  let json_text_fixed := replace (lit "False") (lit "false") json_text_fixed in
  let open_braces := count_char (ch "{") json_text_fixed in
  let close_braces := count_char (ch "}") json_text_fixed in
  if close_braces <? open_braces
  then json_text_fixed ++ repeat (ch "}") (open_braces - close_braces)
  else json_text_fixed.

(** The [for] loop of lines 199-206. *)
Fixpoint collect_lines (lines json_lines : list str) (brace_count : Z)
    (started : bool) : list str :=
  match lines with
  | [] => json_lines
  | line :: lines =>
      let started := has_char (ch "{") line || started in
      if started then
        let json_lines := json_lines ++ [line] in
        let brace_count :=
          (brace_count + (Z.of_nat (count_char (ch "{") line)
                          - Z.of_nat (count_char (ch "}") line)))%Z in
        if (brace_count =? 0)%Z && has_char (ch "}") line
        then json_lines
        else collect_lines lines json_lines brace_count started
      else collect_lines lines json_lines brace_count started
  end.

Section Client.

(** The interpreter's remaining recursion budget when [json.loads] runs. *)
Variable depth : nat.

(** Lines 154-216: parse the response text, repairing it if needed.  A
    [JSONDecodeError] is handled here; anything else [json.loads] raises is
    left to the handler of line 218. *)
Definition parse_response (response_text : str) : outcome json :=
  let response_text := strip response_text in
  let json_text := json_boundaries response_text in
  try_except (loads depth json_text) is_JSONDecodeError (fun e =>
    let json_text_fixed := fix_common_issues json_text in
    try_except (loads depth json_text_fixed) is_JSONDecodeError (fun e2 =>
      let lines := split_char newline json_text_fixed in
      let json_lines := collect_lines lines [] 0%Z false in
      let json_text_final := join [newline] json_lines in
      try_except (loads depth json_text_final) is_JSONDecodeError (fun _ =>
        Return (error_record
          (lit "Failed to parse JSON response from GPT-5.2. Error: "
           ++ exn_str e2 ++ lit ". Response preview: "
           ++ firstn 300 response_text ++ lit "..."))))).

(** Line 218: [except Exception as e]. *)
Definition api_error (e : exn) : outcome json :=
  Return (error_record (lit "Error calling OpenAI API: " ++ exn_str e)).

(** The parse-and-repair stage as the caller sees it: [parse_response] under
    the handler of line 218. *)
Definition repair (response_text : str) : outcome json :=
  try_except (parse_response response_text) (fun _ => true) api_error.

(** The client: the state of the language-model service, the two endpoints
    and the response objects they return.  [response_text_of] stands for
    lines 105-152, which pick the text out of a response object and may
    raise. *)
Variable model : Type.
Variable response : Type.
Variable has_responses : bool.
Variable responses_create : str -> str -> model -> outcome response * model.
Variable chat_completions_create : str -> str -> model -> outcome response * model.
Variable response_text_of : response -> outcome str.

Inductive endpoint := Responses | ChatCompletions.

Record world := {
  llm : model;
  (* the requests sent to the language model, oldest first *)
  requests : list (endpoint * str * str)
}.

Definition call (ep : endpoint) (developer_prompt message : str) (w : world)
  : outcome response * world :=
  let '(r, m) :=
    match ep with
    | Responses => responses_create developer_prompt message (llm w)
    | ChatCompletions => chat_completions_create developer_prompt message (llm w)
    end in
  (r, {| llm := m; requests := requests w ++ [(ep, developer_prompt, message)] |}).

(** Lines 56-103. *)
Definition create_response (developer_prompt message : str) (w : world)
  : outcome response * world :=
  let '(r, w) :=
    call (if has_responses then Responses else ChatCompletions)
      developer_prompt message w in
  match r with
  | Return _ => (r, w)
  | Raise e =>
      if is_AttributeError e
      then call ChatCompletions developer_prompt message w
      else (r, w)
  end.

Definition categorize_keywords_with_gpt52
    (blog_content csv_content developer_prompt : str) (w : world)
  : outcome json * world :=
  match blog_content, strip blog_content with
  | [], _ | _, [] => (Return missing_inputs, w)
  | _ :: _, _ :: _ =>
  match csv_content, strip csv_content with
  | [], _ | _, [] => (Return missing_inputs, w)
  | _ :: _, _ :: _ =>
      let user_message := user_message blog_content csv_content in
      let '(r, w) := create_response developer_prompt user_message w in
      (try_except
         (bind r (fun response =>
          bind (response_text_of response) parse_response))
         (fun _ => true) api_error,
       w)
  end
  end.

End Client.

End OpenAIClient.

(** ** [src/google_ads_client.py] *)

Module GoogleAdsClient.
Import Py.

Inductive keyword_plan_network := GOOGLE_SEARCH.

(** The API takes exactly one seed. *)
Inductive seed :=
| UrlSeed (url : str)
| SiteSeed (site : str).

(** [GenerateKeywordIdeasRequest] as lines 93-144 fill it in. *)
Record request := {
  customer_id : str;
  language : str;
  network : keyword_plan_network;
  geo_target_constants : list str;
  include_adult_keywords : bool;
  keyword_seed : seed
}.

(** [list(dict.fromkeys(l))]: duplicates removed, first occurrences kept. *)
Fixpoint fromkeys (l : list str) : list str :=
  match l with
  | [] => []
  | x :: l' => x :: List.filter (fun y => negb (str_eqb x y)) (fromkeys l')
  end.

(** Truth value of a string or list. *)
Definition nonempty {A} (l : list A) : bool :=
  match l with [] => false | _ :: _ => true end.

Definition has_protocol (url : str) : bool :=
  startswith (lit "http://") url || startswith (lit "https://") url.

Section Client.

(** The keyword-idea service: its state and one call of
    [generate_keyword_ideas(request)] with the iteration over its results,
    each turned into the dictionary of lines 156-179 ([row]).
    [client.get_service] and [client.get_type] build local objects and are
    taken to succeed. *)
Variable remote : Type.
Variable row : Type.
Variable keyword_plan_idea_service :
  request -> remote -> outcome (list row) * remote.

(** [urllib.parse.urlparse]: the [netloc] and [path] of the result. *)
Variable urlparse : str -> outcome (str * str).

(** The outcome of the assignments [request.url_seed.url = ...] and
    [request.site_seed.site = ...], which depend on the API version. *)
Variable set_url_seed : outcome unit.
Variable set_site_seed : outcome unit.

(** Lines 185-256: the message built from a [GoogleAdsException]. *)
Variable ads_error_message : exn -> str.

Record world := {
  service : remote;
  calls : list request   (* requests sent to the service, oldest first *)
}.

Definition ValueError_ (msg : str) : exn := Exn ValueError msg.

(** Lines 65-88. *)
Definition validate_geo_targets (geo_target_constants : list str)
  : outcome (list str) :=
  let valid_geo_targets :=
    List.filter (fun gt => nonempty gt && nonempty (strip gt))
      geo_target_constants in
  if negb (nonempty valid_geo_targets)
  then Raise (ValueError_ (lit "No valid geo target constants found"))
  else
    let valid_geo_targets := fromkeys valid_geo_targets in
    let validated_geo_targets :=
      List.filter
        (fun gt => startswith (lit "geoTargetConstants/") gt
                   && (20 <? List.length gt))
        (List.map strip valid_geo_targets) in
    if negb (nonempty validated_geo_targets)
    then Raise (ValueError_
           (lit "No valid geo target constants found after validation"))
    else
      Return (if 10 <? List.length validated_geo_targets
              then firstn 10 validated_geo_targets
              else validated_geo_targets).

(** Lines 134-144. *)
Definition set_seed (website_url domain : str) : outcome seed :=
  match set_url_seed with
  | Return _ => Return (UrlSeed website_url)
  | Raise e =>
      if is_AttributeError e then
        match set_site_seed with
        | Return _ => Return (SiteSeed domain)
        | Raise e =>
            if is_AttributeError e
            then Raise (ValueError_
                   (lit "Could not set website seed. Neither url_seed nor site_seed available. URL: "
                    ++ website_url ++ lit ", Domain: " ++ domain
                    ++ lit ", Error: " ++ exn_str e))
            else Raise e
        end
      else Raise (ValueError_
             (lit "Error setting website seed. URL: " ++ website_url
              ++ lit ", Error: " ++ exn_str e))
  end.

(** Lines 57-144: everything up to, and not including, the call of the
    service. *)
Definition build_request (customer_id : option str) (website_url : str)
    (geo_target_constants : list str) (language_id : str)
    (include_adult_keywords : bool) : outcome request :=
  match customer_id with
  | None | Some [] => Raise (ValueError_ (lit "Customer ID is required"))
  | Some customer_id =>
      if negb (nonempty geo_target_constants)
      then Raise (ValueError_ (lit "At least one geo target constant is required"))
      else
        validated_geo_targets ← validate_geo_targets geo_target_constants;
        let customer_id_clean := replace (lit "-") [] customer_id in
        parsed ← urlparse website_url;
        let '(netloc, path) := parsed in
        let domain := if nonempty netloc then netloc else strip_char (ch "/") path in
        if negb (nonempty domain)
        then Raise (ValueError_ (lit "Invalid website URL: " ++ website_url))
        else
          let domain :=
            if startswith (lit "www.") domain then skipn 4 domain else domain in
          let domain :=
            replace (lit "http://") [] (replace (lit "https://") [] domain) in
          let website_url :=
            if negb (has_protocol website_url)
            then lit "https://" ++ website_url else website_url in
          let website_url :=
            if negb (has_protocol website_url)
            then lit "https://" ++ website_url else website_url in
          keyword_seed ← set_seed website_url domain;
          Return {| customer_id := customer_id_clean;
                    language := lit "languageConstants/" ++ language_id;
                    network := GOOGLE_SEARCH;
                    geo_target_constants := validated_geo_targets;
                    include_adult_keywords := include_adult_keywords;
                    keyword_seed := keyword_seed |}
  end.

(** Lines 184-262: both handlers re-raise as a plain [Exception] that keeps
    the original as its cause. *)
Definition wrap_error (ex : exn) : exn :=
  if is_GoogleAdsException ex
  then ExnFrom Exception (ads_error_message ex) ex
  else ExnFrom Exception (lit "Google Ads API error: " ++ exn_str ex) ex.

Definition generate_keyword_ideas (customer_id : option str)
    (website_url : str) (geo_target_constants : list str)
    (language_id : str) (max_results : nat) (include_adult_keywords : bool)
    (w : world) : outcome (list row) * world :=
  let '(body, w) :=
    match build_request customer_id website_url geo_target_constants
            language_id include_adult_keywords with
    | Raise ex => (Raise ex, w)
    | Return request =>
        let '(response, r) := keyword_plan_idea_service request (service w) in
        (results ← response; Return (firstn max_results results),
         {| service := r; calls := calls w ++ [request] |})
    end in
  (try_except body (fun _ => true) (fun ex => Raise (wrap_error ex)), w).

End Client.

Arguments service {remote} w.
Arguments calls {remote} w.

End GoogleAdsClient.

(** ** Specification-level notions

    The vocabulary of the specification, stated independently of the code
    above, against which the code is compared below. *)

Module Specification.
Import Py GeoTargets.

(** The classification that a candidate carries: its type when the type is
    a string, the name of the type when it is an enum member, the text of
    the type when it is any other object. *)
Definition classification (c : suggestion) : str :=
  match target_type c with
  | TypeStr s => s
  | TypeEnum name => name
  | TypeOther repr => repr
  end.

(** A candidate is country-level (province-level) when its classification
    names that level. *)
Definition is_country_level (c : suggestion) : bool :=
  contains (lit "COUNTRY") (classification c).

Definition is_province_level (c : suggestion) : bool :=
  contains (lit "PROVINCE") (classification c).

(** [x] is the first item of [l] with the property [P]. *)
Definition first_such {A} (P : A -> bool) (l : list A) (x : A) : Prop :=
  exists before after,
    l = before ++ x :: after
    /\ P x = true
    /\ Forall (fun y => P y = false) before.

(** The candidate that the tie-break policy selects: the first
    country-level candidate; or, when no candidate is country-level, the
    first province-level candidate; or, when no candidate is of either
    level, the first candidate. *)
Definition selected (candidates : list suggestion) (chosen : suggestion) : Prop :=
  first_such is_country_level candidates chosen
  \/ (Forall (fun c => is_country_level c = false) candidates
      /\ first_such is_province_level candidates chosen)
  \/ (Forall (fun c => is_country_level c = false) candidates
      /\ Forall (fun c => is_province_level c = false) candidates
      /\ head candidates = Some chosen).

(** The tie-break policy: the first country-level candidate, else the first
    province-level candidate, else the first candidate. *)
Definition tie_break (candidates : list suggestion) : option suggestion :=
  match List.find is_country_level candidates with
  | Some c => Some c
  | None =>
      match List.find is_province_level candidates with
      | Some c => Some c
      | None => head candidates
      end
  end.

(** The identifier a response of the suggestion service resolves to, if
    any: none when the call raised or returned no candidate. *)
Definition resolves (response : outcome (list suggestion)) : option str :=
  match response with
  | Return candidates => resource_name <$> tie_break candidates
  | Raise _ => None
  end.

(** The name-to-identifier pairs newly resolved by a sequence of calls. *)
Definition newly_resolved (log : list (str * outcome (list suggestion)))
  : list (str * str) :=
  omap (fun call => pair (fst call) <$> resolves (snd call)) log.

(** The names queried by a sequence of calls. *)
Definition queried (log : list (str * outcome (list suggestion))) : list str :=
  List.map fst log.

(** How many times a name occurs in a list of names. *)
Definition occurrences (name : str) (names : list str) : nat :=
  List.length (List.filter (str_eqb name) names).

(** An identifier that is kept in the result: a non-empty one. *)
Definition kept (identifier : option str) : option str :=
  match identifier with
  | Some (c :: s) => Some (c :: s)
  | Some [] | None => None
  end.

(** What a name resolves to in a batch that starts from [cache], when the
    service answers a name with [answer]: the cached identifier, or else the
    one its answer resolves to. *)
Definition resolution (cache : gmap str str)
    (answer : str -> outcome (list suggestion)) (name : str) : option str :=
  match cache !! name with
  | Some identifier => Some identifier
  | None => resolves (answer name)
  end.

(** What one occurrence of [name] contributes to the result of a batch that
    starts from [cache], makes the calls [new] and ends with the cache
    [final]: the identifier that [final] holds for the name, or nothing when
    the name was not cached and a call made for it did not resolve. *)
Definition contributes (cache final : gmap str str)
    (new : list (str * outcome (list suggestion)))
    (name : str) (found : option str) : Prop :=
  match found with
  | Some identifier => final !! name = Some identifier
  | None =>
      cache !! name = None
      /\ exists response, (name, response) ∈ new /\ resolves response = None
  end.

(** Inputs that [generate_keyword_ideas] must refuse. *)
Definition missing_customer_id (customer_id : option str) : Prop :=
  customer_id = None \/ customer_id = Some [].

(** A geo target is valid when, once trimmed, it reads
    [geoTargetConstants/] followed by an identifier, more than 20 characters
    in all. *)
Definition valid_geo_target (gt : str) : bool :=
  startswith (lit "geoTargetConstants/") (strip gt)
  && (20 <? List.length (strip gt)).

Definition no_valid_geo_target (geo_target_constants : list str) : Prop :=
  forall gt, gt ∈ geo_target_constants -> valid_geo_target gt = false.

(** A parsed URL without a domain: no network location, and a path made of
    slashes only. *)
Definition no_domain (parsed : str * str) : Prop :=
  parsed.1 = [] /\ Forall (fun c => c = ch "/") parsed.2.

(** The failure that reaches the caller of [generate_keyword_ideas] for a
    rejected input: an [Exception] whose message names the reason, caused by
    the [ValueError] of the check. *)
Definition rejected (reason : str) : exn :=
  ExnFrom Exception (lit "Google Ads API error: " ++ reason) (Exn ValueError reason).

Definition customer_id_required : str := lit "Customer ID is required".
Definition geo_target_required : str :=
  lit "At least one geo target constant is required".
Definition no_geo_target_found : str :=
  lit "No valid geo target constants found".
Definition no_geo_target_validated : str :=
  lit "No valid geo target constants found after validation".
Definition invalid_website_url (website_url : str) : str :=
  lit "Invalid website URL: " ++ website_url.

(** A text made of whitespace only (the empty text included). *)
Definition blank (s : str) : Prop := Forall (fun c => isspace c = true) s.

End Specification.

(** ** Sample collaborators used to instantiate the results below *)

Module Samples.
Import Py GeoTargets.

Definition country (id : string) : suggestion :=
  {| target_type := TypeEnum (lit "COUNTRY"); resource_name := lit id |}.
Definition province (id : string) : suggestion :=
  {| target_type := TypeStr (lit "PROVINCE"); resource_name := lit id |}.
Definition city (id : string) : suggestion :=
  {| target_type := TypeStr (lit "CITY"); resource_name := lit id |}.

Definition peru_candidates : list suggestion :=
  [city "geoTargetConstants/9"; country "geoTargetConstants/2124"].

(** A suggestion service without state: it knows no Fakeland, fails on
    Atlantis, lists Puerto Rico as a province and anything else as a city
    followed by a country. *)
Definition suggest (name : str) : outcome (list suggestion) :=
  if str_eqb name (lit "Fakeland") then Return []
  else if str_eqb name (lit "Atlantis")
  then Raise (Exn GoogleAdsException (lit "INTERNAL"))
  else if str_eqb name (lit "Puerto Rico")
  then Return [city "geoTargetConstants/1"; province "geoTargetConstants/2630"]
  else Return peru_candidates.

Definition stateless (name : str) (u : unit)
  : outcome (list suggestion) * unit := (suggest name, u).

Definition canada_cache : gmap str str :=
  {[ lit "Canada" := lit "geoTargetConstants/2124" ]}.

Definition start : world unit :=
  {| disk := Stored canada_cache; writable := true; service := tt; calls := [] |}.

Definition fresh : world unit :=
  {| disk := NoFile; writable := true; service := tt; calls := [] |}.

Definition canada : str := lit "Canada".
Definition peru : str := lit "Peru".
Definition fakeland : str := lit "Fakeland".

(** A keyword-idea service that returns no idea, and a URL parser that
    knows the sample URL and takes any other text for a path, as [urlparse]
    does with a text that names neither a scheme nor a network location. *)
Definition no_ideas (request : GoogleAdsClient.request) (u : unit)
  : outcome (list unit) * unit := (Return [], u).

Definition parse_url (url : str) : outcome (str * str) :=
  if str_eqb url (lit "https://www.example.com/blog")
  then Return (lit "www.example.com", lit "/blog")
  else Return ([], url).

Definition describe_ads_error (e : exn) : str := lit "Google Ads API error".

Definition good_customer : option str := Some (lit "123-456-7890").
Definition good_geo : list str := [lit "geoTargetConstants/2124"].
Definition bad_geo : list str := [lit "  "; lit "Canada"].
Definition good_url : str := lit "https://www.example.com/blog".
Definition bad_url : str := lit "/".
Definition malformed_url : str := lit "not a url".

(** The recursion limit of a fresh interpreter. *)
Definition recursion_limit : nat := 1000.

(** A truncated response, a response truncated before its closing braces
    only, a well-formed object (also between blanks), prose with braces and
    a well-formed list. *)
Definition truncated_array : str := qlit "{`a`: [1, 2".
Definition truncated_object : str := qlit "{`a`: {`b`: [1, 2]".
Definition small_object : str := qlit "{`a`: 1}".
Definition spaced_object : str := qlit " {`a`: 1} ".
Definition braced_prose : str := lit "Use {x}: ".
Definition array_text : str := lit "[1, 2]".

(** A language model that answers every request with the same text. *)
Definition parrot (developer_prompt message : str) (u : unit)
  : outcome str * unit := (Return small_object, u).

Definition quiet : OpenAIClient.world unit :=
  {| OpenAIClient.llm := tt; OpenAIClient.requests := [] |}.

Definition idle : GoogleAdsClient.world unit :=
  {| GoogleAdsClient.service := tt; GoogleAdsClient.calls := [] |}.

End Samples.

(** ** Keyword ideas: [src/google_ads_client.py], lines 149-182 *)

Module KeywordIdeas.
Import Py.

(** [str(n)] for an integer. *)
Fixpoint decimal (fuel : nat) (n : N) (acc : str) : str :=
  match fuel with
  | O => acc
  | S fuel =>
      let acc := (48 + n mod 10)%N :: acc in
      if (n <? 10)%N then acc else decimal fuel (n / 10)%N acc
  end.

Definition str_of_Z (z : Z) : str :=
  let n := Z.abs_N z in
  let text := decimal (S (N.size_nat n)) n [] in
  if (z <? 0)%Z then ch "-" :: text else text.

(** A member of the [KeywordPlanCompetitionLevel] enum: its number and its
    name.  It is true when its number is not 0. *)
Record competition_level := {
  number : Z;
  name : str
}.

(** A [MonthlySearchVolume] of the service; [None] stands for an attribute
    that the object lacks ([hasattr] is false).  [month] is the name of the
    month. *)
Record monthly_search_volume := {
  year : option Z;
  month : option str;
  monthly_searches : option Z
}.

(** The [keyword_idea_metrics] of a result.  A numeric field that the
    service did not set reads as 0; [monthly_search_volumes] is [None] when
    the object lacks the attribute. *)
Record keyword_idea_metrics := {
  metric_avg_monthly_searches : Z;
  metric_competition : competition_level;
  metric_competition_index : Z;
  metric_low_top_of_page_bid_micros : Z;
  metric_high_top_of_page_bid_micros : Z;
  monthly_search_volumes : option (list monthly_search_volume)
}.

(** One result of the service. *)
Record result := {
  text : str;
  metrics : keyword_idea_metrics
}.

(** An entry of [monthly_breakdown]: the dictionary with keys [year],
    [month] and [monthly_searches]; [None] is Python's [None]. *)
Record monthly_volume := {
  volume_year : option Z;
  volume_month : option str;
  volume_monthly_searches : option Z
}.

(** A keyword idea: the dictionary of lines 159-177, with values of the
    types given there.  A field is [None] when the dictionary has no such
    key or, for the three metrics that may be [None], when the value is
    [None]; the readers of the dictionary ([dict.get]) do not tell these
    apart. *)
Record keyword_idea := {
  keyword : option str;
  avg_monthly_searches : option Z;
  competition : option str;
  competition_index : option Z;
  low_top_of_page_bid_micros : option Z;
  high_top_of_page_bid_micros : option Z;
  monthly_breakdown : option (list monthly_volume)
}.

(** [x if x else None] for an integer. *)
Definition nonzero (x : Z) : option Z := if (x =? 0)%Z then None else Some x.

(** Lines 172-176. *)
Definition monthly_volume_of (volume : monthly_search_volume) : monthly_volume :=
  {| volume_year := year volume;
     volume_month := month volume;
     volume_monthly_searches := monthly_searches volume |}.

(** Lines 156-177: the dictionary built from one result. *)
Definition keyword_data (result : result) : keyword_idea :=
  let keyword_text := text result in
  let metrics := metrics result in
  {| keyword := Some keyword_text;
     avg_monthly_searches :=
       Some (if (metric_avg_monthly_searches metrics =? 0)%Z then 0%Z
             else metric_avg_monthly_searches metrics);
     competition :=
       Some (if (number (metric_competition metrics) =? 0)%Z
             then lit "UNKNOWN" else name (metric_competition metrics));
     competition_index := nonzero (metric_competition_index metrics);
     low_top_of_page_bid_micros :=
       nonzero (metric_low_top_of_page_bid_micros metrics);
     high_top_of_page_bid_micros :=
       nonzero (metric_high_top_of_page_bid_micros metrics);
     monthly_breakdown :=
       match monthly_search_volumes metrics with
       | Some (volume :: volumes) =>
           Some (List.map monthly_volume_of (volume :: volumes))
       | Some [] | None => None
       end |}.

(** The keyword-idea service seen through lines 149-182: each result of the
    answer becomes a dictionary. *)
Definition as_dictionaries {remote request : Type}
    (service : request -> remote -> outcome (list result) * remote)
    (request : request) (r : remote) : outcome (list keyword_idea) * remote :=
  let '(response, r) := service request r in
  (results ← response; Return (List.map keyword_data results), r).

End KeywordIdeas.

(** ** [src/csv_export.py] *)

Module CsvExport.
Import Py KeywordIdeas.

Definition comma : char := ch ",".
Definition carriage_return : char := 13%N.

Definition fieldnames : list str :=
  [lit "keyword"; lit "avg_monthly_searches"; lit "competition";
   lit "competition_index"; lit "low_top_of_page_bid_micros";
   lit "high_top_of_page_bid_micros"].

(** [csv.writer] with the default dialect ([excel]): fields are separated
    by commas, rows end with CR LF, and a field is put between double
    quotes, its own double quotes doubled, when it holds a comma, a double
    quote, a CR or a LF ([QUOTE_MINIMAL]). *)
Definition special (c : char) : bool :=
  N.eqb c comma || N.eqb c dquote || N.eqb c carriage_return || N.eqb c newline.

Fixpoint double_quotes (field : str) : str :=
  match field with
  | [] => []
  | c :: field => if N.eqb c dquote then dquote :: dquote :: double_quotes field
                  else c :: double_quotes field
  end.

Definition write_field (field : str) : str :=
  if existsb special field
  then dquote :: double_quotes field ++ [dquote]
  else field.

(** [writer.writerow(fields)] for two fields or more. *)
Definition writerow (fields : list str) : str :=
  join [comma] (List.map write_field fields) ++ [carriage_return; newline].

(** [x or ""] for an integer or [None], as the writer prints it. *)
Definition or_blank (x : option Z) : str :=
  match x with
  | Some z => if (z =? 0)%Z then [] else str_of_Z z
  | None => []
  end.

(** Lines 39-47: the row of one idea, each value as the writer prints it. *)
Definition row (idea : keyword_idea) : list str :=
  [ default [] (keyword idea);
    str_of_Z (default 0%Z (avg_monthly_searches idea));
    default (lit "UNKNOWN") (competition idea);
    or_blank (competition_index idea);
    or_blank (low_top_of_page_bid_micros idea);
    or_blank (high_top_of_page_bid_micros idea) ].

Definition keyword_ideas_to_csv (keyword_ideas : list keyword_idea) : str :=
  match keyword_ideas with
  | [] => []
  | _ :: _ =>
      writerow fieldnames ++ List.concat (List.map (fun idea => writerow (row idea)) keyword_ideas)
  end.

(** [x.get("avg_monthly_searches", 0)] *)
Definition volume (x : keyword_idea) : Z := default 0%Z (avg_monthly_searches x).

(** [sorted(l, key=..., reverse=True)]: the sort is stable, so that of two
    items with equal keys the one that comes first in [l] comes first in the
    result. *)
Fixpoint insert_descending {A} (key : A -> Z) (x : A) (l : list A) : list A :=
  match l with
  | [] => [x]
  | y :: l' => if (key x <? key y)%Z then y :: insert_descending key x l'
               else x :: y :: l'
  end.

Fixpoint sorted_descending {A} (key : A -> Z) (l : list A) : list A :=
  match l with
  | [] => []
  | x :: l' => insert_descending key x (sorted_descending key l')
  end.

(** [l[:k]] for an integer [k] of either sign. *)
Definition up_to {A} (k : Z) (l : list A) : list A :=
  if (0 <=? k)%Z then firstn (Z.to_nat k) l
  else firstn (List.length l - Z.to_nat (- k)) l.

Definition get_top_keywords_by_volume (keyword_ideas : list keyword_idea)
    (top_k : Z) : list keyword_idea :=
  let sorted_keywords := sorted_descending volume keyword_ideas in
  up_to top_k sorted_keywords.

End CsvExport.

(** ** Reading CSV back

    A reader for the format of RFC 4180, against which the text written by
    [keyword_ideas_to_csv] is checked: records end with CR LF, fields are
    separated by commas, and a field that starts with a double quote runs to
    the next double quote that is not doubled. *)

Module Rfc4180.
Import Py CsvExport.

Inductive state :=
| FieldStart      (* at the start of a field *)
| Plain           (* inside a field without quotes *)
| Quoted          (* inside a quoted field *)
| QuoteSeen.      (* after a double quote inside a quoted field *)

(** [field] holds the characters of the current field, last first;
    [record] the fields of the current record, last first; [records] the
    records read so far, last first. *)
Fixpoint read (st : state) (field : str) (record : list str)
    (records : list (list str)) (s : str) : option (list (list str)) :=
  match s with
  | [] =>
      match st, record with
      | FieldStart, [] => Some (rev records)
      | _, _ => None
      end
  | c :: s' =>
      match st with
      | Quoted =>
          if N.eqb c dquote then read QuoteSeen field record records s'
          else read Quoted (c :: field) record records s'
      | QuoteSeen =>
          if N.eqb c dquote then read Quoted (c :: field) record records s'
          else if N.eqb c comma
          then read FieldStart [] (rev field :: record) records s'
          else if N.eqb c carriage_return then
            match s' with
            | l :: s'' =>
                if N.eqb l newline
                then read FieldStart [] [] (rev (rev field :: record) :: records) s''
                else None
            | [] => None
            end
          else None
      | FieldStart | Plain =>
          if N.eqb c dquote then
            match st with
            | FieldStart => read Quoted [] record records s'
            | _ => None
            end
          else if N.eqb c comma
          then read FieldStart [] (rev field :: record) records s'
          else if N.eqb c carriage_return then
            match s' with
            | l :: s'' =>
                if N.eqb l newline
                then read FieldStart [] [] (rev (rev field :: record) :: records) s''
                else None
            | [] => None
            end
          else if N.eqb c newline then None
          else read Plain (c :: field) record records s'
      end
  end.

(** The records of a CSV text, each a list of fields; [None] when the text
    is not well formed. *)
Definition records (s : str) : option (list (list str)) :=
  read FieldStart [] [] [] s.

End Rfc4180.

(** ** [create_google_ads_client] of [src/google_ads_client.py] *)

Module GoogleAdsConfig.
Import Py.

(** The code points for which [str.isdigit] holds: those of Unicode 14.0
    (CPython 3.11) with a digit value, as inclusive ranges. *)
Definition digit_ranges : list (N * N) :=
  [(48, 57); (178, 179); (185, 185); (1632, 1641); (1776, 1785);
   (1984, 1993); (2406, 2415); (2534, 2543); (2662, 2671); (2790, 2799);
   (2918, 2927); (3046, 3055); (3174, 3183); (3302, 3311); (3430, 3439);
   (3558, 3567); (3664, 3673); (3792, 3801); (3872, 3881); (4160, 4169);
   (4240, 4249); (4969, 4977); (6112, 6121); (6160, 6169); (6470, 6479);
   (6608, 6618); (6784, 6793); (6800, 6809); (6992, 7001); (7088, 7097);
   (7232, 7241); (7248, 7257); (8304, 8304); (8308, 8313); (8320, 8329);
   (9312, 9320); (9332, 9340); (9352, 9360); (9450, 9450); (9461, 9469);
   (9471, 9471); (10102, 10110); (10112, 10120); (10122, 10130);
   (42528, 42537); (43216, 43225); (43264, 43273); (43472, 43481);
   (43504, 43513); (43600, 43609); (44016, 44025); (65296, 65305);
   (66720, 66729); (68160, 68163); (68912, 68921); (69216, 69224);
   (69714, 69722); (69734, 69743); (69872, 69881); (69942, 69951);
   (70096, 70105); (70384, 70393); (70736, 70745); (70864, 70873);
   (71248, 71257); (71360, 71369); (71472, 71481); (71904, 71913);
   (72016, 72025); (72784, 72793); (73040, 73049); (73120, 73129);
   (92768, 92777); (92864, 92873); (93008, 93017); (120782, 120831);
   (123200, 123209); (123632, 123641); (125264, 125273); (127232, 127242);
   (130032, 130041)]%N.

Definition is_digit_char (c : char) : bool :=
  existsb (fun range => (range.1 <=? c) && (c <=? range.2))%N digit_ranges.

(** [s.isdigit()] *)
Definition isdigit (s : str) : bool :=
  match s with
  | [] => false
  | _ :: _ => forallb is_digit_char s
  end.

(** The dictionary given to [GoogleAdsClient.load_from_dict]; [None] for
    [login_customer_id] means that the dictionary has no such key, [None]
    for one of the four credentials that its value is [None]. *)
Record config := {
  developer_token : option str;
  client_id : option str;
  client_secret : option str;
  refresh_token : option str;
  use_proto_plus : bool;
  login_customer_id : option str
}.

(** Lines 13-27: the configuration read from the environment, [getenv]
    being [os.getenv]. *)
Definition client_config (getenv : str -> option str) : config :=
  let login_customer_id := getenv (lit "GOOGLE_ADS_LOGIN_CUSTOMER_ID") in
  {| developer_token := getenv (lit "GOOGLE_ADS_DEVELOPER_TOKEN");
     client_id := getenv (lit "GOOGLE_ADS_CLIENT_ID");
     client_secret := getenv (lit "GOOGLE_ADS_CLIENT_SECRET");
     refresh_token := getenv (lit "GOOGLE_ADS_REFRESH_TOKEN");
     use_proto_plus := true;
     login_customer_id :=
       match login_customer_id with
       | Some (c :: s) =>
           let login_customer_id_clean := replace (lit "-") [] (c :: s) in
           if isdigit login_customer_id_clean
              && (List.length login_customer_id_clean =? 10)
           then Some login_customer_id_clean
           else None
       | Some [] | None => None
       end |}.

(** [create_google_ads_client]: the client that the library builds from the
    configuration, or the exception that it raises. *)
Definition create_google_ads_client {client : Type}
    (load_from_dict : config -> outcome client)
    (getenv : str -> option str) : outcome client :=
  load_from_dict (client_config getenv).

End GoogleAdsConfig.

(** ** Further sample collaborators *)

Module Instances.
Import Py GeoTargets KeywordIdeas Samples.

(** A keyword-idea service that answers every request with three rows. *)
Definition three_rows (request : GoogleAdsClient.request) (u : unit)
  : outcome (list nat) * unit := (Return [1; 2; 3], u).

(** The request built from the sample customer, URL and geo target. *)
Definition good_request : GoogleAdsClient.request :=
  {| GoogleAdsClient.customer_id := lit "1234567890";
     GoogleAdsClient.language := lit "languageConstants/1000";
     GoogleAdsClient.network := GoogleAdsClient.GOOGLE_SEARCH;
     GoogleAdsClient.geo_target_constants := good_geo;
     GoogleAdsClient.include_adult_keywords := false;
     GoogleAdsClient.keyword_seed := GoogleAdsClient.UrlSeed good_url |}.

(** A response without any JSON, and the failure of parsing it. *)
Definition no_keywords : str := lit " I found no keywords. ".

Definition no_value : exn :=
  Exn JSONDecodeError (lit "Expecting value: line 1 column 1 (char 0)").

(** The failure of parsing the sample response that lacks its closing
    braces. *)
Definition missing_comma : exn :=
  Exn JSONDecodeError (lit "Expecting ',' delimiter: line 1 column 19 (char 18)").

(** Two results of the keyword-idea service: one with every metric, one
    with none, whose text holds a comma and double quotes. *)
Definition running_shoes : result :=
  {| text := lit "running shoes";
     metrics :=
       {| metric_avg_monthly_searches := 1000;
          metric_competition := {| number := 4; name := lit "HIGH" |};
          metric_competition_index := 87;
          metric_low_top_of_page_bid_micros := 250000;
          metric_high_top_of_page_bid_micros := 1500000;
          monthly_search_volumes :=
            Some [ {| year := Some 2025%Z; month := Some (lit "JANUARY");
                      monthly_searches := Some 900%Z |} ] |} |}.

Definition quoted_keyword : result :=
  {| text := qlit "shoes, `red`";
     metrics :=
       {| metric_avg_monthly_searches := 0;
          metric_competition := {| number := 0; name := lit "UNSPECIFIED" |};
          metric_competition_index := 0;
          metric_low_top_of_page_bid_micros := 0;
          metric_high_top_of_page_bid_micros := 0;
          monthly_search_volumes := Some [] |} |}.

Definition sample_ideas : list keyword_idea :=
  List.map keyword_data [quoted_keyword; running_shoes].

End Instances.

(** * Results *)

(** ** Strings *)

Section StringFacts.
Import Py.

Lemma str_eqb_eq (a b : str) : str_eqb a b = true <-> a = b.
Proof.
  revert b; induction a as [|x a IH]; intros [|y b]; simpl; split;
    try congruence; try discriminate.
  - intros [Hxy Hab]%andb_prop. apply N.eqb_eq in Hxy. apply IH in Hab.
    congruence.
  - intros [= -> ->]. rewrite N.eqb_refl. simpl. now apply IH.
Qed.

Lemma str_eqb_refl (a : str) : str_eqb a a = true.
Proof. now apply str_eqb_eq. Qed.

Lemma str_eqb_neq (a b : str) : str_eqb a b = false <-> a <> b.
Proof.
  rewrite <- str_eqb_eq. destruct (str_eqb a b); split; congruence.
Qed.

Lemma startswith_refl (s : str) : startswith s s = true.
Proof. induction s as [|c s IH]; simpl; [|rewrite N.eqb_refl]; auto. Qed.

Lemma contains_refl (s : str) : contains s s = true.
Proof. destruct s; simpl; [|rewrite startswith_refl, N.eqb_refl]; auto. Qed.

(** The test [t == kind or kind in t] of the resolver is the substring
    test. *)
Lemma eq_or_contains (kind t : str) :
  str_eqb t kind || contains kind t = contains kind t.
Proof.
  destruct (str_eqb t kind) eqn:E; [|reflexivity].
  apply str_eqb_eq in E. subst. simpl. now rewrite contains_refl.
Qed.

End StringFacts.

(** ** Geo-target resolution *)

Section GeoTargetFacts.
Import Py GeoTargets Specification.

Context {remote : Type}.
Variable suggest : str -> remote -> outcome (list suggestion) * remote.

Local Abbreviation resolve_one := (resolve_country_to_geo_target remote suggest).
Local Abbreviation resolve_loop := (resolve_each remote suggest).
Local Abbreviation resolve_all := (resolve_countries remote suggest).

Lemma first_of_type_find (kind : str) (l : list suggestion) :
  first_of_type kind l
  = resource_name
      <$> List.find (fun c => contains kind (target_type_str (target_type c))) l.
Proof.
  induction l as [|c l IH]; simpl; [reflexivity|].
  rewrite eq_or_contains.
  destruct (contains kind _); [reflexivity | exact IH].
Qed.

Lemma best_match_tie_break (l : list suggestion) :
  best_match l = resource_name <$> tie_break l.
Proof.
  unfold best_match, tie_break, is_country_level, is_province_level.
  destruct l as [|c l]; [reflexivity|].
  rewrite !first_of_type_find.
  destruct (List.find _ (c :: l)); [reflexivity|].
  destruct (List.find _ (c :: l)); reflexivity.
Qed.

(** A cache hit: no call, the cached value, nothing changes. *)
Lemma resolve_hit (name v : str) (cache : gmap str str) (w : world remote) :
  cache !! name = Some v ->
  resolve_one name cache w = (Return (Some v), cache, w).
Proof. intros H. unfold resolve_country_to_geo_target. now rewrite H. Qed.

(** A cache miss: one call, whose response decides the result and whether
    the cache grows. *)
Lemma resolve_miss (name : str) (cache : gmap str str) (w : world remote)
    (response : outcome (list suggestion)) (r : remote) :
  cache !! name = None ->
  suggest name (service w) = (response, r) ->
  resolve_one name cache w
  = (Return (resolves response),
     match resolves response with
     | Some identifier => <[name := identifier]> cache
     | None => cache
     end,
     log_call remote name response r w).
Proof.
  intros Hc Hs. unfold resolve_country_to_geo_target. rewrite Hc, Hs.
  destruct response as [l|e]; simpl.
  - rewrite <- best_match_tie_break. destruct (best_match l); reflexivity.
  - destruct (is_GoogleAdsException e); reflexivity.
Qed.

(** No exception escapes the resolution of one name. *)
Lemma resolve_one_returns (name : str) (cache : gmap str str) (w : world remote) :
  exists result, (resolve_one name cache w).1.1 = Return result.
Proof.
  destruct (cache !! name) as [v|] eqn:Hc.
  - rewrite (resolve_hit _ _ _ _ Hc). eauto.
  - destruct (suggest name (service w)) as [response r] eqn:Hs.
    rewrite (resolve_miss _ _ _ _ _ Hc Hs). eauto.
Qed.

Lemma occurrences_cons (n x : str) (l : list str) :
  occurrences n (x :: l) = (if str_eqb n x then 1 else 0) + occurrences n l.
Proof. unfold occurrences. simpl. destruct (str_eqb n x); reflexivity. Qed.

(** What one batch does, from any cache and any world: the calls [new] it
    adds to the log, the cache it ends with, and what it leaves alone. *)
Lemma resolve_each_calls (names : list str) :
  forall (acc : list str) (cache : gmap str str) (w : world remote),
  exists (ids : list str) (cache' : gmap str str) (w' : world remote)
         (new : list (str * outcome (list suggestion))),
    resolve_loop names acc cache w = (Return (acc ++ ids), cache', w')
    /\ calls w' = calls w ++ new
    /\ disk w' = disk w
    /\ writable w' = writable w
    /\ cache' = cache ∪ list_to_map (newly_resolved new)
    /\ (forall n, is_Some (cache !! n) -> n ∉ queried new)
    /\ (forall l1 n response l2,
          new = l1 ++ (n, response) :: l2 ->
          is_Some (resolves response) -> n ∉ queried l2)
    /\ (forall n, occurrences n (queried new) <= occurrences n names).
Proof.
  induction names as [|name names IH]; intros acc cache w.
  - exists [], cache, w, []. simpl. rewrite !app_nil_r.
    repeat split; auto.
    + now rewrite (right_id_L ∅ (∪)).
    + intros n _. apply not_elem_of_nil.
    + intros [|? ?] ? ? ? [=].
  - simpl. destruct (cache !! name) as [v|] eqn:Hc.
    + rewrite (resolve_hit _ _ _ _ Hc).
      destruct (IH (if truthy (Some v) then acc ++ [v] else acc) cache w)
        as (ids & cache' & w' & new & -> & Hcalls & Hd & Hw & Hu & Hq & Ha & Ho).
      exists ((if truthy (Some v) then [v] else []) ++ ids), cache', w', new.
      repeat split; auto.
      * destruct (truthy (Some v));
          now rewrite <- ?app_assoc.
      * intros n. rewrite occurrences_cons. specialize (Ho n). lia.
    + destruct (suggest name (service w)) as [response r] eqn:Hs.
      rewrite (resolve_miss _ _ _ _ _ Hc Hs).
      set (cache1 := match resolves response with
                     | Some identifier => <[name := identifier]> cache
                     | None => cache
                     end).
      set (acc1 := match resolves response with
                   | Some g => if truthy (resolves response) then acc ++ [g] else acc
                   | None => acc
                   end).
      destruct (IH acc1 cache1 (log_call remote name response r w))
        as (ids & cache' & w' & new & -> & Hcalls & Hd & Hw & Hu & Hq & Ha & Ho).
      exists (match resolves response with
              | Some g => if truthy (resolves response) then [g] else []
              | None => []
              end ++ ids), cache', w', ((name, response) :: new).
      split; [|split; [|split; [|split; [|split; [|split; [|split]]]]]].
      * subst acc1. destruct (resolves response) as [g|];
          [destruct (truthy (Some g))|]; now rewrite <- ?app_assoc.
      * rewrite Hcalls. simpl. now rewrite <- app_assoc.
      * exact Hd.
      * exact Hw.
      * rewrite Hu. subst cache1. unfold newly_resolved. simpl.
        destruct (resolves response) as [g|]; simpl; [|reflexivity].
        rewrite <- insert_union_l. now rewrite insert_union_r.
      * intros n Hn. unfold queried. simpl. intros [->|Hin]%elem_of_cons.
        -- rewrite Hc in Hn. now destruct Hn.
        -- apply (Hq n); [|exact Hin]. subst cache1.
           destruct (resolves response); [|exact Hn].
           destruct (decide (name = n)) as [->|Hne].
           ++ rewrite lookup_insert_eq. eauto.
           ++ now rewrite lookup_insert_ne.
      * intros [|c l1] n resp l2 Heq Hres; simpl in Heq.
        -- injection Heq as <- <- <-. apply Hq. subst cache1.
           destruct Hres as [g Hg]. rewrite Hg. rewrite lookup_insert_eq. eauto.
        -- injection Heq as _ Heq. now apply (Ha l1 n resp l2).
      * intros n. unfold queried. simpl. rewrite !occurrences_cons.
        specialize (Ho n). unfold queried in Ho. lia.
Qed.

Lemma occurrences_zero (n : str) (l : list str) :
  occurrences n l = 0 <-> n ∉ l.
Proof.
  induction l as [|x l IH]; [rewrite elem_of_nil; tauto|].
  rewrite occurrences_cons, not_elem_of_cons, <- IH.
  destruct (str_eqb n x) eqn:E.
  - apply str_eqb_eq in E. split; [discriminate | tauto].
  - apply str_eqb_neq in E. simpl. tauto.
Qed.

Lemma newly_resolved_queried (log : list (str * outcome (list suggestion)))
    (n v : str) :
  (n, v) ∈ newly_resolved log ->
  exists response, (n, response) ∈ log /\ resolves response = Some v.
Proof.
  unfold newly_resolved. rewrite list_elem_of_omap.
  intros ([n' response] & Hin & Heq). simpl in Heq.
  destruct (resolves response) as [g|] eqn:Hr; simplify_eq/=. eauto.
Qed.

Lemma newly_resolved_names (log : list (str * outcome (list suggestion)))
    (n : str) :
  n ∈ (newly_resolved log).*1 -> n ∈ queried log.
Proof.
  intros ([n' v] & -> & Hin)%list_elem_of_fmap. simpl.
  destruct (newly_resolved_queried _ _ _ Hin) as (response & Hin' & _).
  unfold queried. apply list_elem_of_fmap. now exists (n', response).
Qed.

(** A name that is never asked again once resolved is resolved at most
    once. *)
Lemma newly_resolved_NoDup (log : list (str * outcome (list suggestion))) :
  (forall l1 n response l2,
     log = l1 ++ (n, response) :: l2 ->
     is_Some (resolves response) -> n ∉ queried l2) ->
  NoDup (newly_resolved log).*1.
Proof.
  induction log as [|[n response] log IH]; intros H; [constructor|].
  assert (Htail : NoDup (newly_resolved log).*1).
  { apply IH. intros l1 n' r' l2 ->. apply (H ((n, response) :: l1)).
    reflexivity. }
  unfold newly_resolved in *. simpl.
  destruct (resolves response) as [g|] eqn:Hr; simpl; [|exact Htail].
  constructor; [|exact Htail].
  intros Hin. apply newly_resolved_names in Hin.
  apply (H [] n response log); [reflexivity | rewrite Hr; eauto | exact Hin].
Qed.

Lemma queried_once (log : list (str * outcome (list suggestion))) (n : str) :
  (forall l1 n response l2,
     log = l1 ++ (n, response) :: l2 ->
     is_Some (resolves response) -> n ∉ queried l2) ->
  (forall response, (n, response) ∈ log -> is_Some (resolves response)) ->
  occurrences n (queried log) <= 1.
Proof.
  induction log as [|[m response] log IH]; intros Hafter Hall;
    [unfold occurrences; simpl; lia|].
  unfold queried. simpl. rewrite occurrences_cons.
  destruct (str_eqb n m) eqn:E.
  - apply str_eqb_eq in E. subst m.
    assert (Hz : occurrences n (queried log) = 0).
    { apply occurrences_zero. apply (Hafter [] n response log); [reflexivity|].
      apply Hall. left. }
    unfold queried in Hz. lia.
  - simpl. apply IH.
    + intros l1 n' r' l2 ->. apply (Hafter ((m, response) :: l1)). reflexivity.
    + intros r' Hin. apply Hall. now right.
Qed.

(** What every occurrence of a name contributes, in order: the loop appends
    the non-empty identifiers found; with answers that depend on the name
    only, what is found is the resolution of each name. *)
Lemma resolve_each_occurrences (names : list str) :
  forall (acc : list str) (cache : gmap str str) (w : world remote),
  exists (found : list (option str)) (cache' : gmap str str) (w' : world remote)
         (new : list (str * outcome (list suggestion))),
    resolve_loop names acc cache w = (Return (acc ++ omap kept found), cache', w')
    /\ calls w' = calls w ++ new
    /\ cache' = cache ∪ list_to_map (newly_resolved new)
    /\ Forall2 (contributes cache cache' new) names found
    /\ (forall answer, (forall n r, (suggest n r).1 = answer n) ->
          found = List.map (resolution cache answer) names).
Proof.
  induction names as [|name names IH]; intros acc cache w.
  - exists [], cache, w, []. simpl. rewrite !app_nil_r.
    repeat split; auto. now rewrite (right_id_L ∅ (∪)).
  - simpl. destruct (cache !! name) as [v|] eqn:Hc.
    + rewrite (resolve_hit _ _ _ _ Hc).
      destruct (IH (if truthy (Some v) then acc ++ [v] else acc) cache w)
        as (found & cache' & w' & new & -> & Hcalls & Hu & Hall & Hdet).
      exists (Some v :: found), cache', w', new.
      split; [|split; [|split; [|split]]]; auto.
      * destruct v; cbn; now rewrite <- ?app_assoc.
      * constructor; [|exact Hall]. simpl.
        rewrite Hu. now apply lookup_union_Some_l.
      * intros answer Ha. simpl. unfold resolution at 1. rewrite Hc.
        f_equal. now apply Hdet.
    + destruct (suggest name (service w)) as [response r] eqn:Hs.
      rewrite (resolve_miss _ _ _ _ _ Hc Hs).
      set (cache1 := match resolves response with
                     | Some identifier => <[name := identifier]> cache
                     | None => cache
                     end).
      assert (Hsub1 : cache ⊆ cache1).
      { subst cache1. destruct (resolves response); [|reflexivity].
        now apply insert_subseteq. }
      match goal with
      | |- context [resolve_each _ _ names ?a cache1 ?w1] =>
          destruct (IH a cache1 w1)
            as (found & cache' & w' & new & -> & Hcalls & Hu & Hall & Hdet)
      end.
      assert (Hsub : cache1 ⊆ cache').
      { rewrite Hu. apply map_union_subseteq_l. }
      exists (resolves response :: found), cache', w', ((name, response) :: new).
      split; [|split; [|split; [|split]]].
      * destruct (resolves response) as [[|c g]|]; cbn;
          now rewrite <- ?app_assoc.
      * rewrite Hcalls. simpl. now rewrite <- app_assoc.
      * rewrite Hu. subst cache1. unfold newly_resolved. simpl.
        destruct (resolves response) as [g|]; simpl; [|reflexivity].
        rewrite <- insert_union_l. now rewrite insert_union_r.
      * constructor.
        -- destruct (resolves response) as [g|] eqn:Hr; simpl.
           ++ apply (lookup_weaken cache1); [|exact Hsub].
              subst cache1. now rewrite lookup_insert_eq.
           ++ split; [exact Hc|]. exists response. split; [left | exact Hr].
        -- eapply Forall2_impl; [exact Hall|].
           intros n [identifier|]; simpl; [tauto|].
           intros [Hn (resp & Hin & Hresp)]. split.
           ++ now apply (lookup_weaken_None cache cache1).
           ++ exists resp. split; [now right | exact Hresp].
      * intros answer Ha. simpl. f_equal.
        -- unfold resolution. rewrite Hc. f_equal.
           now rewrite <- (Ha name (service w)), Hs.
        -- rewrite (Hdet answer Ha). apply map_ext. intros n.
           assert (response = answer name) as ->
             by (now rewrite <- (Ha name (service w)), Hs).
           unfold resolution. subst cache1.
           destruct (resolves (answer name)) as [g|] eqn:Hr; [|reflexivity].
           destruct (decide (name = n)) as [<-|Hne].
           ++ now rewrite lookup_insert_eq, Hc, Hr.
           ++ now rewrite lookup_insert_ne.
Qed.

(** Finding the first item with a property. *)
Lemma find_first_such {A} (P : A -> bool) (l : list A) (x : A) :
  first_such P l x <-> List.find P l = Some x.
Proof.
  split.
  - intros (before & after & -> & Hx & Hb).
    induction Hb as [|y before Hy _ IH]; simpl; [now rewrite Hx | now rewrite Hy].
  - induction l as [|y l IH]; [discriminate|]. simpl.
    destruct (P y) eqn:Hy.
    + intros [= ->]. exists [], l. repeat split; [exact Hy | constructor].
    + intros H. destruct (IH H) as (before & after & -> & Hx & Hb).
      exists (y :: before), after. repeat split; [exact Hx | now constructor].
Qed.

Lemma find_none_Forall {A} (P : A -> bool) (l : list A) :
  Forall (fun y => P y = false) l <-> List.find P l = None.
Proof.
  split.
  - induction 1 as [|y l Hy _ IH]; simpl; [reflexivity | now rewrite Hy].
  - induction l as [|y l IH]; [constructor|]. simpl.
    destruct (P y) eqn:Hy; [discriminate|]. intros H. constructor; auto.
Qed.

(** The policy of the specification, as a function and as a relation. *)
Lemma selected_tie_break (candidates : list suggestion) (chosen : suggestion) :
  selected candidates chosen <-> tie_break candidates = Some chosen.
Proof.
  unfold selected, tie_break. split.
  - intros [H | [(Hc & H) | (Hc & Hp & H)]].
    + apply find_first_such in H. now rewrite H.
    + apply find_none_Forall in Hc. apply find_first_such in H.
      now rewrite Hc, H.
    + apply find_none_Forall in Hc, Hp. now rewrite Hc, Hp.
  - destruct (List.find is_country_level candidates) as [c|] eqn:Hc.
    + intros [= <-]. left. now apply find_first_such.
    + apply find_none_Forall in Hc.
      destruct (List.find is_province_level candidates) as [c|] eqn:Hp.
      * intros [= <-]. right. left. split; [exact Hc|].
        now apply find_first_such.
      * apply find_none_Forall in Hp. intros H. right. right. auto.
Qed.

(** C2: when the suggestion service returns at least one candidate for a
    name that is not cached, the tie-break policy selects a candidate (the
    first country-level candidate; or, when no candidate is country-level,
    the first province-level candidate; or, when no candidate is of either
    level, the first candidate), and the resolver returns the identifier of
    the candidate that the policy selects, and caches it under the name.
    The level of a candidate is read off its type by [classification], not
    by the code. *)
Theorem resolver_tie_break (name : str) (cache : gmap str str)
    (w : world remote) (candidates : list suggestion) (r : remote) :
  cache !! name = None ->
  suggest name (service w) = (Return candidates, r) ->
  candidates <> [] ->
  (exists chosen, selected candidates chosen)
  /\ forall chosen,
       selected candidates chosen ->
       resolve_one name cache w
       = (Return (Some (resource_name chosen)),
          <[name := resource_name chosen]> cache,
          log_call remote name (Return candidates) r w).
Proof.
  intros Hc Hs Hne. split.
  - assert (Hsome : exists chosen, tie_break candidates = Some chosen).
    { unfold tie_break. destruct (List.find is_country_level candidates); eauto.
      destruct (List.find is_province_level candidates); eauto.
      destruct candidates; [congruence | simpl; eauto]. }
    destruct Hsome as [chosen Hch]. exists chosen.
    now apply selected_tie_break.
  - intros chosen Hch. apply selected_tie_break in Hch.
    rewrite (resolve_miss _ _ _ _ _ Hc Hs). simpl. now rewrite Hch.
Qed.

(** C3, as amended: [resolve_countries] returns, in input order, one
    identifier for every occurrence of a name that resolves to a non-empty
    identifier: the identifier the cache of the batch holds for the name
    (the one loaded, or the one selected from the answer of the service).
    An occurrence contributes nothing only when its name is absent from the
    loaded cache and a call made for it did not resolve.  Duplicates are not
    removed: a name that occurs several times contributes each time.  When
    the answer of the service depends on the name only, every occurrence
    contributes the resolution of its name. *)
Theorem resolve_countries_in_order (names : list str) (w : world remote) :
  exists (found : list (option str))
         (new : list (str * outcome (list suggestion))),
    (resolve_all names w).1 = Return (omap kept found)
    /\ calls (resolve_all names w).2 = calls w ++ new
    /\ Forall2
         (contributes (load_cache remote w)
            (load_cache remote w ∪ list_to_map (newly_resolved new)) new)
         names found
    /\ (forall answer,
          (forall n r, (suggest n r).1 = answer n) ->
          found = List.map (resolution (load_cache remote w) answer) names).
Proof.
  unfold resolve_countries.
  destruct (resolve_each_occurrences names [] (load_cache remote w) w)
    as (found & cache' & w' & new & -> & Hcalls & Hu & Hall & Hdet).
  exists found, new. simpl. unfold save_cache.
  split; [reflexivity|].
  split; [destruct (writable w'); exact Hcalls|].
  split; [now rewrite <- Hu | exact Hdet].
Qed.

(** C4: when the save at the end of the batch succeeds, the cache that the
    file holds after the batch is exactly the union of the entries that the
    file held before it and the name-to-identifier pairs newly resolved by
    the calls of the batch.  These pairs are for names that the file did not
    hold, one pair per name; and a name that the file did not hold and none
    of whose calls resolved is not a key of the persisted cache.  When there
    was no file, or a file that could not be read or parsed, the persisted
    cache holds the newly resolved pairs and nothing else. *)
Theorem persisted_cache_is_union (names : list str) (w : world remote) :
  writable w = true ->
  exists new,
    calls (resolve_all names w).2 = calls w ++ new
    /\ NoDup (newly_resolved new).*1
    /\ (forall content,
          disk w = Stored content ->
          disk (resolve_all names w).2
          = Stored (content ∪ list_to_map (newly_resolved new))
          /\ (forall n v, (n, v) ∈ newly_resolved new -> content !! n = None)
          /\ (forall n,
                content !! n = None ->
                (forall response, (n, response) ∈ new -> resolves response = None) ->
                (content ∪ list_to_map (newly_resolved new)) !! n = None))
    /\ (disk w = NoFile \/ disk w = Unreadable \/ disk w = Malformed ->
        disk (resolve_all names w).2 = Stored (list_to_map (newly_resolved new))
        /\ (forall n,
              (forall response, (n, response) ∈ new -> resolves response = None) ->
              (list_to_map (newly_resolved new) : gmap str str) !! n = None)).
Proof.
  intros Hw. unfold resolve_countries.
  destruct (resolve_each_calls names [] (load_cache remote w) w)
    as (ids & cache' & w' & new & -> & Hcalls & Hd & Hw' & Hu & Hq & Ha & Ho).
  exists new. simpl. unfold save_cache. rewrite Hw', Hw. simpl.
  assert (Hfresh : forall n,
             (forall response, (n, response) ∈ new -> resolves response = None) ->
             (list_to_map (newly_resolved new) : gmap str str) !! n = None).
  { intros n Hfail. apply not_elem_of_list_to_map_1. intros Hin.
    apply list_elem_of_fmap in Hin as ([n' v] & -> & Hin).
    destruct (newly_resolved_queried _ _ _ Hin) as (response & Hin' & Hr).
    simpl in *. rewrite (Hfail _ Hin') in Hr. discriminate. }
  split; [exact Hcalls|]. split; [now apply newly_resolved_NoDup|].
  split.
  - intros content Hdisk.
    assert (Hload : load_cache remote w = content)
      by (unfold load_cache; now rewrite Hdisk).
    rewrite Hload in Hu, Hq.
    split; [now rewrite Hu|]. split.
    + intros n v Hin. destruct (content !! n) eqn:E; [|reflexivity].
      exfalso. apply (Hq n); [rewrite E; eauto|].
      apply newly_resolved_names. apply list_elem_of_fmap. now exists (n, v).
    + intros n Hn Hfail. apply lookup_union_None. split; [exact Hn|].
      now apply Hfresh.
  - intros Hdisk.
    assert (Hload : load_cache remote w = ∅)
      by (unfold load_cache; destruct Hdisk as [-> | [-> | ->]]; reflexivity).
    rewrite Hload in Hu. split; [|exact Hfresh].
    rewrite Hu. now rewrite (left_id_L ∅ (∪)).
Qed.

(** C5, as amended: a name present in the cache produces no external call
    and returns the cached value unchanged; in a batch, no call is made for
    a name of the loaded cache, a name is queried at most once per
    occurrence, and never again after a call that resolved it; so a name
    whose calls all resolve is queried at most once, however many times it
    appears. *)
Theorem external_calls_bounded (names : list str) (w : world remote) :
  (forall n v (cache : gmap str str) (w0 : world remote),
     cache !! n = Some v ->
     resolve_one n cache w0 = (Return (Some v), cache, w0))
  /\ exists new,
       calls (resolve_all names w).2 = calls w ++ new
       /\ (forall n, is_Some (load_cache remote w !! n) ->
                     occurrences n (queried new) = 0)
       /\ (forall n, occurrences n (queried new) <= occurrences n names)
       /\ (forall l1 n response l2,
             new = l1 ++ (n, response) :: l2 ->
             is_Some (resolves response) ->
             occurrences n (queried l2) = 0)
       /\ (forall n,
             (forall response, (n, response) ∈ new -> is_Some (resolves response)) ->
             occurrences n (queried new) <= 1).
Proof.
  split; [intros n v cache w0; apply resolve_hit|].
  unfold resolve_countries.
  destruct (resolve_each_calls names [] (load_cache remote w) w)
    as (ids & cache' & w' & new & -> & Hcalls & Hd & Hw' & Hu & Hq & Ha & Ho).
  exists new. simpl. unfold save_cache.
  split; [destruct (writable w'); exact Hcalls|].
  split; [|split; [|split]].
  - intros n Hn. apply occurrences_zero. now apply Hq.
  - exact Ho.
  - intros l1 n response l2 Heq Hr. apply occurrences_zero.
    now apply (Ha l1 n response l2).
  - intros n Hall. now apply queried_once.
Qed.

(** C6: when the call for a name that is not cached returns no candidate or
    raises, resolving that name returns nothing and leaves the cache as it
    was, and the rest of the batch runs exactly as it would have without
    that name, from the same cache and the same partial result; and no
    exception escapes the resolution of a name, nor a batch, whatever the
    service does. *)
Theorem failed_name_is_skipped (name : str) (rest acc : list str)
    (cache : gmap str str) (w : world remote)
    (response : outcome (list suggestion)) (r : remote) :
  cache !! name = None ->
  suggest name (service w) = (response, r) ->
  response = Return [] \/ (exists e, response = Raise e) ->
  resolve_one name cache w
  = (Return None, cache, log_call remote name response r w)
  /\ resolve_loop (name :: rest) acc cache w
     = resolve_loop rest acc cache (log_call remote name response r w)
  /\ (forall n (c : gmap str str) (w0 : world remote),
        exists result, (resolve_one n c w0).1.1 = Return result)
  /\ (forall names (w0 : world remote),
        exists ids, (resolve_all names w0).1 = Return ids).
Proof.
  intros Hc Hs Hfail.
  assert (Hnone : resolves response = None).
  { destruct Hfail as [->|[e ->]]; reflexivity. }
  assert (Hone : resolve_one name cache w
                 = (Return None, cache, log_call remote name response r w)).
  { rewrite (resolve_miss _ _ _ _ _ Hc Hs). now rewrite Hnone. }
  split; [exact Hone|]. split; [|split].
  - simpl. now rewrite Hone.
  - intros n c w0. apply resolve_one_returns.
  - intros names w0. unfold resolve_countries.
    destruct (resolve_each_calls names [] (load_cache remote w0) w0)
      as (ids & cache' & w' & new & -> & _).
    eauto.
Qed.

End GeoTargetFacts.

Section GeoTargetInstances.
Import Py GeoTargets Specification Samples.

(** The end-to-end example of the specification: Fakeland does not resolve,
    Canada is cached. *)
Example fakeland_canada :
  resolve_countries unit stateless [fakeland; canada] start
  = (Return [lit "geoTargetConstants/2124"],
     {| disk := Stored canada_cache; writable := true; service := tt;
        calls := [(fakeland, Return [])] |}).
Proof. vm_compute. reflexivity. Qed.

(** Peru is not cached; the service lists a city and then a country: the
    country is selected, although the city comes first. *)
Lemma resolver_tie_break_witness :
  canada_cache !! peru = None
  /\ stateless peru (service start) = (Return peru_candidates, tt)
  /\ peru_candidates <> []
  /\ selected peru_candidates (country "geoTargetConstants/2124")
  /\ resolve_country_to_geo_target unit stateless peru canada_cache start
     = (Return (Some (lit "geoTargetConstants/2124")),
        <[peru := lit "geoTargetConstants/2124"]> canada_cache,
        log_call unit peru (Return peru_candidates) tt start).
Proof.
  assert (H1 : canada_cache !! peru = None) by (vm_compute; reflexivity).
  assert (H2 : stateless peru (service start) = (Return peru_candidates, tt))
    by reflexivity.
  assert (H3 : peru_candidates <> []) by discriminate.
  assert (H4 : selected peru_candidates (country "geoTargetConstants/2124")).
  { left. exists [city "geoTargetConstants/9"], [].
    split; [reflexivity|]. split; [reflexivity|]. repeat constructor. }
  exact (conj H1 (conj H2 (conj H3 (conj H4
           (proj2 (resolver_tie_break stateless peru canada_cache start
                     peru_candidates tt H1 H2 H3)
              (country "geoTargetConstants/2124") H4))))).
Defined.

(** The claim C3 as stated fails: a name given twice yields its identifier
    twice. *)
Lemma resolve_countries_keeps_duplicates :
  exists ids,
    (resolve_countries unit stateless [canada; canada] start).1 = Return ids
    /\ ~ NoDup ids.
Proof.
  exists [lit "geoTargetConstants/2124"; lit "geoTargetConstants/2124"].
  split; [vm_compute; reflexivity|].
  intros H. apply NoDup_cons in H as [H _]. apply H. left.
Qed.

Lemma resolve_countries_in_order_witness :
  exists (found : list (option str))
         (new : list (str * outcome (list suggestion))),
    (resolve_countries unit stateless [fakeland; canada; peru; canada] start).1
    = Return (omap kept found)
    /\ calls (resolve_countries unit stateless [fakeland; canada; peru; canada] start).2
       = calls start ++ new
    /\ Forall2
         (contributes (load_cache unit start)
            (load_cache unit start ∪ list_to_map (newly_resolved new)) new)
         [fakeland; canada; peru; canada] found
    /\ (forall answer,
          (forall n r, (stateless n r).1 = answer n) ->
          found = List.map (resolution (load_cache unit start) answer)
                    [fakeland; canada; peru; canada]).
Proof.
  exact (resolve_countries_in_order stateless
           [fakeland; canada; peru; canada] start).
Defined.

(** The file holds Canada; Fakeland does not resolve and Peru does: after
    the batch the file holds Canada and Peru. *)
Lemma persisted_cache_is_union_witness :
  writable start = true
  /\ disk start = Stored canada_cache
  /\ disk (resolve_countries unit stateless [fakeland; canada; peru] start).2
     = Stored (<[peru := lit "geoTargetConstants/2124"]> canada_cache)
  /\ exists new,
       calls (resolve_countries unit stateless [fakeland; canada; peru] start).2
       = calls start ++ new
       /\ NoDup (newly_resolved new).*1
       /\ (forall content,
             disk start = Stored content ->
             disk (resolve_countries unit stateless [fakeland; canada; peru] start).2
             = Stored (content ∪ list_to_map (newly_resolved new))
             /\ (forall n v, (n, v) ∈ newly_resolved new -> content !! n = None)
             /\ (forall n,
                   content !! n = None ->
                   (forall response, (n, response) ∈ new ->
                                     resolves response = None) ->
                   (content ∪ list_to_map (newly_resolved new)) !! n = None))
       /\ (disk start = NoFile \/ disk start = Unreadable \/ disk start = Malformed ->
           disk (resolve_countries unit stateless [fakeland; canada; peru] start).2
           = Stored (list_to_map (newly_resolved new))
           /\ (forall n,
                 (forall response, (n, response) ∈ new ->
                                   resolves response = None) ->
                 (list_to_map (newly_resolved new) : gmap str str) !! n = None)).
Proof.
  assert (H : writable start = true) by reflexivity.
  assert (H1 : disk start = Stored canada_cache) by reflexivity.
  assert (H2 : disk (resolve_countries unit stateless [fakeland; canada; peru]
                       start).2
               = Stored (<[peru := lit "geoTargetConstants/2124"]> canada_cache))
    by (vm_compute; reflexivity).
  exact (conj H (conj H1 (conj H2
           (persisted_cache_is_union stateless [fakeland; canada; peru] start H)))).
Defined.

(** The claim C5 as stated fails: a name that does not resolve is queried
    again at each occurrence. *)
Lemma unresolved_name_queried_twice :
  occurrences fakeland
    (queried (calls (resolve_countries unit stateless [fakeland; fakeland] fresh).2))
  = 2
  /\ ~ occurrences fakeland
         (queried (calls (resolve_countries unit stateless [fakeland; fakeland] fresh).2))
       <= 1.
Proof. split; [vm_compute; reflexivity | vm_compute; lia]. Qed.

Lemma failed_name_is_skipped_witness :
  canada_cache !! fakeland = None
  /\ stateless fakeland (service start) = (Return [], tt)
  /\ ((Return [] : outcome (list suggestion)) = Return []
      \/ exists e, (Return [] : outcome (list suggestion)) = Raise e)
  /\ resolve_country_to_geo_target unit stateless fakeland canada_cache start
     = (Return None, canada_cache, log_call unit fakeland (Return []) tt start)
  /\ resolve_each unit stateless (fakeland :: [peru]) [] canada_cache start
     = resolve_each unit stateless [peru] [] canada_cache
         (log_call unit fakeland (Return []) tt start)
  /\ (forall n (c : gmap str str) (w0 : world unit),
        exists result,
          (resolve_country_to_geo_target unit stateless n c w0).1.1 = Return result)
  /\ (forall names (w0 : world unit),
        exists ids, (resolve_countries unit stateless names w0).1 = Return ids).
Proof.
  assert (H1 : canada_cache !! fakeland = None) by (vm_compute; reflexivity).
  assert (H2 : stateless fakeland (service start) = (Return [], tt)) by reflexivity.
  assert (H3 : (Return [] : outcome (list suggestion)) = Return []
               \/ exists e, (Return [] : outcome (list suggestion)) = Raise e)
    by (left; reflexivity).
  exact (conj H1 (conj H2 (conj H3
           (failed_name_is_skipped stateless fakeland [peru] [] canada_cache
              start (Return []) tt H1 H2 H3)))).
Defined.

End GeoTargetInstances.

(** ** Keyword-idea requests *)

Section GoogleAdsFacts.
Import Py GoogleAdsClient Specification.

Context {remote row : Type}.
Variable keyword_plan_idea_service :
  request -> remote -> outcome (list row) * remote.
Variable urlparse : str -> outcome (str * str).
Variable set_url_seed set_site_seed : outcome unit.
Variable ads_error_message : exn -> str.

Local Abbreviation generate :=
  (generate_keyword_ideas remote row keyword_plan_idea_service urlparse
     set_url_seed set_site_seed ads_error_message).
Local Abbreviation build :=
  (build_request urlparse set_url_seed set_site_seed).

Lemma fromkeys_subset (l : list str) (x : str) : x ∈ fromkeys l -> x ∈ l.
Proof.
  induction l as [|y l IH]; simpl; [auto|].
  intros [->|Hin]%elem_of_cons; [left|right].
  apply IH. apply list_elem_of_In in Hin. apply filter_In in Hin as [Hin _].
  now apply list_elem_of_In.
Qed.

Lemma fromkeys_complete (l : list str) (x : str) : x ∈ l -> x ∈ fromkeys l.
Proof.
  induction l as [|y l IH]; simpl; [auto|].
  intros [->|Hin]%elem_of_cons; [left|].
  destruct (str_eqb y x) eqn:E.
  - apply str_eqb_eq in E. subst. left.
  - right. apply list_elem_of_In, filter_In. split.
    + now apply list_elem_of_In, IH.
    + now rewrite E.
Qed.

Lemma nonempty_false {A} (l : list A) : nonempty l = false <-> l = [].
Proof. destruct l; simpl; split; congruence. Qed.

Lemma filter_nil_iff {A} (f : A -> bool) (l : list A) :
  List.filter f l = [] <-> forall x, x ∈ l -> f x = false.
Proof.
  induction l as [|y l IH]; simpl.
  - split; [intros _ x Hx; now apply elem_of_nil in Hx | reflexivity].
  - destruct (f y) eqn:E; split.
    + discriminate.
    + intros H. specialize (H y (list_elem_of_here _ _)). congruence.
    + intros H x [->|Hx]%elem_of_cons; [exact E | now apply IH].
    + intros H. apply IH. intros x Hx. apply H. now right.
Qed.

(** Without a valid geo target, validation fails with one of its two
    messages. *)
Lemma validate_geo_targets_rejects (geo_target_constants : list str) :
  no_valid_geo_target geo_target_constants ->
  validate_geo_targets geo_target_constants
    = Raise (Exn ValueError no_geo_target_found)
  \/ validate_geo_targets geo_target_constants
    = Raise (Exn ValueError no_geo_target_validated).
Proof.
  intros Hno. unfold validate_geo_targets.
  match goal with
  | |- context [nonempty (List.filter ?f geo_target_constants)] =>
      destruct (nonempty (List.filter f geo_target_constants))
  end; [|now left].
  right. simpl.
  match goal with
  | |- context [nonempty (List.filter ?f ?l)] =>
      assert (Hnil : List.filter f l = [])
  end.
  { apply filter_nil_iff. intros x Hx.
    apply list_elem_of_fmap in Hx as (gt & -> & Hgt).
    apply fromkeys_subset in Hgt.
    apply list_elem_of_In, filter_In in Hgt as [Hgt _].
    apply list_elem_of_In in Hgt. apply (Hno gt Hgt). }
  rewrite Hnil. reflexivity.
Qed.

Lemma nonempty_elem {A} (l : list A) (x : A) : x ∈ l -> nonempty l = true.
Proof. destruct l; [intros H; now apply elem_of_nil in H | reflexivity]. Qed.

(** With a valid geo target, validation succeeds. *)
Lemma validate_geo_targets_accepts (geo_target_constants : list str) (gt : str) :
  gt ∈ geo_target_constants -> valid_geo_target gt = true ->
  exists validated, validate_geo_targets geo_target_constants = Return validated.
Proof.
  intros Hin Hv. unfold validate_geo_targets.
  assert (Hstrip : nonempty (strip gt) = true).
  { unfold valid_geo_target in Hv. apply andb_prop in Hv as [Hv _].
    destruct (strip gt); [discriminate | reflexivity]. }
  assert (Hgt : nonempty gt = true).
  { destruct gt; [discriminate Hstrip | reflexivity]. }
  match goal with
  | |- context [nonempty (List.filter ?f geo_target_constants)] =>
      assert (H1 : gt ∈ List.filter f geo_target_constants)
  end.
  { apply list_elem_of_In, filter_In. split; [now apply list_elem_of_In|].
    now rewrite Hgt, Hstrip. }
  match goal with
  | |- context [nonempty ?l] =>
      replace (nonempty l) with true by (symmetry; exact (nonempty_elem _ _ H1))
  end. cbn [negb].
  match goal with
  | |- context [nonempty (List.filter ?f ?l)] =>
      assert (H2 : strip gt ∈ List.filter f l)
  end.
  { apply list_elem_of_In, filter_In. split; [|exact Hv].
    apply list_elem_of_In, list_elem_of_fmap. exists gt. split; [reflexivity|].
    now apply fromkeys_complete. }
  match goal with
  | |- context [nonempty ?l] =>
      replace (nonempty l) with true by (symmetry; exact (nonempty_elem _ _ H2))
  end. cbn [negb]. eauto.
Qed.

Lemma strip_char_nil (c : char) (s : str) :
  Forall (fun x => x = c) s -> strip_char c s = [].
Proof.
  intros H. unfold strip_char.
  assert (Hl : lstrip_char c s = []).
  { induction H as [|x s -> _ IH]; simpl; [reflexivity|].
    now rewrite N.eqb_refl. }
  rewrite Hl. reflexivity.
Qed.

(** C9, as amended: a missing customer id, a list without any geo target
    that, once trimmed, starts with [geoTargetConstants/] and is longer than
    20 characters, or a seed URL in which [urlparse] finds no domain (no
    network location, and a path made of slashes only) makes
    [generate_keyword_ideas] raise a failure that names the reason, no
    request having been sent to the keyword-idea service (the world, its log
    of requests included, is as before); the reasons for the three kinds of
    bad input differ from one another.  No other test is made of the seed
    URL. *)
Theorem bad_input_fails_before_any_call (customer_id : option str)
    (website_url : str) (geo_target_constants : list str) (language_id : str)
    (max_results : nat) (include_adult_keywords : bool) (w : world remote) :
  let result :=
    generate customer_id website_url geo_target_constants language_id
      max_results include_adult_keywords w in
  (missing_customer_id customer_id ->
     result = (Raise (rejected customer_id_required), w))
  /\ (~ missing_customer_id customer_id ->
      no_valid_geo_target geo_target_constants ->
      exists reason,
        reason ∈ [geo_target_required; no_geo_target_found; no_geo_target_validated]
        /\ result = (Raise (rejected reason), w))
  /\ (~ missing_customer_id customer_id ->
      ~ no_valid_geo_target geo_target_constants ->
      forall parsed,
        urlparse website_url = Return parsed -> no_domain parsed ->
        result = (Raise (rejected (invalid_website_url website_url)), w))
  /\ NoDup [customer_id_required; geo_target_required; no_geo_target_found;
            no_geo_target_validated; invalid_website_url website_url].
Proof.
  intros result. subst result. unfold generate_keyword_ideas.
  split; [|split; [|split]].
  - intros [->| ->]; reflexivity.
  - intros Hid Hno.
    destruct customer_id as [[|c id]|];
      [exfalso; apply Hid; now right| |exfalso; apply Hid; now left].
    unfold build_request.
    destruct geo_target_constants as [|gt geo] eqn:Egeo.
    + exists geo_target_required. split; [left | reflexivity].
    + rewrite <- Egeo in *. replace (nonempty geo_target_constants) with true
        by (now rewrite Egeo).
      simpl negb. cbv iota.
      destruct (validate_geo_targets_rejects _ Hno) as [-> | ->].
      * exists no_geo_target_found. split; [right; left | reflexivity].
      * exists no_geo_target_validated. split; [right; right; left | reflexivity].
  - intros Hid Hgeo [netloc path] Hurl [Hnet Hpath]. simpl in Hnet, Hpath.
    destruct customer_id as [[|c id]|];
      [exfalso; apply Hid; now right| |exfalso; apply Hid; now left].
    assert (Hvalid : exists gt, gt ∈ geo_target_constants /\ valid_geo_target gt = true).
    { destruct (List.filter valid_geo_target geo_target_constants) as [|gt l] eqn:E.
      - exfalso. apply Hgeo. intros gt Hgt.
        now apply (proj1 (filter_nil_iff _ _) E).
      - exists gt.
        assert (Hin : In gt (List.filter valid_geo_target geo_target_constants))
          by (rewrite E; now left).
        apply filter_In in Hin as [Hin Hv]. split; [now apply list_elem_of_In | exact Hv]. }
    destruct Hvalid as (gt & Hin & Hv).
    destruct (validate_geo_targets_accepts _ _ Hin Hv) as [validated Hval].
    unfold build_request.
    replace (nonempty geo_target_constants) with true
      by (destruct geo_target_constants; [now apply elem_of_nil in Hin | reflexivity]).
    simpl negb. cbv iota. rewrite Hval. simpl. rewrite Hurl. simpl.
    subst netloc. simpl. rewrite (strip_char_nil _ _ Hpath). reflexivity.
  - unfold customer_id_required, geo_target_required, no_geo_target_found,
      no_geo_target_validated, invalid_website_url.
    repeat (apply NoDup_cons; split;
            [rewrite ?elem_of_cons, elem_of_nil; vm_compute; intuition discriminate|]).
    apply NoDup_nil_2.
Qed.

End GoogleAdsFacts.

Section GoogleAdsInstances.
Import Py GoogleAdsClient Specification Samples.

Local Abbreviation sample_generate :=
  (generate_keyword_ideas unit unit no_ideas parse_url (Return tt) (Return tt)
     describe_ads_error).

(** The claim C9 as stated fails: a seed URL that is malformed, but in
    which [urlparse] finds a path, passes the checks; it is sent to the
    service with [https://] before it. *)
Lemma malformed_url_reaches_the_service :
  parse_url malformed_url = Return ([], lit "not a url")
  /\ sample_generate good_customer malformed_url good_geo (lit "1000") 2000
       false idle
     = (Return [],
        {| GoogleAdsClient.service := tt;
           GoogleAdsClient.calls :=
             [ {| customer_id := lit "1234567890";
                  language := lit "languageConstants/1000";
                  network := GOOGLE_SEARCH;
                  geo_target_constants := good_geo;
                  include_adult_keywords := false;
                  keyword_seed := UrlSeed (lit "https://not a url") |} ] |}).
Proof. split; vm_compute; reflexivity. Qed.

Lemma bad_input_fails_before_any_call_witness :
  (missing_customer_id None
   /\ sample_generate None good_url good_geo (lit "1000") 2000 false idle
      = (Raise (rejected customer_id_required), idle))
  /\ (~ missing_customer_id good_customer
      /\ no_valid_geo_target bad_geo
      /\ exists reason,
           reason ∈ [geo_target_required; no_geo_target_found; no_geo_target_validated]
           /\ sample_generate good_customer good_url bad_geo (lit "1000") 2000 false idle
              = (Raise (rejected reason), idle))
  /\ (~ missing_customer_id good_customer
      /\ ~ no_valid_geo_target good_geo
      /\ parse_url bad_url = Return ([], lit "/")
      /\ no_domain ([], lit "/")
      /\ sample_generate good_customer bad_url good_geo (lit "1000") 2000 false idle
         = (Raise (rejected (invalid_website_url bad_url)), idle)).
Proof.
  assert (H1 : missing_customer_id None) by (left; reflexivity).
  assert (H2 : ~ missing_customer_id good_customer) by (intros [H|H]; discriminate H).
  assert (H3 : no_valid_geo_target bad_geo).
  { intros gt H. repeat (apply elem_of_cons in H as [->|H]);
      [reflexivity | reflexivity | now apply elem_of_nil in H]. }
  assert (H4 : ~ no_valid_geo_target good_geo).
  { intros H. specialize (H _ (list_elem_of_here _ _)). discriminate H. }
  assert (H5 : parse_url bad_url = Return ([], lit "/")) by reflexivity.
  assert (H6 : no_domain ([], lit "/")).
  { split; [reflexivity|]. repeat constructor. }
  split; [|split].
  - exact (conj H1 (proj1 (bad_input_fails_before_any_call no_ideas parse_url
             (Return tt) (Return tt) describe_ads_error None good_url good_geo
             (lit "1000") 2000 false idle) H1)).
  - exact (conj H2 (conj H3 (proj1 (proj2 (bad_input_fails_before_any_call
             no_ideas parse_url (Return tt) (Return tt) describe_ads_error
             good_customer good_url bad_geo (lit "1000") 2000 false idle)) H2 H3))).
  - exact (conj H2 (conj H4 (conj H5 (conj H6
             (proj1 (proj2 (proj2 (bad_input_fails_before_any_call
                no_ideas parse_url (Return tt) (Return tt) describe_ads_error
                good_customer bad_url good_geo (lit "1000") 2000 false idle)))
                H2 H4 _ H5 H6))))).
Defined.

(** A well-formed call reaches the service once. *)
Example good_input_is_sent :
  GoogleAdsClient.calls
    (sample_generate good_customer good_url good_geo (lit "1000") 2000 false idle).2
  = [ {| customer_id := lit "1234567890";
         language := lit "languageConstants/1000";
         network := GOOGLE_SEARCH;
         geo_target_constants := good_geo;
         include_adult_keywords := false;
         keyword_seed := UrlSeed good_url |} ].
Proof. vm_compute. reflexivity. Qed.

End GoogleAdsInstances.

(** ** Trimming and the brace span *)

Section BoundaryFacts.
Import Py OpenAIClient Specification.

Lemma lstrip_blank (s : str) : blank s -> lstrip s = [].
Proof.
  induction 1 as [|c s Hc _ IH]; simpl; [reflexivity|]. now rewrite Hc.
Qed.

Lemma strip_blank (s : str) : blank s -> strip s = [].
Proof. intros H. unfold strip, rstrip. now rewrite (lstrip_blank s H). Qed.

Lemma lstrip_app_nonspace (a s : str) (x : char) :
  isspace x = false -> lstrip (a ++ x :: s) = lstrip a ++ x :: s.
Proof.
  intros Hx. induction a as [|c a IH]; simpl.
  - now rewrite Hx.
  - destruct (isspace c); [exact IH | reflexivity].
Qed.

Lemma rstrip_app_nonspace (s b : str) (x : char) :
  isspace x = false -> rstrip (s ++ x :: b) = s ++ x :: rstrip b.
Proof.
  intros Hx. unfold rstrip.
  rewrite rev_app_distr. simpl. rewrite <- app_assoc. simpl.
  rewrite (lstrip_app_nonspace _ _ _ Hx).
  rewrite rev_app_distr. simpl. rewrite rev_involutive.
  now rewrite <- app_assoc.
Qed.

Lemma has_char_app (c : char) (a b : str) :
  has_char c (a ++ b) = has_char c a || has_char c b.
Proof. apply existsb_app. Qed.

Lemma has_char_lstrip (c : char) (s : str) :
  has_char c s = false -> has_char c (lstrip s) = false.
Proof.
  induction s as [|x s IH]; simpl; [auto|].
  destruct (isspace x); [|auto].
  intros [_ H]%orb_false_elim. now apply IH.
Qed.

Lemma has_char_rev (c : char) (s : str) : has_char c (rev s) = has_char c s.
Proof.
  induction s as [|x s IH]; simpl; [reflexivity|].
  rewrite has_char_app, IH. simpl. rewrite orb_false_r. apply orb_comm.
Qed.

Lemma has_char_rstrip (c : char) (s : str) :
  has_char c s = false -> has_char c (rstrip s) = false.
Proof.
  intros H. unfold rstrip. rewrite has_char_rev.
  apply has_char_lstrip. now rewrite has_char_rev.
Qed.

Lemma find_char_app (c : char) (a s : str) :
  has_char c a = false -> find_char c (a ++ c :: s) = Some (List.length a).
Proof.
  induction a as [|x a IH]; simpl.
  - now rewrite N.eqb_refl.
  - intros [Hx Ha]%orb_false_elim. rewrite Hx, (IH Ha). reflexivity.
Qed.

Lemma rfind_char_none (c : char) (s : str) :
  has_char c s = false -> rfind_char c s = None.
Proof.
  induction s as [|x s IH]; simpl; [reflexivity|].
  intros [Hx Hs]%orb_false_elim. now rewrite (IH Hs), Hx.
Qed.

Lemma rfind_char_app (c : char) (a b : str) :
  has_char c b = false -> rfind_char c (a ++ c :: b) = Some (List.length a).
Proof.
  intros Hb. induction a as [|x a IH]; simpl.
  - now rewrite (rfind_char_none _ _ Hb), N.eqb_refl.
  - now rewrite IH.
Qed.

Lemma slice_middle (a m b : str) :
  slice (List.length a) (List.length a + List.length m) (a ++ m ++ b) = m.
Proof.
  unfold slice.
  replace (List.length a + List.length m - List.length a) with (List.length m) by lia.
  rewrite drop_app_length. apply take_app_length.
Qed.

(** A brace span between prose without braces is found as it is. *)
Lemma json_boundaries_prose (before inner after : str) :
  has_char (ch "{") before = false ->
  has_char (ch "}") after = false ->
  json_boundaries (strip (before ++ (ch "{" :: inner ++ [ch "}"]) ++ after))
  = ch "{" :: inner ++ [ch "}"].
Proof.
  intros Hb Ha. unfold strip.
  replace (before ++ (ch "{" :: inner ++ [ch "}"]) ++ after)
    with (before ++ ch "{" :: (inner ++ ch "}" :: after))
    by (simpl; now rewrite <- !app_assoc).
  rewrite lstrip_app_nonspace by reflexivity.
  replace (lstrip before ++ ch "{" :: inner ++ ch "}" :: after)
    with ((lstrip before ++ ch "{" :: inner) ++ ch "}" :: after)
    by (now rewrite <- app_assoc).
  rewrite rstrip_app_nonspace by reflexivity.
  unfold json_boundaries.
  rewrite rfind_char_app by (now apply has_char_rstrip).
  rewrite <- app_assoc. simpl.
  rewrite find_char_app by (now apply has_char_lstrip).
  rewrite length_app. simpl.
  replace (List.length (lstrip before) <? List.length (lstrip before) + S (List.length inner))
    with true by (symmetry; apply Nat.ltb_lt; lia).
  pose proof (slice_middle (lstrip before) (ch "{" :: inner ++ [ch "}"])
                (rstrip after)) as Hs.
  simpl in Hs. rewrite <- !app_assoc in Hs. simpl in Hs.
  rewrite length_app in Hs. simpl in Hs.
  replace (List.length (lstrip before) + S (List.length inner) + 1)
    with (List.length (lstrip before) + S (List.length inner + 1)) by lia.
  exact Hs.
Qed.

End BoundaryFacts.

(** ** The scanner of [json.loads] *)

Section ScannerFacts.
Import Py Json OpenAIClient.

Lemma skip_ws_length (s : str) : List.length (skip_ws s) <= List.length s.
Proof.
  induction s as [|c s IH]; simpl; [lia|].
  destruct (is_whitespace c); simpl; lia.
Qed.

Lemma scanstring_length (s : str) :
  forall begin chunks x rest,
    scanstring s begin chunks = Ok x rest -> List.length rest < List.length s.
Proof.
  induction s as [s IH] using (induction_ltof1 _ (@List.length _)).
  unfold ltof in IH. intros begin chunks x rest H.
  destruct s as [|c s1]; [discriminate|]. simpl in H.
  repeat case_match; simplify_eq; simpl; try lia;
    match goal with
    | H : scanstring ?s' _ _ = Ok _ _ |- _ =>
        apply IH in H; simpl in *; lia
    end.
Qed.

Lemma take_digits_length (s : str) :
  forall ds r, take_digits s = (ds, r) -> List.length r <= List.length s.
Proof.
  induction s as [|c s IH]; simpl; intros ds r H; [now simplify_eq|].
  destruct (is_digit c); [|simplify_eq; simpl; lia].
  destruct (take_digits s) as [ds' r'] eqn:E. simplify_eq.
  specialize (IH _ _ eq_refl). lia.
Qed.

Lemma match_number_length (s : str) (v : json) (rest : str) :
  match_number s = Ok v rest -> List.length rest < List.length s.
Proof.
  unfold match_number, match_integer, match_frac, match_exp. intros H.
  repeat case_match; simplify_eq;
    repeat match goal with
    | H : take_digits _ = _ |- _ => apply take_digits_length in H
    end; simpl in *; lia.
Qed.

Lemma startswith_length (p s : str) :
  startswith p s = true -> List.length p <= List.length s.
Proof.
  revert s; induction p as [|x p IH]; intros [|y s]; simpl; try lia;
    try discriminate.
  intros [_ H]%andb_prop. apply IH in H. lia.
Qed.

Lemma literal_length (p s : str) (n : nat) :
  startswith p s = true -> 0 < n -> n <= List.length p ->
  List.length (skipn n s) < List.length s.
Proof.
  intros H%startswith_length Hn Hp. rewrite length_skipn. lia.
Qed.

Ltac note_skip_ws :=
  repeat match goal with
  | H : context [skip_ws ?s] |- _ =>
      lazymatch goal with
      | _ : List.length (skip_ws s) <= List.length s |- _ => fail
      | _ => pose proof (skip_ws_length s)
      end
  | |- context [skip_ws ?s] =>
      lazymatch goal with
      | _ : List.length (skip_ws s) <= List.length s |- _ => fail
      | _ => pose proof (skip_ws_length s)
      end
  end;
  repeat match goal with
  | H : skip_ws ?s = _, L : List.length (skip_ws ?s) <= _ |- _ => rewrite H in L
  end.

Ltac length_facts IH :=
  note_skip_ws;
  repeat match goal with
  | H : scanstring _ _ _ = Ok _ _ |- _ => apply scanstring_length in H
  | H : match_number _ = Ok _ _ |- _ => apply match_number_length in H
  | H : scan_once _ ?d _ = Some (Ok _ _) |- _ => apply (proj1 (IH d)) in H
  | H : parse_object _ ?d _ _ = Some (Ok _ _) |- _ =>
      apply (proj1 (proj2 (IH d))) in H
  | H : parse_array _ ?d _ _ = Some (Ok _ _) |- _ =>
      apply (proj2 (proj2 (IH d))) in H
  | H : startswith ?p ?s = true |- _ => apply startswith_length in H
  end.

Lemma scan_progress (fuel : nat) :
  forall depth,
    (forall s v r, scan_once fuel depth s = Some (Ok v r) ->
                   List.length r < List.length s)
    /\ (forall s pairs v r, parse_object fuel depth s pairs = Some (Ok v r) ->
                            List.length r < List.length s)
    /\ (forall s values v r, parse_array fuel depth s values = Some (Ok v r) ->
                             List.length r < List.length s).
Proof.
  induction fuel as [|fuel IH]; intros depth;
    (split; [|split]); intros; try discriminate.
  - cbn [scan_once] in H. repeat case_match; simplify_eq;
      length_facts IH; rewrite ?length_skipn; simpl in *; lia.
  - cbn [parse_object] in H. repeat case_match; simplify_eq;
      length_facts IH; simpl in *; lia.
  - cbn [parse_array] in H. repeat case_match; simplify_eq;
      length_facts IH; simpl in *; lia.
Qed.

Ltac progress_facts :=
  note_skip_ws;
  repeat match goal with
  | H : scanstring _ _ _ = Ok _ _ |- _ => apply scanstring_length in H
  | H : scan_once _ _ _ = Some (Ok _ _) |- _ =>
      apply (proj1 (scan_progress _ _)) in H
  | H : parse_object _ _ _ _ = Some (Ok _ _) |- _ =>
      apply (proj1 (proj2 (scan_progress _ _))) in H
  | H : parse_array _ _ _ _ = Some (Ok _ _) |- _ =>
      apply (proj2 (proj2 (scan_progress _ _))) in H
  end.

(** Fuel of twice the length of the text, plus one, is enough: the scanner
    never stops for lack of fuel. *)
Lemma scan_fuel (fuel : nat) :
  forall depth,
    (forall s, 2 * List.length s + 1 <= fuel -> scan_once fuel depth s <> None)
    /\ (forall s pairs, 2 * List.length s + 2 <= fuel ->
                        parse_object fuel depth s pairs <> None)
    /\ (forall s values, 2 * List.length s + 2 <= fuel ->
                         parse_array fuel depth s values <> None).
Proof.
  induction fuel as [|fuel IH]; intros depth;
    (split; [|split]); intros s; intros; try lia.
  - cbn [scan_once]. repeat case_match; try discriminate;
      first [apply (proj1 (proj2 (IH _))) | apply (proj2 (proj2 (IH _)))];
      progress_facts; simpl in *; lia.
  - cbn [parse_object]. repeat case_match; try discriminate;
      try (apply (proj1 (proj2 (IH _))); progress_facts; simpl in *; lia).
    all: match goal with
         | H : scan_once _ _ _ = None |- _ =>
             exfalso; revert H; apply (proj1 (IH _))
         end; progress_facts; simpl in *; lia.
  - cbn [parse_array]. repeat case_match; try discriminate;
      try (apply (proj2 (proj2 (IH _))); progress_facts; simpl in *; lia).
    all: match goal with
         | H : scan_once _ _ _ = None |- _ =>
             exfalso; revert H; apply (proj1 (IH _))
         end; progress_facts; simpl in *; lia.
Qed.

Lemma scan_once_fuel (depth : nat) (s : str) :
  scan_once (2 * List.length s + 1) depth (skip_ws s) <> None.
Proof.
  apply (proj1 (scan_fuel _ _)). pose proof (skip_ws_length s). lia.
Qed.

Ltac cases_of H :=
  repeat match type of H with
  | context [match ?x with _ => _ end] => destruct x eqn:?
  end.

(** More fuel does not change a result. *)
Lemma scan_fuel_mono (fuel : nat) :
  forall depth fuel', fuel <= fuel' ->
    (forall s x, scan_once fuel depth s = Some x ->
                 scan_once fuel' depth s = Some x)
    /\ (forall s pairs x, parse_object fuel depth s pairs = Some x ->
                          parse_object fuel' depth s pairs = Some x)
    /\ (forall s values x, parse_array fuel depth s values = Some x ->
                           parse_array fuel' depth s values = Some x).
Proof.
  induction fuel as [|fuel IH]; intros depth fuel' Hle;
    (split; [|split]); intros; try discriminate;
    (destruct fuel' as [|fuel']; [lia|]); apply le_S_n in Hle.
  - cbn [scan_once] in H |- *. cases_of H; simplify_eq; try reflexivity;
      first [now apply (proj1 (proj2 (IH _ _ Hle)))
            | now apply (proj2 (proj2 (IH _ _ Hle)))].
  - cbn [parse_object] in H |- *. cases_of H; simplify_eq;
      repeat match goal with
      | E : scan_once fuel _ _ = Some _ |- _ =>
          apply (proj1 (IH _ _ Hle)) in E; rewrite E
      end;
      repeat match goal with
      | E : skip_ws _ = _ |- _ => rewrite E
      | E : is_char _ _ = _ |- _ => rewrite E
      end; try reflexivity.
    now apply (proj1 (proj2 (IH _ _ Hle))).
  - cbn [parse_array] in H |- *. cases_of H; simplify_eq;
      repeat match goal with
      | E : scan_once fuel _ _ = Some _ |- _ =>
          apply (proj1 (IH _ _ Hle)) in E; rewrite E
      end;
      repeat match goal with
      | E : skip_ws _ = _ |- _ => rewrite E
      | E : is_char _ _ = _ |- _ => rewrite E
      end; try reflexivity.
    now apply (proj2 (proj2 (IH _ _ Hle))).
Qed.

Lemma skip_ws_split (s : str) :
  exists p, json_blank p /\ s = p ++ skip_ws s.
Proof.
  induction s as [|c s (p & Hp & IH)]; simpl.
  - exists []. split; [constructor | reflexivity].
  - destruct (is_whitespace c) eqn:E.
    + exists (c :: p). split; [now constructor | simpl; congruence].
    + exists []. split; [constructor | reflexivity].
Qed.

Lemma skip_ws_head (s r : str) (x : char) :
  skip_ws s = x :: r -> is_whitespace x = false.
Proof.
  induction s as [|c s IH]; simpl; [discriminate|].
  destruct (is_whitespace c) eqn:E; [exact IH | congruence].
Qed.

Lemma skip_ws_blank (p s : str) : json_blank p -> skip_ws (p ++ s) = skip_ws s.
Proof. induction 1 as [|c p Hc _ IH]; simpl; [reflexivity | now rewrite Hc]. Qed.

Lemma skip_ws_stop (x : char) (s : str) :
  is_whitespace x = false -> skip_ws (x :: s) = x :: s.
Proof. intros H. simpl. now rewrite H. Qed.

Lemma scanstring_escape_u (h1 h2 h3 h4 x3 : char) (s3 : str) (begin : nat)
    (chunks : str) (c1 : N) :
  hex4 h1 h2 h3 h4 = Some c1 ->
  scanstring (ch "\" :: ch "u" :: h1 :: h2 :: h3 :: h4 :: x3 :: s3) begin chunks
  = match low_surrogate_ahead c1 (x3 :: s3) with
    | Paired c s4 => scanstring s4 begin (c :: chunks)
    | Unpaired => scanstring (x3 :: s3) begin (c1 :: chunks)
    | BadPair n => Failed (DecodeError invalid_uXXXX n)
    end.
Proof.
  intros Eh. cbn [scanstring]. change (N.eqb (ch "\") dquote) with false.
  change (is_char "\" (ch "\")) with true. change (is_char "u" (ch "u")) with true.
  cbv iota. rewrite Eh. unfold low_surrogate_ahead.
  destruct s3 as [|u [|g1 [|g2 [|g3 [|g4 [|x4 s4]]]]]]; try reflexivity.
  destruct (is_high_surrogate c1 && is_char "\" x3 && is_char "u" u);
    [|reflexivity].
  destruct (hex4 g1 g2 g3 g4) as [c2|]; [|reflexivity].
  destruct (is_low_surrogate c2); reflexivity.
Qed.

Lemma is_char_eq (a : ascii) (c : char) : is_char a c = true -> c = ch a.
Proof. unfold is_char, ch. apply N.eqb_eq. Qed.

Lemma ahead_not_backslash (c1 : N) (b : char) (s : str) :
  is_char "\" b = false -> low_surrogate_ahead c1 (b :: s) = Unpaired.
Proof.
  intros H. unfold low_surrogate_ahead.
  destruct s as [|u [|g1 [|g2 [|g3 [|g4 [|x4 s4]]]]]]; try reflexivity.
  now rewrite H, andb_false_r.
Qed.

Lemma ahead_not_u (c1 : N) (b u : char) (s : str) :
  is_char "u" u = false -> low_surrogate_ahead c1 (b :: u :: s) = Unpaired.
Proof.
  intros H. unfold low_surrogate_ahead.
  destruct s as [|g1 [|g2 [|g3 [|g4 [|x4 s4]]]]]; try reflexivity.
  now rewrite H, andb_false_r.
Qed.

Lemma ahead_unpaired_seven (c1 : N) (a1 a2 a3 a4 a5 a6 x x' : char) (s s' : str) :
  low_surrogate_ahead c1 (a1 :: a2 :: a3 :: a4 :: a5 :: a6 :: x :: s) = Unpaired ->
  low_surrogate_ahead c1 (a1 :: a2 :: a3 :: a4 :: a5 :: a6 :: x' :: s') = Unpaired.
Proof.
  unfold low_surrogate_ahead.
  destruct (is_high_surrogate c1 && is_char "\" a1 && is_char "u" a2);
    [|reflexivity].
  destruct (hex4 a3 a4 a5 a6) as [c2|]; [|discriminate].
  destruct (is_low_surrogate c2); [discriminate | reflexivity].
Qed.

Lemma ahead_paired_inv (c1 c : N) (s s4 : str) :
  low_surrogate_ahead c1 s = Paired c s4 ->
  exists a1 a2 a3 a4 a5 a6 x s4',
    s = a1 :: a2 :: a3 :: a4 :: a5 :: a6 :: x :: s4'
    /\ s4 = x :: s4'
    /\ forall x' t,
         low_surrogate_ahead c1 (a1 :: a2 :: a3 :: a4 :: a5 :: a6 :: x' :: t)
         = Paired c (x' :: t).
Proof.
  unfold low_surrogate_ahead.
  destruct s as [|a1 [|a2 [|a3 [|a4 [|a5 [|a6 [|x s4']]]]]]]; try discriminate.
  destruct (is_high_surrogate c1 && is_char "\" a1 && is_char "u" a2) eqn:E1;
    [|discriminate].
  destruct (hex4 a3 a4 a5 a6) as [c2|] eqn:E2; [|discriminate].
  destruct (is_low_surrogate c2) eqn:E3; [|discriminate].
  intros [= <- <-]. exists a1, a2, a3, a4, a5, a6, x, s4'.
  split; [reflexivity|]. split; [reflexivity|].
  intros x' t. now rewrite E1, E2, E3.
Qed.

(** After a closing quote no pair is looked for; and a text that
    [scanstring] accepts up to its closing quote holds its escapes in
    full. *)
Lemma ahead_unpaired_local (c1 : N) (c rest : str) (begin : nat) (chunks x : str) :
  low_surrogate_ahead c1 (c ++ dquote :: rest) = Unpaired ->
  scanstring (c ++ [dquote]) begin chunks = Ok x [] ->
  forall t, low_surrogate_ahead c1 (c ++ dquote :: t) = Unpaired.
Proof.
  intros Hu Hs t.
  destruct c as [|a1 c]; [now apply ahead_not_backslash|].
  destruct (is_char "\" a1) eqn:E1; [|now apply ahead_not_backslash].
  destruct c as [|a2 c]; [now apply ahead_not_u|].
  destruct (is_char "u" a2) eqn:E2; [|now apply ahead_not_u].
  apply is_char_eq in E1, E2. subst a1 a2.
  destruct c as [|a3 [|a4 [|a5 [|a6 c]]]]; try discriminate Hs.
  destruct c as [|y c]; cbn [app] in Hu |- *;
    now apply (ahead_unpaired_seven _ _ _ _ _ _ _ _ _ _ _ Hu).
Qed.

(** What [scanstring] returns depends on the text up to the closing quote
    only. *)
Lemma scanstring_local (s : str) :
  forall begin chunks x rest,
    scanstring s begin chunks = Ok x rest ->
    exists c, s = c ++ dquote :: rest
              /\ forall t begin', scanstring (c ++ dquote :: t) begin' chunks = Ok x t.
Proof.
  induction s as [s IH] using (induction_ltof1 _ (@List.length _)).
  unfold ltof in IH. intros begin chunks x rest H.
  destruct s as [|c0 s1]; [discriminate|].
  destruct (N.eqb c0 dquote) eqn:Eq.
  { simpl in H. rewrite Eq in H. apply N.eqb_eq in Eq. simplify_eq.
    exists []. split; [reflexivity|]. intros t b'. reflexivity. }
  destruct (is_char "\" c0) eqn:Eb.
  2:{ simpl in H. rewrite Eq, Eb in H.
      destruct (c0 <=? 31)%N eqn:Ec; [discriminate|].
      apply IH in H as (c & -> & Hc); [|simpl; lia].
      exists (c0 :: c). split; [reflexivity|]. intros t b'. simpl.
      now rewrite Eq, Eb, Ec. }
  destruct s1 as [|e s2]; [simpl in H; rewrite Eq, Eb in H; discriminate|].
  destruct (is_char "u" e) eqn:Eu.
  2:{ simpl in H. rewrite Eq, Eb, Eu in H.
      destruct (escape_char e) as [y|] eqn:Ee; [|discriminate].
      apply IH in H as (c & -> & Hc); [|simpl; lia].
      exists (c0 :: e :: c). split; [reflexivity|]. intros t b'. simpl.
      now rewrite Eq, Eb, Eu, Ee. }
  destruct s2 as [|h1 [|h2 [|h3 [|h4 [|x3 s3]]]]];
    try (simpl in H; rewrite Eq, Eb, Eu in H; discriminate).
  destruct (hex4 h1 h2 h3 h4) as [c1|] eqn:Eh;
    [|simpl in H; rewrite Eq, Eb, Eu, Eh in H; discriminate].
  clear Eq. apply is_char_eq in Eb, Eu. subst c0 e.
  rewrite (scanstring_escape_u _ _ _ _ _ _ _ _ _ Eh) in H.
  match type of H with
  | context [low_surrogate_ahead ?a ?b] =>
      destruct (low_surrogate_ahead a b) as [cp s4| |n] eqn:El
  end; [| |discriminate H].
  - apply ahead_paired_inv in El
      as (a1 & a2 & a3 & a4 & a5 & a6 & y & s4' & Es & -> & Hp).
    injection Es as -> ->.
    apply IH in H as (c & Hc & Hlocal); [|simpl; lia].
    exists (ch "\" :: ch "u" :: h1 :: h2 :: h3 :: h4
            :: a1 :: a2 :: a3 :: a4 :: a5 :: a6 :: c).
    split; [simpl; now rewrite <- Hc|].
    intros t b'. simpl app.
    rewrite (scanstring_escape_u _ _ _ _ _ _ _ _ _ Eh).
    destruct c as [|y' c]; simpl app; rewrite Hp; apply Hlocal.
  - pose proof H as H'.
    apply IH in H as (c & Hc & Hlocal); [|simpl; lia].
    exists (ch "\" :: ch "u" :: h1 :: h2 :: h3 :: h4 :: c).
    split; [simpl; now rewrite <- Hc|].
    intros t b'.
    assert (Hu : low_surrogate_ahead c1 (c ++ dquote :: t) = Unpaired).
    { rewrite Hc in El.
      apply (ahead_unpaired_local c1 c rest begin (c1 :: chunks) x El).
      specialize (Hlocal [] begin). exact Hlocal. }
    simpl app.
    destruct (c ++ dquote :: t) as [|y l] eqn:Ey;
      [destruct c; discriminate|].
    rewrite (scanstring_escape_u _ _ _ _ _ _ _ _ _ Eh), Hu.
    rewrite <- Ey. apply Hlocal.
Qed.

(** Numbers. *)

Lemma take_digits_split (s : str) :
  forall ds r, take_digits s = (ds, r) ->
    s = ds ++ r /\ Forall (fun c => is_digit c = true) ds /\ no_digit_ahead r.
Proof.
  induction s as [|c s IH]; simpl; intros ds r H.
  - simplify_eq. repeat split; constructor.
  - destruct (is_digit c) eqn:E.
    + destruct (take_digits s) as [ds' r'] eqn:E'. simplify_eq.
      destruct (IH _ _ eq_refl) as (-> & Hd & Hr).
      repeat split; [now constructor | exact Hr].
    + simplify_eq. repeat split; [constructor | exact E].
Qed.

Lemma take_digits_app (ds t : str) :
  Forall (fun c => is_digit c = true) ds -> no_digit_ahead t ->
  take_digits (ds ++ t) = (ds, t).
Proof.
  induction 1 as [|c ds Hc _ IH]; intros Ht; simpl.
  - destruct t as [|x t]; [reflexivity|]. simpl in Ht. simpl. now rewrite Ht.
  - now rewrite Hc, (IH Ht).
Qed.

(** Numbers. *)

Lemma delimited_ends_number (t : str) : delimited t -> ends_number t.
Proof.
  destruct t as [|x t]; [auto|]. simpl.
  unfold is_whitespace, is_char, is_digit.
  intros H. repeat (apply orb_prop in H as [H|H]);
    apply N.eqb_eq in H; subst x; repeat split; reflexivity.
Qed.

Lemma match_integer_local (s integer r : str) :
  match_integer s = Some (integer, r) ->
  s = integer ++ r
  /\ number_start integer
  /\ forall t, no_digit_ahead t -> match_integer (integer ++ t) = Some (integer, t).
Proof.
  unfold match_integer. intros H.
  destruct s as [|c s]; [discriminate|].
  destruct (is_char "-" c) eqn:Em.
  - destruct s as [|d s]; [discriminate|].
    destruct (is_char "0" d) eqn:E0.
    + simplify_eq. repeat split.
      * right. split; [exact Em|]. apply is_char_eq in E0. now subst d.
      * intros t _. simpl. now rewrite Em, E0.
    + destruct (is_digit d) eqn:Ed; [|discriminate].
      destruct (take_digits s) as [ds r'] eqn:Et. simplify_eq.
      destruct (take_digits_split _ _ _ Et) as (-> & Hds & _).
      repeat split.
      * right. split; [exact Em | exact Ed].
      * intros t Ht. simpl. rewrite Em, E0, Ed.
        now rewrite (take_digits_app _ _ Hds Ht).
  - destruct (is_char "0" c) eqn:E0.
    + simplify_eq. repeat split.
      * left. apply is_char_eq in E0. now subst c.
      * intros t _. simpl. now rewrite Em, E0.
    + destruct (is_digit c) eqn:Ed; [|discriminate].
      destruct (take_digits s) as [ds r'] eqn:Et. simplify_eq.
      destruct (take_digits_split _ _ _ Et) as (-> & Hds & _).
      repeat split.
      * left. exact Ed.
      * intros t Ht. simpl. rewrite Em, E0, Ed.
        now rewrite (take_digits_app _ _ Hds Ht).
Qed.

Lemma match_frac_local (s frac r : str) :
  match_frac s = (frac, r) ->
  s = frac ++ r
  /\ (frac = [] \/ exists frac', frac = ch "." :: frac')
  /\ forall t, no_fraction_ahead t -> match_frac (frac ++ t) = (frac, t).
Proof.
  unfold match_frac. intros H.
  assert (Hnone : forall t, no_fraction_ahead t ->
            match t with
            | dot :: d :: s' =>
                if is_char "." dot && is_digit d
                then let '(ds, r) := take_digits (d :: s') in (dot :: ds, r)
                else ([], t)
            | _ => ([], t)
            end = ([], t)).
  { intros [|x [|y t]] Ht; try reflexivity. destruct Ht as [_ Ht].
    now rewrite Ht. }
  destruct s as [|dot [|d s']]; simplify_eq; try (repeat split; auto; fail).
  destruct (is_char "." dot && is_digit d) eqn:E.
  - apply andb_prop in E as [Edot Ed]. apply is_char_eq in Edot. subst dot.
    destruct (take_digits (d :: s')) as [ds r'] eqn:Et. simplify_eq.
    destruct (take_digits_split _ _ _ Et) as (Hs & Hds & _).
    repeat split.
    + simpl. now rewrite Hs.
    + right. eauto.
    + intros t Ht.
      assert (Hnd : no_digit_ahead t) by (destruct t; [exact I | apply Ht]).
      simpl in Et. rewrite Ed in Et.
      destruct (take_digits s') as [ds' r''] eqn:Et'. simplify_eq.
      cbn [app].
      change (is_char "." (ch ".") && is_digit d) with (is_digit d).
      rewrite Ed.
      change (d :: ds' ++ t) with ((d :: ds') ++ t).
      now rewrite (take_digits_app _ _ Hds Hnd).
  - simplify_eq. repeat split; auto.
Qed.

Lemma match_exp_none (t : str) : no_exponent_ahead t -> match_exp t = ([], t).
Proof.
  destruct t as [|x t]; [reflexivity|]. intros (_ & He & HE).
  unfold match_exp. now rewrite He, HE.
Qed.

Lemma match_exp_local (s exp r : str) :
  match_exp s = (exp, r) ->
  s = exp ++ r
  /\ (exp = [] \/ exists e exp', exp = e :: exp'
                              /\ is_char "e" e || is_char "E" e = true)
  /\ forall t, no_exponent_ahead t -> match_exp (exp ++ t) = (exp, t).
Proof.
  intros H.
  assert (Hempty : exp = [] -> r = s).
  { intros ->. unfold match_exp in H. repeat case_match; simplify_eq; reflexivity. }
  destruct exp as [|e exp'].
  { rewrite (Hempty eq_refl). repeat split; auto. intros t. apply match_exp_none. }
  clear Hempty. unfold match_exp in H.
  destruct s as [|e0 s1]; [discriminate|].
  destruct (is_char "e" e0 || is_char "E" e0) eqn:Ee; [|discriminate].
  destruct s1 as [|c s'].
  { simpl in H. discriminate. }
  destruct (is_char "+" c || is_char "-" c) eqn:Es.
  - destruct (take_digits s') as [ds r'] eqn:Et.
    destruct ds as [|d ds]; [discriminate|]. simplify_eq.
    destruct (take_digits_split _ _ _ Et) as (-> & Hds & _).
    repeat split; [right; eauto|].
    intros t Ht.
    assert (Hnd : no_digit_ahead t) by (destruct t; [exact I | apply Ht]).
    cbn [app]. unfold match_exp. rewrite Ee, Es.
    change (d :: ds ++ t) with ((d :: ds) ++ t).
    now rewrite (take_digits_app _ _ Hds Hnd).
  - destruct (take_digits (c :: s')) as [ds r'] eqn:Et.
    destruct ds as [|d ds]; [discriminate|]. simplify_eq.
    destruct (take_digits_split _ _ _ Et) as (Hs & Hds & _).
    simpl in Hs. injection Hs as -> ->.
    repeat split; [right; eauto|].
    intros t Ht.
    assert (Hnd : no_digit_ahead t) by (destruct t; [exact I | apply Ht]).
    cbn [app]. unfold match_exp. rewrite Ee, Es.
    change (d :: ds ++ t) with ((d :: ds) ++ t).
    now rewrite (take_digits_app _ _ Hds Hnd).
Qed.

Lemma number_start_app (c t : str) : number_start c -> number_start (c ++ t).
Proof.
  destruct c as [|d c]; [intros []|]. simpl.
  intros [H|[Hm Hd]]; [now left|]. right. split; [exact Hm|].
  destruct c; [destruct Hd | exact Hd].
Qed.

(** A matched number literal starts like a number, is not a dictionary,
    and is matched again whatever follows it, provided that cannot continue
    a number. *)
Lemma match_number_local (s : str) (v : json) (rest : str) :
  match_number s = Ok v rest ->
  exists c, s = c ++ rest
            /\ number_start c
            /\ is_dict v = false
            /\ forall t, ends_number t -> match_number (c ++ t) = Ok v t.
Proof.
  unfold match_number. intros H.
  destruct (match_integer s) as [[integer s1]|] eqn:Ei; [|discriminate].
  destruct (match_frac s1) as [frac s2] eqn:Ef.
  destruct (match_exp s2) as [exp s3] eqn:Ee.
  destruct (match_integer_local _ _ _ Ei) as (-> & Hstart & Hi).
  destruct (match_frac_local _ _ _ Ef) as (-> & Hfrac & Hf).
  destruct (match_exp_local _ _ _ Ee) as (-> & Hexp & He).
  exists (integer ++ frac ++ exp).
  assert (Hv : is_dict v = false /\ rest = s3).
  { destruct (frac ++ exp); [|now simplify_eq].
    destruct (parse_int integer) eqn:Ep; simplify_eq.
    unfold parse_int in Ep. repeat case_match; simplify_eq; auto. }
  destruct Hv as [Hv ->].
  split; [now rewrite <- !app_assoc|].
  split; [now apply number_start_app|]. split; [exact Hv|].
  intros t Ht.
  assert (Hte : no_exponent_ahead t).
  { destruct t; [exact I|]. simpl in *. tauto. }
  assert (Htf : no_fraction_ahead (exp ++ t)).
  { destruct Hexp as [->|(e & exp' & -> & Hee)].
    - destruct t; [exact I|]. simpl in *. tauto.
    - simpl. unfold is_char, is_digit in *.
      apply orb_prop in Hee as [Hee|Hee]; apply N.eqb_eq in Hee; subst e;
        split; reflexivity. }
  assert (Hti : no_digit_ahead (frac ++ exp ++ t)).
  { destruct Hfrac as [->|(frac' & ->)]; [|reflexivity].
    simpl. destruct (exp ++ t); [exact I | apply Htf]. }
  rewrite <- !app_assoc. rewrite (Hi _ Hti), (Hf _ Htf), (He _ Hte).
  destruct (frac ++ exp); [|now simplify_eq].
  destruct (parse_int integer); now simplify_eq.
Qed.

Lemma is_digit_cases (d : char) :
  is_digit d = true ->
  d ∈ [48; 49; 50; 51; 52; 53; 54; 55; 56; 57]%N.
Proof.
  unfold is_digit. intros [H1 H2]%andb_prop.
  apply N.leb_le in H1, H2.
  assert (H : (d = 48 \/ d = 49 \/ d = 50 \/ d = 51 \/ d = 52 \/ d = 53
               \/ d = 54 \/ d = 55 \/ d = 56 \/ d = 57)%N) by lia.
  repeat (destruct H as [->|H]; [set_solver|]). subst. set_solver.
Qed.

(** A text that starts like a number is handed to [match_number]. *)
Lemma scan_once_number (fuel depth : nat) (c : str) :
  number_start c -> scan_once (S fuel) depth c = Some (match_number c).
Proof.
  destruct c as [|d c]; [intros []|]. simpl number_start.
  intros [Hd|[Hm Hd]].
  - apply is_digit_cases in Hd.
    repeat (apply elem_of_cons in Hd as [->|Hd]; [reflexivity|]).
    now apply elem_of_nil in Hd.
  - apply is_char_eq in Hm. subst d. destruct c as [|d' c]; [destruct Hd|].
    apply is_digit_cases in Hd.
    repeat (apply elem_of_cons in Hd as [->|Hd]; [reflexivity|]).
    now apply elem_of_nil in Hd.
Qed.

Lemma skip_ws_solid (s : str) : skip_ws s = [] \/ solid (skip_ws s).
Proof.
  destruct (skip_ws s) as [|x r] eqn:E; [now left|right].
  exact (skip_ws_head _ _ _ E).
Qed.

Lemma skip_ws_past (p s : str) : json_blank p -> solid s -> skip_ws (p ++ s) = s.
Proof.
  intros Hp Hs. rewrite (skip_ws_blank _ _ Hp).
  destruct s as [|x s]; [destruct Hs|]. now apply skip_ws_stop.
Qed.

Lemma solid_app (c t : str) : solid c -> solid (c ++ t).
Proof. destruct c; [intros [] | auto]. Qed.

Lemma delimited_blank (p t : str) : json_blank p -> delimited t -> delimited (p ++ t).
Proof.
  destruct 1 as [|x p Hx _]; [auto|]. intros _. simpl. now rewrite Hx.
Qed.

Lemma startswith_split (p s : str) :
  startswith p s = true -> s = p ++ skipn (List.length p) s.
Proof.
  revert s. induction p as [|x p IH]; intros [|y s]; simpl; try discriminate;
    [reflexivity..|].
  intros [Hxy Hp]%andb_prop. apply N.eqb_eq in Hxy. subst y.
  f_equal. now apply IH.
Qed.

Lemma parse_object_nil (fuel depth : nat) (pairs : list (str * json)) v rest :
  parse_object fuel depth [] pairs <> Some (Ok v rest).
Proof. destruct fuel; discriminate. Qed.

Lemma parse_array_nil (fuel depth : nat) (values : list json) v rest :
  parse_array fuel depth [] values <> Some (Ok v rest).
Proof. destruct fuel as [|[|fuel]]; discriminate. Qed.

Lemma number_start_solid (c : str) : number_start c -> solid c.
Proof.
  destruct c as [|d c]; [intros []|]. simpl.
  intros [Hd|[Hm _]].
  - apply is_digit_cases in Hd.
    repeat (apply elem_of_cons in Hd as [->|Hd]; [reflexivity|]).
    now apply elem_of_nil in Hd.
  - apply is_char_eq in Hm. now subst d.
Qed.

Ltac reassoc := repeat (progress (rewrite <- ?app_assoc; cbn [app])).

Lemma local_scan_step (fuel : nat) :
  (forall depth, local_object fuel depth) ->
  (forall depth, local_array fuel depth) ->
  forall depth, local_scan (S fuel) depth.
Proof.
  intros IHo IHa depth s v rest H.
  destruct s as [|c0 s1]; [discriminate|]. cbn [scan_once] in H.
  destruct (N.eqb c0 dquote) eqn:Eq.
  { apply N.eqb_eq in Eq. subst c0.
    destruct (scanstring s1 _ []) as [key r|] eqn:Es; [|discriminate].
    simplify_eq.
    destruct (scanstring_local _ _ _ _ _ Es) as (c & -> & Hc).
    exists (dquote :: c ++ [dquote]). split; [now reassoc|].
    split; [reflexivity|]. split; [discriminate|].
    intros t _. cbn [app scan_once]. rewrite N.eqb_refl.
    rewrite <- app_assoc. cbn [app]. now rewrite Hc. }
  destruct (is_char "{" c0) eqn:Eo.
  { apply is_char_eq in Eo. subst c0. destruct depth as [|depth]; [discriminate|].
    destruct (skip_ws_split s1) as (p & Hp & Hs1).
    destruct (skip_ws s1) as [|c2 s3] eqn:Ew;
      [now apply parse_object_nil in H|].
    pose proof (skip_ws_head _ _ _ Ew) as Hc2. subst s1. clear Ew.
    destruct (is_char "}" c2) eqn:Ec.
    - apply is_char_eq in Ec. subst c2. simplify_eq.
      exists (ch "{" :: p ++ [ch "}"]).
      split; [now reassoc|].
      split; [reflexivity|]. split; [eauto|].
      intros t _. cbn [app scan_once]. rewrite Eq.
      change (is_char "{" (ch "{")) with true. cbv iota.
      rewrite <- app_assoc. cbn [app].
      rewrite (skip_ws_past p (ch "}" :: t) Hp eq_refl). reflexivity.
    - destruct (IHo _ _ _ _ _ H) as (Hv & c & Hc & Hlocal).
      destruct c as [|c2' c]; [simpl in Hc; simplify_eq; discriminate|].
      simpl in Hc. injection Hc as <- ->.
      exists (ch "{" :: p ++ c2 :: c ++ [ch "}"]).
      split; [now reassoc|].
      split; [reflexivity|].
      split; [intros _; exists (p ++ c2 :: c); now reassoc|].
      intros t _. cbn [app scan_once]. rewrite Eq.
      change (is_char "{" (ch "{")) with true. cbv iota.
      reassoc.
      rewrite (skip_ws_past p (c2 :: c ++ ch "}" :: t) Hp Hc2).
      rewrite Ec. apply (Hlocal t). }
  destruct (is_char "[" c0) eqn:Ea.
  { apply is_char_eq in Ea. subst c0. destruct depth as [|depth]; [discriminate|].
    destruct (skip_ws_split s1) as (p & Hp & Hs1).
    destruct (skip_ws s1) as [|c2 s3] eqn:Ew;
      [now apply parse_array_nil in H|].
    pose proof (skip_ws_head _ _ _ Ew) as Hc2. subst s1. clear Ew.
    destruct (is_char "]" c2) eqn:Ec.
    - apply is_char_eq in Ec. subst c2. simplify_eq.
      exists (ch "[" :: p ++ [ch "]"]).
      split; [now reassoc|].
      split; [reflexivity|]. split; [discriminate|].
      intros t _. cbn [app scan_once]. rewrite Eq, Eo.
      change (is_char "[" (ch "[")) with true. cbv iota.
      rewrite <- app_assoc. cbn [app].
      rewrite (skip_ws_past p (ch "]" :: t) Hp eq_refl). reflexivity.
    - destruct (IHa _ _ _ _ _ H) as (Hv & c & Hc & Hlocal).
      destruct c as [|c2' c]; [simpl in Hc; simplify_eq; discriminate|].
      simpl in Hc. injection Hc as <- ->.
      exists (ch "[" :: p ++ c2 :: c ++ [ch "]"]).
      split; [now reassoc|].
      split; [reflexivity|].
      split; [intros Hd; rewrite Hd in Hv; discriminate|].
      intros t _. cbn [app scan_once]. rewrite Eq, Eo.
      change (is_char "[" (ch "[")) with true. cbv iota.
      reassoc.
      rewrite (skip_ws_past p (c2 :: c ++ ch "]" :: t) Hp Hc2).
      rewrite Ec. apply (Hlocal t). }
  repeat match type of H with
  | (if startswith ?p ?x then _ else _) = _ =>
      destruct (startswith p x) eqn:?;
      [simplify_eq;
       match goal with
       | E : startswith ?p ?x = true |- _ =>
           exists p; split; [exact (startswith_split _ _ E)|];
           split; [reflexivity|]; split; [discriminate|];
           intros t _; reflexivity
       end|]
  end.
  simplify_eq.
  match goal with H : match_number _ = _ |- _ =>
    destruct (match_number_local _ _ _ H) as (c & Hc & Hstart & Hv & Hlocal)
  end.
  exists c. split; [exact Hc|]. split; [now apply number_start_solid|].
  split; [intros Hd; rewrite Hd in Hv; discriminate|].
  intros t Ht. rewrite (scan_once_number _ _ _ (number_start_app _ t Hstart)).
  f_equal. apply Hlocal. now apply delimited_ends_number.
Qed.

Lemma delimited_after_blank (p : str) (x : char) (t : str) :
  json_blank p ->
  is_char "," x || is_char "]" x || is_char "}" x = true ->
  delimited (p ++ x :: t).
Proof.
  intros Hp Hx. apply delimited_blank; [exact Hp|]. simpl.
  destruct (is_whitespace x); [reflexivity | exact Hx].
Qed.

Lemma local_object_step (fuel : nat) :
  (forall depth, local_scan fuel depth) ->
  (forall depth, local_object fuel depth) ->
  forall depth, local_object (S fuel) depth.
Proof.
  intros IHs IHo depth s pairs v rest H.
  destruct s as [|c0 s1]; [discriminate|]. cbn [parse_object] in H.
  destruct (N.eqb c0 dquote) eqn:Eq; cbn [negb] in H; [|discriminate].
  apply N.eqb_eq in Eq. subst c0.
  destruct (scanstring s1 _ []) as [key s2|] eqn:Es; [|discriminate].
  destruct (scanstring_local _ _ _ _ _ Es) as (k & -> & Hk). clear Es.
  destruct (skip_ws_split s2) as (p1 & Hp1 & Hs2).
  destruct (skip_ws s2) as [|colon s4] eqn:Ew1; [discriminate|].
  subst s2. clear Ew1.
  destruct (is_char ":" colon) eqn:Ecol; cbn [negb] in H; [|discriminate].
  apply is_char_eq in Ecol. subst colon.
  destruct (skip_ws_split s4) as (p2 & Hp2 & Hs4).
  destruct (scan_once fuel depth (skip_ws s4)) as [[val s6|]|] eqn:Ev;
    try discriminate.
  destruct (IHs _ _ _ _ Ev) as (cv & Hcv & Hsolid & _ & Hlv). clear Ev.
  rewrite Hcv in Hs4. subst s4. clear Hcv.
  destruct (skip_ws_split s6) as (p3 & Hp3 & Hs6).
  destruct (skip_ws s6) as [|c7 s8] eqn:Ew3; [discriminate|].
  subst s6. clear Ew3.
  destruct (is_char "}" c7) eqn:E7.
  - apply is_char_eq in E7. subst c7. simplify_eq.
    split; [reflexivity|].
    exists (dquote :: k ++ dquote :: p1 ++ ch ":" :: p2 ++ cv ++ p3).
    split; [now reassoc|].
    intros t. reassoc. cbn [parse_object]. rewrite N.eqb_refl. cbn [negb].
    rewrite Hk.
    rewrite (skip_ws_past p1 (ch ":" :: _) Hp1 eq_refl).
    change (is_char ":" (ch ":")) with true. cbn [negb].
    rewrite (skip_ws_past p2 (cv ++ _) Hp2 (solid_app _ _ Hsolid)).
    rewrite (Hlv _ (delimited_after_blank p3 (ch "}") t Hp3 eq_refl)).
    rewrite (skip_ws_past p3 (ch "}" :: t) Hp3 eq_refl).
    reflexivity.
  - destruct (is_char "," c7) eqn:E8; [|discriminate].
    apply is_char_eq in E8. subst c7.
    destruct (skip_ws_split s8) as (p4 & Hp4 & Hs8).
    destruct (IHo _ _ _ _ _ H) as (Hv & c & Hc & Hlocal).
    assert (Hsc : forall t, solid (c ++ ch "}" :: t)).
    { intros t. destruct (skip_ws_solid s8) as [E|Hs];
        rewrite Hc in *; destruct c; try discriminate; exact I || exact Hs. }
    rewrite Hc in Hs8. subst s8. clear Hc.
    split; [exact Hv|].
    exists (dquote :: k ++ dquote :: p1 ++ ch ":" :: p2 ++ cv ++ p3
            ++ ch "," :: p4 ++ c).
    split; [now reassoc|].
    intros t. reassoc. cbn [parse_object]. rewrite N.eqb_refl. cbn [negb].
    rewrite Hk.
    rewrite (skip_ws_past p1 (ch ":" :: _) Hp1 eq_refl).
    change (is_char ":" (ch ":")) with true. cbn [negb].
    rewrite (skip_ws_past p2 (cv ++ _) Hp2 (solid_app _ _ Hsolid)).
    rewrite (Hlv _ (delimited_after_blank p3 (ch ",") _ Hp3 eq_refl)).
    rewrite (skip_ws_past p3 (ch "," :: _) Hp3 eq_refl).
    change (is_char "}" (ch ",")) with false.
    change (is_char "," (ch ",")) with true. cbv iota.
    rewrite (skip_ws_past p4 (c ++ ch "}" :: t) Hp4 (Hsc t)).
    apply Hlocal.
Qed.

Lemma local_array_step (fuel : nat) :
  (forall depth, local_scan fuel depth) ->
  (forall depth, local_array fuel depth) ->
  forall depth, local_array (S fuel) depth.
Proof.
  intros IHs IHa depth s values v rest H.
  cbn [parse_array] in H.
  destruct (scan_once fuel depth s) as [[val s1|]|] eqn:Ev; try discriminate.
  destruct (IHs _ _ _ _ Ev) as (cv & -> & Hsolid & _ & Hlv). clear Ev.
  destruct (skip_ws_split s1) as (p1 & Hp1 & Hs1).
  destruct (skip_ws s1) as [|c2 s3] eqn:Ew1; [discriminate|].
  subst s1. clear Ew1.
  destruct (is_char "]" c2) eqn:E2.
  - apply is_char_eq in E2. subst c2. simplify_eq.
    split; [reflexivity|].
    exists (cv ++ p1). split; [now reassoc|].
    intros t. reassoc. cbn [parse_array].
    rewrite (Hlv _ (delimited_after_blank p1 (ch "]") t Hp1 eq_refl)).
    rewrite (skip_ws_past p1 (ch "]" :: t) Hp1 eq_refl).
    reflexivity.
  - destruct (is_char "," c2) eqn:E3; [|discriminate].
    apply is_char_eq in E3. subst c2.
    destruct (skip_ws_split s3) as (p2 & Hp2 & Hs3).
    destruct (IHa _ _ _ _ _ H) as (Hv & c & Hc & Hlocal).
    assert (Hsc : forall t, solid (c ++ ch "]" :: t)).
    { intros t. destruct (skip_ws_solid s3) as [E|Hs];
        rewrite Hc in *; destruct c; try discriminate; exact I || exact Hs. }
    rewrite Hc in Hs3. subst s3. clear Hc.
    split; [exact Hv|].
    exists (cv ++ p1 ++ ch "," :: p2 ++ c). split; [now reassoc|].
    intros t. reassoc. cbn [parse_array].
    rewrite (Hlv _ (delimited_after_blank p1 (ch ",") _ Hp1 eq_refl)).
    rewrite (skip_ws_past p1 (ch "," :: _) Hp1 eq_refl).
    change (is_char "]" (ch ",")) with false.
    change (is_char "," (ch ",")) with true. cbv iota.
    rewrite (skip_ws_past p2 (c ++ ch "]" :: t) Hp2 (Hsc t)).
    apply Hlocal.
Qed.

(** What the scanner returns depends on the text it consumes only, provided
    the text that follows cannot continue a number. *)
Lemma scan_local (fuel : nat) :
  forall depth,
    local_scan fuel depth /\ local_object fuel depth /\ local_array fuel depth.
Proof.
  induction fuel as [|fuel IH]; intros depth.
  - unfold local_scan, local_object, local_array.
    repeat split; intros; discriminate.
  - split; [|split].
    + apply local_scan_step; intros d; apply IH.
    + apply local_object_step; intros d; apply IH.
    + apply local_array_step; intros d; apply IH.
Qed.

Lemma skip_ws_nil_blank (s : str) : skip_ws s = [] -> json_blank s.
Proof.
  intros H. destruct (skip_ws_split s) as (p & Hp & Hs).
  rewrite H, app_nil_r in Hs. now subst.
Qed.

Lemma skip_ws_solid_id (s : str) : solid s -> skip_ws s = s.
Proof. intros H. apply (skip_ws_past [] s); [constructor | exact H]. Qed.

(** A text that [json.loads] parses to a dictionary is a brace span between
    whitespace, and the span alone parses to the same dictionary. *)
Lemma loads_object_span (depth : nat) (text : str) (members : list (str * json)) :
  loads depth text = Return (JObject members) ->
  exists p inner q,
    text = p ++ (ch "{" :: inner ++ [ch "}"]) ++ q
    /\ json_blank p /\ json_blank q
    /\ loads depth (ch "{" :: inner ++ [ch "}"]) = Return (JObject members).
Proof.
  unfold loads at 1. intros H.
  destruct (startswith [65279%N] text); [discriminate|].
  destruct (scan_once _ depth (skip_ws text)) as [[obj rest|f]|] eqn:Es;
    [|destruct f; discriminate|discriminate].
  destruct (skip_ws rest) as [|x r] eqn:Er; [|discriminate].
  simplify_eq.
  destruct (proj1 (scan_local _ depth) _ _ _ Es)
    as (c & Hc & Hsolid & Hdict & Hlocal).
  destruct (Hdict eq_refl) as (inner & ->).
  destruct (skip_ws_split text) as (p & Hp & Htext).
  exists p, inner, rest. split; [rewrite Htext at 1; now rewrite Hc|].
  split; [exact Hp|]. split; [now apply skip_ws_nil_blank|].
  unfold loads.
  change (startswith [65279%N] (ch "{" :: inner ++ [ch "}"])) with false.
  cbv iota. rewrite (skip_ws_solid_id _ Hsolid).
  specialize (Hlocal [] I). rewrite app_nil_r in Hlocal.
  match goal with
  | |- context [scan_once ?f depth ?c] =>
      destruct (scan_once f depth c) as [y|] eqn:Ey;
      [|exfalso; revert Ey; apply (proj1 (scan_fuel _ _)); lia]
  end.
  assert (Hle : 2 * List.length (ch "{" :: inner ++ [ch "}"]) + 1
                <= 2 * List.length text + 1).
  { rewrite Htext, Hc, !length_app. lia. }
  apply (proj1 (scan_fuel_mono _ depth _ Hle)) in Ey.
  rewrite Hlocal in Ey. now simplify_eq.
Qed.

Lemma json_blank_no_char (a : ascii) (p : str) :
  is_whitespace (ch a) = false -> json_blank p -> has_char (ch a) p = false.
Proof.
  intros Ha. induction 1 as [|c p Hc _ IH]; simpl; [reflexivity|].
  rewrite IH, orb_false_r. apply N.eqb_neq. intros <-. congruence.
Qed.

End ScannerFacts.

(** ** Categorization and response repair *)

Section RepairFacts.
Import Py Json OpenAIClient Specification Samples.

(** Whatever the response text, the repair stage returns: a
    [JSONDecodeError] is handled at each of the three attempts, and anything
    else by the outermost handler. *)
Lemma repair_never_raises (depth : nat) (response_text : str) :
  exists result, repair depth response_text = Return result.
Proof.
  unfold repair, try_except, api_error.
  destruct (parse_response depth response_text); eauto.
Qed.

(** A parse that succeeds at the first attempt is the result. *)
Lemma repair_first_attempt (depth : nat) (response_text : str) (v : json) :
  loads depth (json_boundaries (strip response_text)) = Return v ->
  repair depth response_text = Return v.
Proof.
  intros H. unfold repair, parse_response. now rewrite H.
Qed.

(** C1: the repair stage never raises, whatever the response text; but what
    it returns is not always a dictionary: the response text [[1, 2]] is
    valid JSON without braces, and the repair stage returns the parsed list. *)
Theorem repair_returns_a_list (depth : nat) :
  (forall response_text, exists result, repair depth response_text = Return result)
  /\ repair (S depth) array_text = Return (JArray [JInt 1; JInt 2])
  /\ is_dict (JArray [JInt 1; JInt 2]) = false.
Proof.
  split; [intros response_text; apply repair_never_raises|].
  split; reflexivity.
Qed.

(** The claim C7 as stated fails: the truncated input ends in the error
    record of the last resort. *)
Lemma truncated_array_not_recovered :
  repair recursion_limit truncated_array
  = Return (error_record
      (lit "Failed to parse JSON response from GPT-5.2. Error: Expecting ',' delimiter: line 1 column 12 (char 11). Response preview: "
       ++ truncated_array ++ lit "...")).
Proof. vm_compute. reflexivity. Qed.

(** C7, as amended: given the truncated input, which lacks a closing
    bracket and a closing brace, the repair stage does not raise and returns
    the error record of the last resort, since only braces are balanced; a
    response that lacks its closing braces only, such as
    [{"a": {"b": [1, 2]], is recovered as the record it stands for. *)
Theorem truncation_recovery (depth : nat) :
  repair (S (S depth)) truncated_array
  = Return (error_record
      (lit "Failed to parse JSON response from GPT-5.2. Error: Expecting ',' delimiter: line 1 column 12 (char 11). Response preview: "
       ++ truncated_array ++ lit "..."))
  /\ fix_common_issues truncated_array = truncated_array ++ lit "}"
  /\ repair (S (S (S depth))) truncated_object
     = Return (JObject [(lit "a", JObject [(lit "b", JArray [JInt 1; JInt 2])])]).
Proof. repeat split; vm_compute; reflexivity. Qed.

(** The claim C8 as stated fails: prose that contains braces moves the brace
    span, and the well-formed object after it is lost. *)
Lemma braced_prose_breaks_repair :
  loads recursion_limit small_object = Return (JObject [(lit "a", JInt 1)])
  /\ repair recursion_limit small_object = Return (JObject [(lit "a", JInt 1)])
  /\ repair recursion_limit (braced_prose ++ small_object)
     <> repair recursion_limit small_object.
Proof.
  split; [vm_compute; reflexivity|]. split; [vm_compute; reflexivity|].
  vm_compute. discriminate.
Qed.

(** C8, as amended: for every well-formed JSON object text (a text that
    [json.loads] parses to a dictionary), the repair stage returns the
    record the text stands for when the text comes alone, and the identical
    record when it comes between prose that has no opening brace before the
    text and no closing brace after it. *)
Theorem repair_ignores_brace_free_prose (depth : nat)
    (text before after : str) (members : list (str * json)) :
  loads depth text = Return (JObject members) ->
  has_char (ch "{") before = false ->
  has_char (ch "}") after = false ->
  repair depth (before ++ text ++ after) = repair depth text
  /\ repair depth text = Return (JObject members).
Proof.
  intros Hloads Hb Ha.
  destruct (loads_object_span _ _ _ Hloads)
    as (p & inner & q & -> & Hp & Hq & Hspan).
  pose proof (json_blank_no_char "{" p eq_refl Hp) as Hpo.
  pose proof (json_blank_no_char "}" q eq_refl Hq) as Hqc.
  assert (Hbare : repair depth (p ++ (ch "{" :: inner ++ [ch "}"]) ++ q)
                  = Return (JObject members)).
  { apply repair_first_attempt. now rewrite json_boundaries_prose. }
  split; [|exact Hbare]. rewrite Hbare.
  apply repair_first_attempt.
  replace (before ++ (p ++ (ch "{" :: inner ++ [ch "}"]) ++ q) ++ after)
    with ((before ++ p) ++ (ch "{" :: inner ++ [ch "}"]) ++ (q ++ after))
    by (now rewrite <- !app_assoc).
  rewrite json_boundaries_prose; [exact Hspan| |];
    rewrite has_char_app; [now rewrite Hb, Hpo | now rewrite Hqc, Ha].
Qed.

Lemma repair_ignores_brace_free_prose_witness :
  loads recursion_limit spaced_object = Return (JObject [(lit "a", JInt 1)])
  /\ has_char (ch "{") (lit "Here you go} ") = false
  /\ has_char (ch "}") (lit " {enjoy") = false
  /\ repair recursion_limit (lit "Here you go} " ++ spaced_object ++ lit " {enjoy")
     = repair recursion_limit spaced_object
  /\ repair recursion_limit spaced_object = Return (JObject [(lit "a", JInt 1)]).
Proof.
  assert (H1 : loads recursion_limit spaced_object
               = Return (JObject [(lit "a", JInt 1)])) by (vm_compute; reflexivity).
  assert (H2 : has_char (ch "{") (lit "Here you go} ") = false) by reflexivity.
  assert (H3 : has_char (ch "}") (lit " {enjoy") = false) by reflexivity.
  exact (conj H1 (conj H2 (conj H3
           (repair_ignores_brace_free_prose recursion_limit spaced_object
              (lit "Here you go} ") (lit " {enjoy") [(lit "a", JInt 1)]
              H1 H2 H3)))).
Defined.

End RepairFacts.

Section CategorizeFacts.
Import Py Json OpenAIClient Specification.

Variable depth : nat.
Context {model response : Type}.
Variable has_responses : bool.
Variable responses_create : str -> str -> model -> outcome response * model.
Variable chat_completions_create : str -> str -> model -> outcome response * model.
Variable response_text_of : response -> outcome str.

Local Abbreviation categorize :=
  (categorize_keywords_with_gpt52 depth model response has_responses
     responses_create chat_completions_create response_text_of).

(** No call of [categorize_keywords_with_gpt52] raises. *)
Lemma categorize_never_raises (blog_content csv_content developer_prompt : str)
    (w : world model) :
  exists result,
    (categorize blog_content csv_content developer_prompt w).1 = Return result.
Proof.
  unfold categorize_keywords_with_gpt52.
  destruct blog_content as [|b bl]; [simpl; eauto|].
  destruct (strip (b :: bl)); [simpl; eauto|].
  destruct csv_content as [|c cl]; [simpl; eauto|].
  destruct (strip (c :: cl)); [simpl; eauto|].
  destruct (create_response _ _ _ _ _ _ _ _) as [r w'].
  simpl. unfold try_except, api_error.
  match goal with |- context [match ?b with _ => _ end] => destruct b end; eauto.
Qed.

(** C10: when the blog content or the keyword data is empty or made of
    whitespace only, [categorize_keywords_with_gpt52] returns the error record
    for missing inputs and the world is unchanged: no request has been sent
    to the language model. *)
Theorem missing_input_returns_at_once
    (blog_content csv_content developer_prompt : str) (w : world model) :
  blank blog_content \/ blank csv_content ->
  categorize blog_content csv_content developer_prompt w
  = (Return (JObject
       [(lit "error",
         JString (lit "Blog text and/or keyword data missing. Please provide the necessary inputs."))]),
     w).
Proof.
  intros H. unfold categorize_keywords_with_gpt52.
  destruct blog_content as [|b bl]; [reflexivity|].
  destruct (strip (b :: bl)) eqn:Eb; [reflexivity|].
  destruct H as [H|H]; [rewrite (strip_blank _ H) in Eb; discriminate|].
  destruct csv_content as [|c cl]; [reflexivity|].
  now rewrite (strip_blank _ H).
Qed.

End CategorizeFacts.

Section CategorizeInstances.
Import Py Json OpenAIClient Specification Samples.

Lemma missing_input_returns_at_once_witness :
  (blank (lit "my blog") \/ blank (lit "  "))
  /\ categorize_keywords_with_gpt52 recursion_limit unit str true parrot parrot
       Return (lit "my blog") (lit "  ") (lit "prompt") quiet
     = (Return (JObject
          [(lit "error",
            JString (lit "Blog text and/or keyword data missing. Please provide the necessary inputs."))]),
        quiet).
Proof.
  assert (H : blank (lit "my blog") \/ blank (lit "  ")).
  { right. repeat constructor. }
  exact (conj H (missing_input_returns_at_once recursion_limit true parrot parrot
                   Return (lit "my blog") (lit "  ") (lit "prompt") quiet H)).
Defined.

(** With both inputs present the model is asked once, and its answer is
    repaired. *)
Example categorize_asks_once :
  categorize_keywords_with_gpt52 recursion_limit unit str true parrot parrot
    Return (lit "my blog") (lit "keyword,volume") (lit "prompt") quiet
  = (Return (JObject [(lit "a", JInt 1)]),
     {| llm := tt;
        requests := [(Responses, lit "prompt",
                      user_message (lit "my blog") (lit "keyword,volume"))] |}).
Proof. vm_compute. reflexivity. Qed.

End CategorizeInstances.

(** ** Geo-target resolution and the cache file *)

Section CacheFileFacts.
Import Py GeoTargets Specification.

Context {remote : Type}.
Variable suggest : str -> remote -> outcome (list suggestion) * remote.

Local Abbreviation resolve_one := (resolve_country_to_geo_target remote suggest).
Local Abbreviation resolve_loop := (resolve_each remote suggest).
Local Abbreviation resolve_all := (resolve_countries remote suggest).



End CacheFileFacts.

Section CacheFileInstances.
Import Py GeoTargets Specification Samples Instances.


End CacheFileInstances.

(** ** Keyword-idea requests: what is sent, what comes back *)

Section RequestFacts.
Import Py GoogleAdsClient Specification.

Context {remote row : Type}.
Variable keyword_plan_idea_service :
  request -> remote -> outcome (list row) * remote.
Variable urlparse : str -> outcome (str * str).
Variable set_url_seed set_site_seed : outcome unit.
Variable ads_error_message : exn -> str.

Local Abbreviation generate :=
  (generate_keyword_ideas remote row keyword_plan_idea_service urlparse
     set_url_seed set_site_seed ads_error_message).
Local Abbreviation build :=
  (build_request urlparse set_url_seed set_site_seed).

(** Replacing a one-character text by nothing removes that character. *)
Lemma replace_char_by_nothing (c : char) (s : str) :
  replace [c] [] s = List.filter (fun x => negb (N.eqb c x)) s.
Proof.
  unfold replace. induction s as [|x s IH]; [reflexivity|].
  cbn [replace_from startswith List.filter List.length Nat.sub app].
  rewrite andb_true_r. destruct (N.eqb c x); cbn [negb]; now rewrite IH.
Qed.

Lemma has_char_filter_out (c : char) (s : str) :
  has_char c (List.filter (fun x => negb (N.eqb c x)) s) = false.
Proof.
  unfold has_char. induction s as [|x s IH]; [reflexivity|]. simpl.
  destruct (N.eqb c x) eqn:E; simpl; [exact IH | now rewrite E].
Qed.

Lemma fromkeys_NoDup (l : list str) : NoDup (fromkeys l).
Proof.
  induction l as [|x l IH]; simpl; [constructor|].
  constructor.
  - rewrite list_elem_of_In, filter_In. intros [_ H].
    now rewrite str_eqb_refl in H.
  - apply NoDup_ListNoDup, List.NoDup_filter, NoDup_ListNoDup, IH.
Qed.

Lemma filter_commute {A} (f g : A -> bool) (l : list A) :
  List.filter f (List.filter g l) = List.filter g (List.filter f l).
Proof.
  induction l as [|x l IH]; [reflexivity|]. simpl.
  destruct (f x) eqn:Ef, (g x) eqn:Eg; simpl; rewrite ?Ef, ?Eg, IH; reflexivity.
Qed.

Lemma filter_agree {A} (f g : A -> bool) (l : list A) :
  (forall x, x ∈ l -> f x = g x) -> List.filter f l = List.filter g l.
Proof.
  induction l as [|x l IH]; intros H; [reflexivity|]. simpl.
  rewrite (H x) by left. rewrite IH by (intros y Hy; apply H; now right).
  reflexivity.
Qed.

(** Removing duplicates and filtering can be done in either order. *)
Lemma filter_fromkeys (f : str -> bool) (l : list str) :
  List.filter f (fromkeys l) = fromkeys (List.filter f l).
Proof.
  induction l as [|x l IH]; [reflexivity|]. simpl.
  destruct (f x) eqn:E; simpl.
  - now rewrite filter_commute, IH.
  - rewrite filter_commute, IH. apply forallb_filter_id.
    apply forallb_forall. intros y Hy.
    apply list_elem_of_In, fromkeys_subset in Hy.
    apply list_elem_of_In, filter_In in Hy as [_ Hy].
    destruct (str_eqb x y) eqn:Exy; [|reflexivity].
    apply str_eqb_eq in Exy. congruence.
Qed.

Lemma nonempty_length {A} (l : list A) : nonempty l = true -> 1 <= List.length l.
Proof. destruct l; [discriminate | simpl; lia]. Qed.

(** What validation returns: between one and ten targets, each the trimmed
    form of a given target that is valid. *)
Lemma validate_geo_targets_returns (geo_target_constants validated : list str) :
  validate_geo_targets geo_target_constants = Return validated ->
  1 <= List.length validated <= 10
  /\ (forall gt, gt ∈ validated ->
        startswith (lit "geoTargetConstants/") gt = true
        /\ 20 < List.length gt
        /\ exists given, given ∈ geo_target_constants /\ gt = strip given
                         /\ valid_geo_target given = true)
  /\ ((forall given, given ∈ geo_target_constants -> strip given = given) ->
      NoDup validated
      /\ validated
         = firstn 10 (fromkeys (List.filter valid_geo_target geo_target_constants))).
Proof.
  unfold validate_geo_targets.
  set (nonblank := List.filter (fun gt => nonempty gt && nonempty (strip gt))
                     geo_target_constants).
  destruct (nonempty nonblank); [|discriminate]. cbn [negb].
  set (formed := List.filter
                   (fun gt => startswith (lit "geoTargetConstants/") gt
                              && (20 <? List.length gt))
                   (List.map strip (fromkeys nonblank))).
  destruct (nonempty formed) eqn:Hne; [|discriminate]. cbn [negb].
  intros [= <-].
  assert (Hin : forall gt,
             gt ∈ (if 10 <? List.length formed then firstn 10 formed else formed) ->
             gt ∈ formed).
  { intros gt. destruct (10 <? List.length formed); [|auto].
    apply subseteq_take. }
  split; [|split].
  - apply nonempty_length in Hne.
    destruct (10 <? List.length formed) eqn:E.
    + apply Nat.ltb_lt in E. rewrite length_firstn. lia.
    + apply Nat.ltb_ge in E. lia.
  - intros gt Hgt. apply Hin in Hgt.
    apply list_elem_of_In, filter_In in Hgt as [Hgt Hok].
    apply andb_prop in Hok as [Hpre Hlen]. apply Nat.ltb_lt in Hlen.
    split; [exact Hpre|]. split; [exact Hlen|].
    apply list_elem_of_In, list_elem_of_fmap in Hgt as (given & -> & Hgiven).
    apply fromkeys_subset in Hgiven.
    apply list_elem_of_In, filter_In in Hgiven as [Hgiven _].
    exists given. split; [now apply list_elem_of_In|]. split; [reflexivity|].
    unfold valid_geo_target. rewrite Hpre. now apply Nat.ltb_lt in Hlen as ->.
  - intros Hstripped.
    assert (Hmap : List.map strip (fromkeys nonblank) = fromkeys nonblank).
    { rewrite <- (map_id (fromkeys nonblank)) at 2. apply map_ext_in.
      intros gt Hgt. apply Hstripped.
      apply list_elem_of_In, fromkeys_subset in Hgt.
      apply list_elem_of_In, filter_In in Hgt as [Hgt _].
      now apply list_elem_of_In. }
    assert (Hnd : NoDup formed).
    { subst formed. rewrite Hmap.
      apply NoDup_ListNoDup, List.NoDup_filter, NoDup_ListNoDup, fromkeys_NoDup. }
    assert (Hformed : formed
                      = fromkeys (List.filter valid_geo_target geo_target_constants)).
    { subst formed nonblank. rewrite Hmap, filter_fromkeys. f_equal.
      rewrite filter_commute.
      match goal with
      | |- List.filter _ (List.filter ?wf _) = _ =>
          assert (Hwf : List.filter wf geo_target_constants
                        = List.filter valid_geo_target geo_target_constants)
      end.
      { apply filter_agree. intros gt Hgt. unfold valid_geo_target.
        now rewrite (Hstripped gt Hgt). }
      rewrite Hwf.
      apply forallb_filter_id, forallb_forall. intros gt Hgt.
      apply filter_In in Hgt as [Hgt Hv]. apply list_elem_of_In in Hgt.
      unfold valid_geo_target in Hv. rewrite (Hstripped gt Hgt) in Hv.
      apply andb_prop in Hv as [_ Hv]. apply Nat.ltb_lt in Hv.
      rewrite (Hstripped gt Hgt). destruct gt; [simpl in Hv; lia | reflexivity]. }
    rewrite <- Hformed.
    destruct (10 <? List.length formed) eqn:E.
    + split; [|reflexivity].
      rewrite <- (firstn_skipn 10 formed) in Hnd.
      now apply NoDup_app in Hnd as [Hnd _].
    + split; [exact Hnd|]. apply Nat.ltb_ge in E.
      symmetry. apply firstn_all2. lia.
Qed.

Lemma startswith_app (p s : str) : startswith p (p ++ s) = true.
Proof. induction p as [|x p IH]; [reflexivity|]. simpl. now rewrite N.eqb_refl. Qed.

(** The URL that is sent as a seed carries a protocol. *)
Lemma seed_url_has_protocol (website_url : str) :
  let url1 := if negb (has_protocol website_url)
              then lit "https://" ++ website_url else website_url in
  let url2 := if negb (has_protocol url1) then lit "https://" ++ url1 else url1 in
  has_protocol url2 = true
  /\ url2 = (if has_protocol website_url then website_url
             else lit "https://" ++ website_url).
Proof.
  intros url1 url2. subst url1 url2.
  destruct (has_protocol website_url) eqn:E; cbn [negb].
  - rewrite E. cbn [negb]. auto.
  - assert (H : has_protocol (lit "https://" ++ website_url) = true).
    { unfold has_protocol. rewrite (startswith_app (lit "https://")).
      apply orb_true_r. }
    rewrite H. cbn [negb]. auto.
Qed.

(** What a request that passed every check holds. *)
Lemma build_request_returns (customer_id : option str) (website_url : str)
    (geo_target_constants : list str) (language_id : str)
    (include_adult_keywords : bool) (req : request) :
  build customer_id website_url geo_target_constants language_id
    include_adult_keywords = Return req ->
  (exists id, customer_id = Some id /\ id <> []
              /\ GoogleAdsClient.customer_id req
                 = List.filter (fun c => negb (N.eqb (ch "-") c)) id)
  /\ language req = lit "languageConstants/" ++ language_id
  /\ GoogleAdsClient.include_adult_keywords req = include_adult_keywords
  /\ validate_geo_targets geo_target_constants
     = Return (GoogleAdsClient.geo_target_constants req)
  /\ match keyword_seed req with
     | UrlSeed url =>
         set_url_seed = Return tt
         /\ has_protocol url = true
         /\ url = (if has_protocol website_url then website_url
                   else lit "https://" ++ website_url)
     | SiteSeed site =>
         exists e, set_url_seed = Raise e /\ is_AttributeError e = true
     end.
Proof.
  unfold build_request.
  destruct customer_id as [[|c id]|]; [discriminate| |discriminate].
  destruct (nonempty geo_target_constants); [|discriminate]. cbn [negb].
  destruct (validate_geo_targets geo_target_constants) as [validated|] eqn:Ev;
    [|discriminate].
  cbn [mbind outcome_bind bind].
  destruct (urlparse website_url) as [[netloc path]|]; [|discriminate].
  cbn [mbind outcome_bind bind].
  match goal with
  | |- context [negb (nonempty ?d)] => destruct (nonempty d)
  end; [|discriminate]. cbn [negb].
  destruct (seed_url_has_protocol website_url) as [Hp Hu].
  cbv zeta in Hp, Hu. revert Hp Hu.
  match goal with
  | |- context [set_seed _ _ ?u ?d] => generalize u; generalize d
  end.
  intros domain url Hp Hu. unfold set_seed.
  destruct set_url_seed as [[]|e] eqn:Eu.
  - cbn [mbind outcome_bind bind]. intros [= <-].
    cbn [GoogleAdsClient.customer_id language
         GoogleAdsClient.include_adult_keywords
         GoogleAdsClient.geo_target_constants keyword_seed].
    split; [|repeat split; auto].
    exists (c :: id). split; [reflexivity|]. split; [discriminate|].
    exact (replace_char_by_nothing (ch "-") (c :: id)).
  - destruct (is_AttributeError e) eqn:Ea; [|discriminate].
    destruct set_site_seed as [[]|e']; [|destruct (is_AttributeError e'); discriminate].
    cbn [mbind outcome_bind bind]. intros [= <-].
    cbn [GoogleAdsClient.customer_id language
         GoogleAdsClient.include_adult_keywords
         GoogleAdsClient.geo_target_constants keyword_seed].
    split; [|repeat split; eauto].
    exists (c :: id). split; [reflexivity|]. split; [discriminate|].
    exact (replace_char_by_nothing (ch "-") (c :: id)).
Qed.

(** One call of [generate_keyword_ideas]: either the request is refused and
    nothing is sent, or it is sent once and the answer of the service
    decides. *)
Lemma generate_cases (customer_id : option str) (website_url : str)
    (geo_target_constants : list str) (language_id : str)
    (max_results : nat) (include_adult_keywords : bool) (w : world remote) :
  (exists ex,
     build customer_id website_url geo_target_constants language_id
       include_adult_keywords = Raise ex
     /\ generate customer_id website_url geo_target_constants language_id
          max_results include_adult_keywords w
        = (Raise (wrap_error ads_error_message ex), w))
  \/ (exists req response r,
        build customer_id website_url geo_target_constants language_id
          include_adult_keywords = Return req
        /\ keyword_plan_idea_service req (service w) = (response, r)
        /\ generate customer_id website_url geo_target_constants language_id
             max_results include_adult_keywords w
           = (match response with
              | Return results => Return (firstn max_results results)
              | Raise ex => Raise (wrap_error ads_error_message ex)
              end,
              {| service := r; calls := calls w ++ [req] |})).
Proof.
  unfold generate_keyword_ideas.
  destruct (build _ _ _ _ _) as [req|ex].
  - right. destruct (keyword_plan_idea_service req (service w))
      as [response r] eqn:E.
    exists req, response, r. split; [reflexivity|]. split; [exact E|].
    now destruct response.
  - left. exists ex. auto.
Qed.

Lemma app_one_more {A} (l : list A) (x : A) : l <> l ++ [x].
Proof.
  intros H. apply (f_equal List.length) in H. rewrite length_app in H.
  simpl in H. lia.
Qed.

(** A request that was sent is the one that was built. *)
Lemma sent_request_was_built (customer_id : option str) (website_url : str)
    (geo_target_constants : list str) (language_id : str)
    (max_results : nat) (include_adult_keywords : bool) (w : world remote)
    (req : request) :
  calls (generate customer_id website_url geo_target_constants language_id
           max_results include_adult_keywords w).2 = calls w ++ [req] ->
  build customer_id website_url geo_target_constants language_id
    include_adult_keywords = Return req.
Proof.
  intros H.
  destruct (generate_cases customer_id website_url geo_target_constants
              language_id max_results include_adult_keywords w)
    as [(ex & _ & E)|(req0 & response & r & Eb & _ & E)]; rewrite E in H.
  - now apply app_one_more in H.
  - simpl in H. apply app_inv_head in H. now injection H as ->.
Qed.

(** X4: every request that [generate_keyword_ideas] sends carries between
    one and ten geo targets; each is the trimmed form of a given target,
    starts with [geoTargetConstants/] and is longer than 20 characters; and
    when no given target has surrounding whitespace, the targets sent are
    pairwise distinct: they are the first ten distinct valid targets given,
    in the order in which they first appear. *)
Theorem sent_geo_targets_are_valid (customer_id : option str)
    (website_url : str) (geo_target_constants : list str) (language_id : str)
    (max_results : nat) (include_adult_keywords : bool) (w : world remote)
    (req : request) :
  calls (generate customer_id website_url geo_target_constants language_id
           max_results include_adult_keywords w).2 = calls w ++ [req] ->
  1 <= List.length (GoogleAdsClient.geo_target_constants req) <= 10
  /\ (forall gt, gt ∈ GoogleAdsClient.geo_target_constants req ->
        startswith (lit "geoTargetConstants/") gt = true
        /\ 20 < List.length gt
        /\ exists given, given ∈ geo_target_constants /\ gt = strip given
                         /\ valid_geo_target given = true)
  /\ ((forall given, given ∈ geo_target_constants -> strip given = given) ->
      NoDup (GoogleAdsClient.geo_target_constants req)
      /\ GoogleAdsClient.geo_target_constants req
         = firstn 10 (fromkeys (List.filter valid_geo_target geo_target_constants))).
Proof.
  intros H. apply sent_request_was_built in H.
  apply build_request_returns in H as (_ & _ & _ & Hv & _).
  now apply validate_geo_targets_returns.
Qed.

(** X5: every request that [generate_keyword_ideas] sends carries the given
    customer id without its dashes, the language constant of the given
    language id, the given adult-keyword flag, the Google Search network
    and one seed; a URL seed is the given URL, with [https://] put before it
    when it names no protocol, so that it always names one; the site seed is
    used only when the URL seed cannot be set for want of the attribute. *)
Theorem sent_request_is_normalised (customer_id : option str)
    (website_url : str) (geo_target_constants : list str) (language_id : str)
    (max_results : nat) (include_adult_keywords : bool) (w : world remote)
    (req : request) :
  calls (generate customer_id website_url geo_target_constants language_id
           max_results include_adult_keywords w).2 = calls w ++ [req] ->
  (exists id, customer_id = Some id
              /\ GoogleAdsClient.customer_id req
                 = List.filter (fun c => negb (N.eqb (ch "-") c)) id)
  /\ has_char (ch "-") (GoogleAdsClient.customer_id req) = false
  /\ language req = lit "languageConstants/" ++ language_id
  /\ network req = GOOGLE_SEARCH
  /\ GoogleAdsClient.include_adult_keywords req = include_adult_keywords
  /\ match keyword_seed req with
     | UrlSeed url =>
         has_protocol url = true
         /\ url = (if has_protocol website_url then website_url
                   else lit "https://" ++ website_url)
     | SiteSeed site =>
         exists e, set_url_seed = Raise e /\ is_AttributeError e = true
     end.
Proof.
  intros H. apply sent_request_was_built in H.
  apply build_request_returns in H as ((id & Hid & _ & Hc) & Hl & Ha & _ & Hs).
  split; [eauto|]. split; [rewrite Hc; apply has_char_filter_out|].
  split; [exact Hl|]. split; [now destruct (network req)|].
  split; [exact Ha|].
  destruct (keyword_seed req); [tauto | exact Hs].
Qed.

End RequestFacts.

Section RequestInstances.
Import Py GoogleAdsClient Specification Samples Instances.

Local Abbreviation counted_generate :=
  (generate_keyword_ideas unit nat three_rows parse_url (Return tt) (Return tt)
     describe_ads_error).

Lemma sent_geo_targets_are_valid_witness :
  calls (counted_generate good_customer good_url good_geo (lit "1000") 2 false idle).2
  = calls idle ++ [good_request]
  /\ 1 <= List.length (GoogleAdsClient.geo_target_constants good_request) <= 10
  /\ (forall gt, gt ∈ GoogleAdsClient.geo_target_constants good_request ->
        startswith (lit "geoTargetConstants/") gt = true
        /\ 20 < List.length gt
        /\ exists given, given ∈ good_geo /\ gt = strip given
                         /\ valid_geo_target given = true)
  /\ ((forall given, given ∈ good_geo -> strip given = given) ->
      NoDup (GoogleAdsClient.geo_target_constants good_request)
      /\ GoogleAdsClient.geo_target_constants good_request
         = firstn 10 (fromkeys (List.filter valid_geo_target good_geo))).
Proof.
  assert (H : calls (counted_generate good_customer good_url good_geo
                       (lit "1000") 2 false idle).2
              = calls idle ++ [good_request]) by (vm_compute; reflexivity).
  exact (conj H (sent_geo_targets_are_valid three_rows parse_url (Return tt)
                   (Return tt) describe_ads_error good_customer good_url
                   good_geo (lit "1000") 2 false idle good_request H)).
Defined.

Lemma sent_request_is_normalised_witness :
  calls (counted_generate good_customer good_url good_geo (lit "1000") 2 false idle).2
  = calls idle ++ [good_request]
  /\ (exists id, good_customer = Some id
                 /\ GoogleAdsClient.customer_id good_request
                    = List.filter (fun c => negb (N.eqb (ch "-") c)) id)
  /\ has_char (ch "-") (GoogleAdsClient.customer_id good_request) = false
  /\ language good_request = lit "languageConstants/" ++ lit "1000"
  /\ network good_request = GOOGLE_SEARCH
  /\ GoogleAdsClient.include_adult_keywords good_request = false
  /\ match keyword_seed good_request with
     | UrlSeed url =>
         has_protocol url = true
         /\ url = (if has_protocol good_url then good_url
                   else lit "https://" ++ good_url)
     | SiteSeed site =>
         exists e, (Return tt : outcome unit) = Raise e
                   /\ is_AttributeError e = true
     end.
Proof.
  assert (H : calls (counted_generate good_customer good_url good_geo
                       (lit "1000") 2 false idle).2
              = calls idle ++ [good_request]) by (vm_compute; reflexivity).
  exact (conj H (sent_request_is_normalised three_rows parse_url (Return tt)
                   (Return tt) describe_ads_error good_customer good_url
                   good_geo (lit "1000") 2 false idle good_request H)).
Defined.

(** Given targets that differ by surrounding whitespace only are sent
    twice: duplicates are removed before the targets are trimmed. *)
Example whitespace_variants_are_sent_twice :
  GoogleAdsClient.geo_target_constants <$>
    calls (counted_generate good_customer good_url
             [lit "geoTargetConstants/2124"; lit " geoTargetConstants/2124"]
             (lit "1000") 2 false idle).2
  = [[lit "geoTargetConstants/2124"; lit "geoTargetConstants/2124"]].
Proof. vm_compute. reflexivity. Qed.

End RequestInstances.

(** ** Response repair: when the result is a dictionary *)

Section RepairShapeFacts.
Import Py Json OpenAIClient Specification.

Lemma has_char_cons (c x : char) (s : str) :
  has_char c (x :: s) = N.eqb c x || has_char c s.
Proof. reflexivity. Qed.

(** Splitting a text at the first and at the last occurrence of a
    character. *)
Lemma split_at_first (c : char) (s : str) :
  has_char c s = true ->
  exists a b, s = a ++ c :: b /\ has_char c a = false.
Proof.
  induction s as [|x s IH]; [discriminate|]. simpl.
  destruct (N.eqb c x) eqn:E.
  - intros _. apply N.eqb_eq in E as <-. now exists [], s.
  - simpl. intros H. destruct (IH H) as (a & b & -> & Ha).
    exists (x :: a), b. split; [reflexivity|]. simpl. now rewrite E.
Qed.

Lemma split_at_last (c : char) (s : str) :
  has_char c s = true ->
  exists a b, s = a ++ c :: b /\ has_char c b = false.
Proof.
  intros H. rewrite <- has_char_rev in H.
  destruct (split_at_first _ _ H) as (a & b & E & Ha).
  exists (rev b), (rev a). split.
  - rewrite <- (rev_involutive s), E, rev_app_distr. simpl.
    now rewrite <- app_assoc.
  - now rewrite has_char_rev.
Qed.

Lemma first_occurrence_is_leftmost (c : char) (a1 r1 a r : str) :
  has_char c a1 = false ->
  a1 ++ c :: r1 = a ++ c :: r ->
  exists d, r1 = d ++ r.
Proof.
  revert a. induction a1 as [|x a1 IH]; intros a Hno E.
  - destruct a as [|y a]; simpl in E; injection E as E.
    + now exists [].
    + subst. now exists (a ++ [y]); rewrite <- app_assoc.
  - simpl in Hno. apply orb_false_elim in Hno as [Hx Hno].
    destruct a as [|y a]; simpl in E; injection E as -> E.
    + now rewrite N.eqb_refl in Hx.
    + now apply (IH a).
Qed.

(** The span from the first opening to the last closing brace. *)
Lemma json_boundaries_span (before inner after : str) :
  has_char (ch "{") before = false ->
  has_char (ch "}") after = false ->
  json_boundaries (before ++ (ch "{" :: inner ++ [ch "}"]) ++ after)
  = ch "{" :: inner ++ [ch "}"].
Proof.
  intros Hb Ha. unfold json_boundaries.
  replace (before ++ (ch "{" :: inner ++ [ch "}"]) ++ after)
    with (before ++ ch "{" :: (inner ++ ch "}" :: after)) at 1
    by (cbn [app]; now rewrite <- !app_assoc).
  rewrite (find_char_app _ _ _ Hb).
  replace (before ++ (ch "{" :: inner ++ [ch "}"]) ++ after)
    with ((before ++ ch "{" :: inner) ++ ch "}" :: after) at 1
    by (cbn [app]; now rewrite <- !app_assoc).
  rewrite (rfind_char_app _ _ _ Ha).
  rewrite length_app. cbn [List.length].
  replace (List.length before <? List.length before + S (List.length inner))
    with true by (symmetry; apply Nat.ltb_lt; lia).
  replace (List.length before + S (List.length inner) + 1)
    with (List.length before + List.length (ch "{" :: inner ++ [ch "}"]))
    by (cbn [List.length]; rewrite length_app; simpl; lia).
  apply slice_middle.
Qed.

(** A text with an opening brace somewhere before a closing brace is cut to
    a span that starts with the opening brace. *)
Lemma json_boundaries_brace (a m b : str) :
  exists inner,
    json_boundaries (a ++ ch "{" :: m ++ ch "}" :: b) = ch "{" :: inner ++ [ch "}"].
Proof.
  assert (H1 : has_char (ch "{") (a ++ ch "{" :: m ++ ch "}" :: b) = true).
  { rewrite has_char_app, has_char_cons, N.eqb_refl. apply orb_true_r. }
  destruct (split_at_first _ _ H1) as (a1 & r1 & E & Ha1).
  symmetry in E.
  destruct (first_occurrence_is_leftmost _ _ _ _ _ Ha1 E) as (d & Hr1).
  assert (H2 : has_char (ch "}") r1 = true).
  { rewrite Hr1, !has_char_app, has_char_cons, N.eqb_refl.
    rewrite !orb_true_r. reflexivity. }
  destruct (split_at_last _ _ H2) as (inner & b2 & Er1 & Hb2).
  exists inner. rewrite <- E, Er1.
  replace (a1 ++ ch "{" :: inner ++ ch "}" :: b2)
    with (a1 ++ (ch "{" :: inner ++ [ch "}"]) ++ b2)
    by (cbn [app]; now rewrite <- !app_assoc).
  now apply json_boundaries_span.
Qed.

(** Parsing a text that starts with an opening brace gives a dictionary. *)
Lemma loads_brace_dict (depth : nat) (s : str) (v : json) :
  loads depth (ch "{" :: s) = Return v -> is_dict v = true.
Proof.
  unfold loads.
  replace (startswith [65279%N] (ch "{" :: s)) with false by reflexivity.
  replace (skip_ws (ch "{" :: s)) with (ch "{" :: s) by reflexivity.
  destruct (scan_once _ depth (ch "{" :: s)) as [[obj rest|f]|] eqn:E;
    [|destruct f; discriminate|discriminate].
  destruct (skip_ws rest); [|discriminate]. intros [= <-].
  replace (2 * List.length (ch "{" :: s) + 1)
    with (S (2 * List.length (ch "{" :: s))) in E by lia.
  cbn [scan_once] in E.
  replace (N.eqb (ch "{") dquote) with false in E by reflexivity.
  replace (is_char "{" (ch "{")) with true in E by reflexivity.
  destruct depth as [|depth]; [discriminate|].
  destruct (skip_ws s) as [|c2 s3].
  - now apply (proj1 (proj2 (scan_local _ _))) in E as [E _].
  - destruct (is_char "}" c2).
    + now injection E as <- _.
    + now apply (proj1 (proj2 (scan_local _ _))) in E as [E _].
Qed.

Lemma replace_keeps_head (o c : char) (old new s : str) :
  N.eqb o c = false ->
  replace (o :: old) new (c :: s) = c :: replace (o :: old) new s.
Proof. intros H. unfold replace. cbn [replace_from startswith]. now rewrite H. Qed.

Lemma fix_common_issues_keeps_brace (s : str) :
  exists s', fix_common_issues (ch "{" :: s) = ch "{" :: s'.
Proof.
  unfold fix_common_issues.
  change (lit "'") with [39%N]. change (lit "None") with (78%N :: lit "one").
  change (lit "True") with (84%N :: lit "rue").
  change (lit "False") with (70%N :: lit "alse").
  rewrite (replace_keeps_head 39 (ch "{")) by reflexivity.
  rewrite (replace_keeps_head 78 (ch "{")) by reflexivity.
  rewrite (replace_keeps_head 84 (ch "{")) by reflexivity.
  rewrite (replace_keeps_head 70 (ch "{")) by reflexivity.
  match goal with |- context [if ?b then _ else _] => destruct b end;
    cbn [app]; eauto.
Qed.

Lemma collect_lines_extends (lines : list str) :
  forall json_lines brace_count started,
  exists more,
    collect_lines lines json_lines brace_count started = json_lines ++ more.
Proof.
  induction lines as [|line lines IH]; intros json_lines brace_count started.
  - exists []. simpl. now rewrite app_nil_r.
  - cbn [collect_lines].
    destruct (has_char (ch "{") line || started).
    + match goal with |- context [if ?b then _ else _] => destruct b end.
      * eauto.
      * match goal with
        | |- context [collect_lines lines ?j ?b ?s] =>
            destruct (IH j b s) as [more ->]
        end.
        exists (line :: more). now rewrite <- app_assoc.
    + apply IH.
Qed.

Lemma split_char_head (c x : char) (s : str) :
  N.eqb c x = false ->
  exists l ls, split_char c (x :: s) = (x :: l) :: ls.
Proof.
  intros H. cbn [split_char]. rewrite H.
  assert (Hne : exists l ls, split_char c s = l :: ls).
  { clear. induction s as [|y s IH]; [now exists [], []|].
    cbn [split_char]. destruct IH as (l & ls & ->).
    destruct (N.eqb c y); eauto. }
  destruct Hne as (l & ls & ->). eauto.
Qed.

(** The third attempt, too, parses a text that starts with the brace. *)
Lemma collected_lines_keep_brace (s : str) :
  exists s',
    join [newline]
      (collect_lines (split_char newline (ch "{" :: s)) [] 0%Z false)
    = ch "{" :: s'.
Proof.
  destruct (split_char_head newline (ch "{") s eq_refl) as (l & ls & ->).
  cbn [collect_lines]. rewrite has_char_cons, N.eqb_refl. cbn [orb app].
  match goal with |- context [if ?b then _ else _] => destruct b end.
  - now exists l.
  - match goal with
    | |- context [collect_lines ls ?j ?b ?st] =>
        destruct (collect_lines_extends ls j b st) as [more ->]
    end.
    cbn [app join]. destruct more; [now exists l|].
    cbn [app]. eauto.
Qed.

Local Abbreviation returns_dict m :=
  (match m with Return v => is_dict v = true | Raise _ => True end).

Lemma try_except_returns_dict (body : outcome json) (catches : exn -> bool)
    (handler : exn -> outcome json) :
  returns_dict body -> (forall e, returns_dict (handler e)) ->
  returns_dict (try_except body catches handler).
Proof.
  intros Hb Hh. unfold try_except. destruct body as [v|e]; [exact Hb|].
  destruct (catches e); [apply Hh | exact I].
Qed.

Lemma loads_brace_returns_dict (depth : nat) (s : str) :
  returns_dict (loads depth (ch "{" :: s)).
Proof.
  destruct (loads depth (ch "{" :: s)) eqn:E; [|exact I].
  now apply loads_brace_dict in E.
Qed.

(** X8: when the trimmed response has an opening brace somewhere before a
    closing brace, the repair stage returns a dictionary: a parsed object,
    or a record with the single key [error]. *)
Theorem repair_returns_a_dictionary (depth : nat) (response_text a m b : str) :
  strip response_text = a ++ ch "{" :: m ++ ch "}" :: b ->
  exists members, repair depth response_text = Return (JObject members).
Proof.
  intros Hs.
  destruct (json_boundaries_brace a m b) as [inner Hspan].
  assert (H : returns_dict (parse_response depth response_text)).
  { unfold parse_response. rewrite Hs, Hspan.
    destruct (fix_common_issues_keeps_brace (inner ++ [ch "}"])) as [s2 ->].
    destruct (collected_lines_keep_brace s2) as [s3 ->].
    apply try_except_returns_dict; [apply loads_brace_returns_dict|]. intros e.
    apply try_except_returns_dict; [apply loads_brace_returns_dict|]. intros e2.
    apply try_except_returns_dict; [apply loads_brace_returns_dict|]. intros e3.
    reflexivity. }
  unfold repair, try_except.
  destruct (parse_response depth response_text) as [v|e].
  - destruct v; try discriminate. eauto.
  - unfold api_error, error_record. eauto.
Qed.

End RepairShapeFacts.

(** ** Response repair: braces *)

Section BraceFacts.
Import Py Json OpenAIClient Specification.

Lemma count_char_cons (c x : char) (s : str) :
  count_char c (x :: s) = (if N.eqb c x then 1 else 0) + count_char c s.
Proof. unfold count_char. simpl. now destruct (N.eqb c x). Qed.

Lemma count_char_app (c : char) (a b : str) :
  count_char c (a ++ b) = count_char c a + count_char c b.
Proof. unfold count_char. now rewrite List.filter_app, length_app. Qed.

Lemma count_char_none (c : char) (s : str) :
  has_char c s = false <-> count_char c s = 0.
Proof.
  induction s as [|x s IH]; [easy|].
  rewrite has_char_cons, count_char_cons.
  destruct (N.eqb c x); simpl; [split; [discriminate | lia] | exact IH].
Qed.

Lemma count_char_repeat (c x : char) (n : nat) :
  count_char c (repeat x n) = if N.eqb c x then n else 0.
Proof.
  induction n as [|n IH]; simpl repeat; [now destruct (N.eqb c x)|].
  rewrite count_char_cons, IH. now destruct (N.eqb c x).
Qed.

Lemma startswith_split_off (p s : str) :
  startswith p s = true -> exists t, s = p ++ t.
Proof.
  revert s. induction p as [|x p IH]; intros s; [now exists s|].
  destruct s as [|y s]; [discriminate|]. simpl.
  intros [Hx Hp]%andb_prop. apply N.eqb_eq in Hx as ->.
  destruct (IH _ Hp) as [t ->]. now exists t.
Qed.

(** Skipping the rest of a match. *)
Lemma replace_from_skip (old new p s : str) :
  replace_from old new (List.length p) (p ++ s) = replace_from old new 0 s.
Proof.
  induction p as [|x p IH]; [reflexivity|]. exact IH.
Qed.

(** A replacement leaves the number of occurrences of a character alone
    when the character is neither in the text replaced nor in the text put
    in its place. *)
Lemma count_char_replace (c o : char) (old new : str) :
  has_char c (o :: old) = false -> has_char c new = false ->
  forall s, count_char c (replace (o :: old) new s) = count_char c s.
Proof.
  intros Ho Hn. apply count_char_none in Ho, Hn. unfold replace.
  intros s. induction s as [s IH] using (induction_ltof1 _ (@List.length char)).
  unfold ltof in IH. destruct s as [|x s]; [reflexivity|].
  cbn [replace_from].
  destruct (startswith (o :: old) (x :: s)) eqn:E.
  - destruct (startswith_split_off _ _ E) as [t Ht].
    simpl in Ht. injection Ht as -> ->.
    replace (List.length (o :: old) - 1) with (List.length old)
      by (simpl; lia).
    rewrite replace_from_skip.
    rewrite count_char_app, Hn, IH by (simpl; rewrite length_app; lia).
    change (o :: old ++ t) with ((o :: old) ++ t).
    rewrite count_char_app, Ho. reflexivity.
  - rewrite !count_char_cons, IH by (simpl; lia). reflexivity.
Qed.

(** The four substitutions leave the braces alone. *)
Lemma substitutions_keep_braces (c : char) (json_text : str) :
  c = ch "{" \/ c = ch "}" ->
  count_char c
    (replace (lit "False") (lit "false")
       (replace (lit "True") (lit "true")
          (replace (lit "None") (lit "null")
             (replace (lit "'") [dquote] json_text))))
  = count_char c json_text.
Proof.
  intros Hc.
  rewrite (count_char_replace c 70 (lit "alse") (lit "false"))
    by (destruct Hc as [-> | ->]; reflexivity).
  rewrite (count_char_replace c 84 (lit "rue") (lit "true"))
    by (destruct Hc as [-> | ->]; reflexivity).
  rewrite (count_char_replace c 78 (lit "one") (lit "null"))
    by (destruct Hc as [-> | ->]; reflexivity).
  apply (count_char_replace c 39 [] [dquote]);
    destruct Hc as [-> | ->]; reflexivity.
Qed.

(** The textual repair adds no opening brace. *)
Lemma fix_common_issues_opening (json_text : str) :
  count_char (ch "{") (fix_common_issues json_text)
  = count_char (ch "{") json_text.
Proof.
  unfold fix_common_issues.
  match goal with |- context [if ?b then _ else _] => destruct b end;
    rewrite ?count_char_app, ?count_char_repeat;
    rewrite (substitutions_keep_braces (ch "{")) by now left.
  - replace (N.eqb (ch "{") (ch "}")) with false by reflexivity. lia.
  - reflexivity.
Qed.

(** X9: the textual repair leaves the opening braces as they are and adds
    closing braces at the end until there are as many as opening ones:
    afterwards the text has as many opening braces as before, and its
    number of closing braces is the larger of the two numbers before. *)
Theorem brace_repair_balances (json_text : str) :
  count_char (ch "{") (fix_common_issues json_text)
  = count_char (ch "{") json_text
  /\ count_char (ch "}") (fix_common_issues json_text)
     = Nat.max (count_char (ch "{") json_text) (count_char (ch "}") json_text)
  /\ exists substituted,
       fix_common_issues json_text
       = substituted
         ++ repeat (ch "}")
              (count_char (ch "{") json_text - count_char (ch "}") json_text).
Proof.
  unfold fix_common_issues.
  set (substituted :=
         replace (lit "False") (lit "false")
           (replace (lit "True") (lit "true")
              (replace (lit "None") (lit "null")
                 (replace (lit "'") [dquote] json_text)))).
  assert (Hsame : forall c, c = ch "{" \/ c = ch "}" ->
                            count_char c substituted = count_char c json_text).
  { intros c Hc. now apply substitutions_keep_braces. }
  rewrite <- (Hsame (ch "{")), <- (Hsame (ch "}")) by auto.
  destruct (count_char (ch "}") substituted <? count_char (ch "{") substituted)
    eqn:E.
  - apply Nat.ltb_lt in E.
    rewrite !count_char_app, !count_char_repeat.
    replace (N.eqb (ch "{") (ch "}")) with false by reflexivity.
    rewrite N.eqb_refl. split; [lia|]. split; [lia|]. eauto.
  - apply Nat.ltb_ge in E. split; [reflexivity|]. split; [lia|].
    exists substituted.
    replace (count_char (ch "{") substituted - count_char (ch "}") substituted)
      with 0 by lia.
    simpl. now rewrite app_nil_r.
Qed.

Lemma find_char_none (c : char) (s : str) :
  has_char c s = false -> find_char c s = None.
Proof.
  induction s as [|x s IH]; [reflexivity|]. rewrite has_char_cons.
  intros [Hx Hs]%orb_false_elim. simpl. now rewrite Hx, IH.
Qed.

Lemma split_char_without (c nl : char) (s : str) :
  has_char c s = false ->
  Forall (fun line => has_char c line = false) (split_char nl s).
Proof.
  induction s as [|x s IH]; [repeat constructor|].
  rewrite has_char_cons. intros [Hx Hs]%orb_false_elim.
  specialize (IH Hs). cbn [split_char].
  destruct (split_char nl s) as [|l ls]; [repeat constructor|].
  apply Forall_cons in IH as [Hl Hls].
  destruct (N.eqb nl x); repeat constructor; auto.
  rewrite has_char_cons, Hx. exact Hl.
Qed.

Lemma collect_lines_not_started (lines : list str) :
  Forall (fun line => has_char (ch "{") line = false) lines ->
  forall json_lines brace_count,
    collect_lines lines json_lines brace_count false = json_lines.
Proof.
  induction 1 as [|line lines Hl _ IH]; intros json_lines brace_count;
    [reflexivity|].
  cbn [collect_lines]. rewrite Hl. cbn [orb]. apply IH.
Qed.

(** X10: when the response has no opening brace, the third attempt has
    nothing to parse; so when the trimmed response and its textual repair
    both fail to parse, the repair stage returns the error record, whose
    message holds the parser's description of the second failure and the
    first 300 characters of the trimmed response. *)
Theorem no_brace_no_salvage (depth : nat) (response_text : str) (e e2 : exn) :
  has_char (ch "{") response_text = false ->
  loads depth (strip response_text) = Raise e ->
  is_JSONDecodeError e = true ->
  loads depth (fix_common_issues (strip response_text)) = Raise e2 ->
  is_JSONDecodeError e2 = true ->
  repair depth response_text
  = Return (JObject
      [(lit "error",
        JString (lit "Failed to parse JSON response from GPT-5.2. Error: "
                 ++ exn_str e2 ++ lit ". Response preview: "
                 ++ firstn 300 (strip response_text) ++ lit "..."))]).
Proof.
  intros Hno H1 He H2 He2.
  assert (Hs : has_char (ch "{") (strip response_text) = false).
  { unfold strip. now apply has_char_rstrip, has_char_lstrip. }
  assert (Hb : json_boundaries (strip response_text) = strip response_text).
  { unfold json_boundaries. now rewrite (find_char_none _ _ Hs). }
  assert (Hf : has_char (ch "{") (fix_common_issues (strip response_text)) = false).
  { apply count_char_none. rewrite fix_common_issues_opening.
    now apply count_char_none. }
  unfold repair, parse_response. rewrite Hb, H1. cbn [try_except].
  rewrite He, H2. cbn [try_except]. rewrite He2.
  rewrite (collect_lines_not_started _ (split_char_without _ _ _ Hf)).
  reflexivity.
Qed.

Lemma find_char_split (c : char) (s : str) (i : nat) :
  find_char c s = Some i ->
  exists a b, s = a ++ c :: b /\ List.length a = i /\ has_char c a = false.
Proof.
  revert i. induction s as [|x s IH]; intros i; [discriminate|]. simpl.
  destruct (N.eqb c x) eqn:E.
  - intros [= <-]. apply N.eqb_eq in E as <-. now exists [], s.
  - destruct (find_char c s) as [k|]; [|discriminate]. intros [= <-].
    destruct (IH k eq_refl) as (a & b & -> & Hl & Ha).
    exists (x :: a), b. simpl. rewrite E, Ha, Hl. auto.
Qed.

Lemma rfind_char_split (c : char) (s : str) (j : nat) :
  rfind_char c s = Some j ->
  exists a b, s = a ++ c :: b /\ List.length a = j /\ has_char c b = false.
Proof.
  revert j. induction s as [|x s IH]; intros j; [discriminate|]. simpl.
  destruct (rfind_char c s) as [k|] eqn:Er.
  - intros [= <-]. destruct (IH k eq_refl) as (a & b & -> & Hl & Hb).
    exists (x :: a), b. simpl. rewrite Hl. auto.
  - destruct (N.eqb c x) eqn:E; [|discriminate]. intros [= <-].
    apply N.eqb_eq in E as <-. exists [], s. repeat split.
    clear IH. induction s as [|y s IH]; [reflexivity|]. simpl in Er.
    destruct (rfind_char c s); [discriminate|].
    destruct (N.eqb c y) eqn:E; [discriminate|].
    rewrite has_char_cons, E. now apply IH.
Qed.

(** X11: cutting the response to its brace span either leaves the text as it
    is, or keeps exactly the part from the first opening brace to the last
    closing brace, which comes after it; and cutting twice is cutting
    once. *)
Theorem json_boundaries_cuts_one_span (response_text : str) :
  (json_boundaries response_text = response_text
   \/ exists before inner after,
        response_text = before ++ (ch "{" :: inner ++ [ch "}"]) ++ after
        /\ has_char (ch "{") before = false
        /\ has_char (ch "}") after = false
        /\ json_boundaries response_text = ch "{" :: inner ++ [ch "}"])
  /\ json_boundaries (json_boundaries response_text)
     = json_boundaries response_text.
Proof.
  assert (H : json_boundaries response_text = response_text
              \/ exists before inner after,
                   response_text = before ++ (ch "{" :: inner ++ [ch "}"]) ++ after
                   /\ has_char (ch "{") before = false
                   /\ has_char (ch "}") after = false
                   /\ json_boundaries response_text = ch "{" :: inner ++ [ch "}"]).
  { unfold json_boundaries at 1.
    destruct (find_char (ch "{") response_text) as [i|] eqn:Ef; [|now left].
    destruct (rfind_char (ch "}") response_text) as [j|] eqn:Er; [|now left].
    destruct (i <? j) eqn:E; [|now left]. apply Nat.ltb_lt in E. right.
    destruct (find_char_split _ _ _ Ef) as (a1 & r1 & E1 & Hl1 & Ha1).
    destruct (rfind_char_split _ _ _ Er) as (a2 & b2 & E2 & Hl2 & Hb2).
    assert (Hin : exists inner, a2 = a1 ++ ch "{" :: inner).
    { rewrite E1 in E2. apply app_eq_app in E2 as [l [[-> El]|[-> El]]].
      - rewrite length_app in Hl1. destruct l; [|simpl in Hl1; lia].
        simpl in El. injection El as El _. discriminate El.
      - destruct l as [|x l]; [rewrite app_nil_r in Hl2; lia|].
        injection El as <- _. eauto. }
    destruct Hin as [inner ->]. exists a1, inner, b2.
    assert (Ht : response_text = a1 ++ (ch "{" :: inner ++ [ch "}"]) ++ b2).
    { rewrite E2. cbn [app]. now rewrite <- !app_assoc. }
    split; [exact Ht|]. split; [exact Ha1|]. split; [exact Hb2|].
    fold (json_boundaries response_text).
    rewrite Ht at 1. now apply json_boundaries_span. }
  split; [exact H|].
  destruct H as [H | (before & inner & after & _ & _ & _ & ->)];
    [now rewrite !H|].
  pose proof (json_boundaries_span [] inner [] eq_refl eq_refl) as Hspan.
  cbn [app] in Hspan. now rewrite app_nil_r in Hspan.
Qed.

End BraceFacts.

Section TruncationFacts.
Import Py Json OpenAIClient Specification.

Lemma contains_cons (sub : str) (c : char) (s : str) :
  contains sub (c :: s) = startswith sub (c :: s) || contains sub s.
Proof. reflexivity. Qed.

(** A replacement changes nothing in a text without the text to replace. *)
Lemma replace_absent (old new s : str) :
  contains old s = false -> replace old new s = s.
Proof.
  unfold replace. induction s as [|c s IH]; [reflexivity|].
  rewrite contains_cons. intros [Hs Hc]%orb_false_elim.
  cbn [replace_from]. rewrite Hs, (IH Hc). reflexivity.
Qed.

(** X12: a response that was cut off before its closing braces is recovered
    when closing braces are all that it lacks.  If the trimmed response has
    no closing brace, no single quote and none of the words [None], [True]
    and [False], and fails to parse, then the repair stage returns what the
    parser makes of the response followed by as many closing braces as it
    has opening ones. *)
Theorem missing_closing_braces_are_added (depth : nat)
    (response_text : str) (e : exn) (record : json) :
  let json_text := strip response_text in
  has_char (ch "}") json_text = false ->
  contains (lit "'") json_text = false ->
  contains (lit "None") json_text = false ->
  contains (lit "True") json_text = false ->
  contains (lit "False") json_text = false ->
  loads depth json_text = Raise e ->
  is_JSONDecodeError e = true ->
  loads depth (json_text ++ repeat (ch "}") (count_char (ch "{") json_text))
  = Return record ->
  repair depth response_text = Return record.
Proof.
  intros json_text Hclose Hq Hn Ht Hf Hfail He Hok.
  assert (Hb : json_boundaries json_text = json_text).
  { unfold json_boundaries. rewrite (rfind_char_none _ _ Hclose).
    now destruct (find_char (ch "{") json_text). }
  assert (Hfix : fix_common_issues json_text
                 = json_text ++ repeat (ch "}") (count_char (ch "{") json_text)).
  { unfold fix_common_issues.
    rewrite (replace_absent _ _ _ Hq), (replace_absent _ _ _ Hn),
      (replace_absent _ _ _ Ht), (replace_absent _ _ _ Hf).
    apply count_char_none in Hclose. rewrite Hclose, Nat.sub_0_r.
    destruct (0 <? count_char (ch "{") json_text) eqn:E; [reflexivity|].
    apply Nat.ltb_ge in E.
    replace (count_char (ch "{") json_text) with 0 by lia.
    simpl. now rewrite app_nil_r. }
  unfold repair, parse_response. fold json_text.
  rewrite Hb, Hfail. cbn [try_except]. rewrite He, Hfix, Hok. reflexivity.
Qed.

End TruncationFacts.

Section TruncationInstances.
Import Py Json OpenAIClient Specification Samples Instances.

Lemma missing_closing_braces_are_added_witness :
  has_char (ch "}") (strip truncated_object) = false
  /\ contains (lit "'") (strip truncated_object) = false
  /\ contains (lit "None") (strip truncated_object) = false
  /\ contains (lit "True") (strip truncated_object) = false
  /\ contains (lit "False") (strip truncated_object) = false
  /\ loads recursion_limit (strip truncated_object) = Raise missing_comma
  /\ is_JSONDecodeError missing_comma = true
  /\ loads recursion_limit
       (strip truncated_object
        ++ repeat (ch "}") (count_char (ch "{") (strip truncated_object)))
     = Return (JObject [(lit "a", JObject [(lit "b", JArray [JInt 1; JInt 2])])])
  /\ repair recursion_limit truncated_object
     = Return (JObject [(lit "a", JObject [(lit "b", JArray [JInt 1; JInt 2])])]).
Proof.
  assert (H1 : has_char (ch "}") (strip truncated_object) = false) by reflexivity.
  assert (H2 : contains (lit "'") (strip truncated_object) = false) by reflexivity.
  assert (H3 : contains (lit "None") (strip truncated_object) = false) by reflexivity.
  assert (H4 : contains (lit "True") (strip truncated_object) = false) by reflexivity.
  assert (H5 : contains (lit "False") (strip truncated_object) = false) by reflexivity.
  assert (H6 : loads recursion_limit (strip truncated_object) = Raise missing_comma)
    by (vm_compute; reflexivity).
  assert (H7 : is_JSONDecodeError missing_comma = true) by reflexivity.
  assert (H8 : loads recursion_limit
                 (strip truncated_object
                  ++ repeat (ch "}") (count_char (ch "{") (strip truncated_object)))
               = Return (JObject [(lit "a", JObject [(lit "b", JArray [JInt 1; JInt 2])])]))
    by (vm_compute; reflexivity).
  exact (conj H1 (conj H2 (conj H3 (conj H4 (conj H5 (conj H6 (conj H7 (conj H8
           (missing_closing_braces_are_added recursion_limit truncated_object
              missing_comma _ H1 H2 H3 H4 H5 H6 H7 H8))))))))).
Defined.

(** When the response has a closing brace, the span ends there and what
    follows it is lost: here the member [c] of the response. *)
Example text_after_the_last_brace_is_lost :
  repair recursion_limit (qlit "{`a`: {`b`: 1}, `c`: [1, 2]")
  = Return (JObject [(lit "a", JObject [(lit "b", JInt 1)])]).
Proof. vm_compute. reflexivity. Qed.

End TruncationInstances.

(** ** Categorization: what is asked of the language model *)

Section ModelRequestFacts.
Import Py Json OpenAIClient Specification.

Variable depth : nat.
Context {model response : Type}.
Variable has_responses : bool.
Variable responses_create : str -> str -> model -> outcome response * model.
Variable chat_completions_create : str -> str -> model -> outcome response * model.
Variable response_text_of : response -> outcome str.

Local Abbreviation categorize :=
  (categorize_keywords_with_gpt52 depth model response has_responses
     responses_create chat_completions_create response_text_of).
Local Abbreviation create :=
  (create_response model response has_responses responses_create
     chat_completions_create).
Local Abbreviation ask := (call model response responses_create chat_completions_create).
Local Abbreviation asked := (requests model).

(** With a blank input, nothing is asked. *)
Lemma categorize_blank
    (blog_content csv_content developer_prompt : str) (w : world model) :
  strip blog_content = [] \/ strip csv_content = [] ->
  categorize blog_content csv_content developer_prompt w
  = (Return missing_inputs, w).
Proof.
  unfold categorize_keywords_with_gpt52. intros [H|H].
  - destruct blog_content; [reflexivity|]. now rewrite H.
  - destruct blog_content as [|b bl]; [reflexivity|].
    destruct (strip (b :: bl)); [reflexivity|].
    destruct csv_content; [reflexivity|]. now rewrite H.
Qed.

(** With both inputs present, the world after the call is the one that
    lines 56-103 leave. *)
Lemma categorize_world
    (blog_content csv_content developer_prompt : str) (w : world model) :
  strip blog_content <> [] -> strip csv_content <> [] ->
  (categorize blog_content csv_content developer_prompt w).2
  = (create developer_prompt (user_message blog_content csv_content) w).2.
Proof.
  intros Hb Hc. unfold categorize_keywords_with_gpt52.
  destruct blog_content as [|b bl]; [now contradict Hb|].
  destruct (strip (b :: bl)); [now contradict Hb|].
  destruct csv_content as [|c cl]; [now contradict Hc|].
  destruct (strip (c :: cl)); [now contradict Hc|].
  now destruct (create developer_prompt _ w).
Qed.

(** One request is one more entry in the log. *)
Lemma ask_is_logged (ep : endpoint) (developer_prompt message : str)
    (w : world model) :
  asked (ask ep developer_prompt message w).2
  = asked w ++ [(ep, developer_prompt, message)].
Proof.
  unfold call. destruct ep;
    match goal with
    | |- context [let '(_, _) := ?x in _] => now destruct x
    end.
Qed.

(** Lines 56-103 ask at least once. *)
Lemma create_response_asks (developer_prompt message : str) (w : world model) :
  exists more,
    asked (create developer_prompt message w).2
    = asked w
      ++ (if has_responses then Responses else ChatCompletions,
          developer_prompt, message) :: more.
Proof.
  unfold create_response.
  pose proof (ask_is_logged (if has_responses then Responses else ChatCompletions)
                developer_prompt message w) as H1.
  destruct (ask _ developer_prompt message w) as [r w1]. simpl in H1.
  destruct r as [x|e]; [exists []; exact H1|].
  destruct (is_AttributeError e); [|exists []; exact H1].
  exists [(ChatCompletions, developer_prompt, message)].
  rewrite ask_is_logged, H1, <- app_assoc. reflexivity.
Qed.

(** X13: one call of [categorize_keywords_with_gpt52] asks the language model
    at most twice, each time with the given developer prompt and the same
    user message, which holds the blog content and the keyword data as
    given.  It asks nothing exactly when the blog content or the keyword
    data is blank.  Otherwise it asks the Responses endpoint if the client
    has one, else the chat-completions endpoint; and it asks a second time,
    the chat-completions endpoint, exactly when the first request raised an
    [AttributeError]. *)
Theorem model_is_asked_at_most_twice
    (blog_content csv_content developer_prompt : str) (w : world model) :
  let message := user_message blog_content csv_content in
  let first := if has_responses then Responses else ChatCompletions in
  exists new,
    asked (categorize blog_content csv_content developer_prompt w).2
    = asked w ++ new
    /\ (new = [] <-> strip blog_content = [] \/ strip csv_content = [])
    /\ (new = []
        \/ new = [(first, developer_prompt, message)]
        \/ new = [(first, developer_prompt, message);
                  (ChatCompletions, developer_prompt, message)])
    /\ (List.length new = 2 <->
        strip blog_content <> [] /\ strip csv_content <> []
        /\ exists e, (ask first developer_prompt message w).1 = Raise e
                     /\ is_AttributeError e = true).
Proof.
  intros message first.
  destruct (strip blog_content) as [|b0 bs] eqn:Eb.
  { exists []. rewrite categorize_blank by (left; exact Eb).
    simpl. rewrite app_nil_r.
    split; [reflexivity|]. split; [tauto|]. split; [now left|].
    split; [discriminate | intros [H _]; now contradict H]. }
  destruct (strip csv_content) as [|c0 cs] eqn:Ec.
  { exists []. rewrite categorize_blank by (right; exact Ec).
    simpl. rewrite app_nil_r.
    split; [reflexivity|]. split; [tauto|]. split; [now left|].
    split; [discriminate | intros (_ & H & _); now contradict H]. }
  rewrite categorize_world by (rewrite ?Eb, ?Ec; discriminate).
  fold message. unfold create_response. fold first.
  pose proof (ask_is_logged first developer_prompt message w) as H1.
  destruct (ask first developer_prompt message w) as [r w1] eqn:E1.
  simpl in H1.
  destruct r as [x|e].
  - exists [(first, developer_prompt, message)]. simpl.
    split; [exact H1|]. split; [split; [discriminate | intros [|]; discriminate]|].
    split; [right; now left|].
    split; [discriminate | intros (_ & _ & e & He & _); discriminate He].
  - destruct (is_AttributeError e) eqn:Ea.
    + exists [(first, developer_prompt, message);
              (ChatCompletions, developer_prompt, message)].
      split; [rewrite ask_is_logged, H1, <- app_assoc; reflexivity|].
      split; [split; [discriminate | intros [|]; discriminate]|].
      split; [right; now right|].
      split; [intros _|reflexivity].
      split; [discriminate|]. split; [discriminate|]. exists e. simpl. auto.
    + exists [(first, developer_prompt, message)]. simpl.
      split; [exact H1|]. split; [split; [discriminate | intros [|]; discriminate]|].
      split; [right; now left|].
      split; [discriminate|]. intros (_ & _ & e' & He & Ha). simpl in He.
      injection He as <-. congruence.
Qed.

End ModelRequestFacts.

Section RepairShapeInstances.
Import Py Json OpenAIClient Specification Samples Instances.

Lemma repair_returns_a_dictionary_witness :
  strip (lit "Sure: {oops} bye")
  = lit "Sure: " ++ ch "{" :: lit "oops" ++ ch "}" :: lit " bye"
  /\ exists members,
       repair recursion_limit (lit "Sure: {oops} bye") = Return (JObject members).
Proof.
  assert (H : strip (lit "Sure: {oops} bye")
              = lit "Sure: " ++ ch "{" :: lit "oops" ++ ch "}" :: lit " bye")
    by reflexivity.
  exact (conj H (repair_returns_a_dictionary recursion_limit
                   (lit "Sure: {oops} bye") (lit "Sure: ") (lit "oops")
                   (lit " bye") H)).
Defined.

Lemma no_brace_no_salvage_witness :
  has_char (ch "{") no_keywords = false
  /\ loads recursion_limit (strip no_keywords) = Raise no_value
  /\ is_JSONDecodeError no_value = true
  /\ loads recursion_limit (fix_common_issues (strip no_keywords)) = Raise no_value
  /\ is_JSONDecodeError no_value = true
  /\ repair recursion_limit no_keywords
     = Return (JObject
         [(lit "error",
           JString (lit "Failed to parse JSON response from GPT-5.2. Error: "
                    ++ exn_str no_value ++ lit ". Response preview: "
                    ++ firstn 300 (strip no_keywords) ++ lit "..."))]).
Proof.
  assert (H1 : has_char (ch "{") no_keywords = false) by reflexivity.
  assert (H2 : loads recursion_limit (strip no_keywords) = Raise no_value)
    by (vm_compute; reflexivity).
  assert (H3 : is_JSONDecodeError no_value = true) by reflexivity.
  assert (H4 : loads recursion_limit (fix_common_issues (strip no_keywords))
               = Raise no_value) by (vm_compute; reflexivity).
  exact (conj H1 (conj H2 (conj H3 (conj H4 (conj H3
           (no_brace_no_salvage recursion_limit no_keywords no_value no_value
              H1 H2 H3 H4 H3)))))).
Defined.

End RepairShapeInstances.

(** ** Top keywords by volume *)

Section TopKeywordFacts.
Import Py KeywordIdeas CsvExport.

Context {A : Type}.
Variable key : A -> Z.

Local Abbreviation descending := (fun a b : A => (key b <= key a)%Z).

Lemma insert_descending_perm (x : A) (l : list A) :
  insert_descending key x l ≡ₚ x :: l.
Proof.
  induction l as [|y l IH]; [reflexivity|]. simpl.
  destruct (key x <? key y)%Z; [|reflexivity].
  rewrite IH. apply Permutation_swap.
Qed.

Lemma sorted_descending_perm (l : list A) : sorted_descending key l ≡ₚ l.
Proof.
  induction l as [|x l IH]; [reflexivity|]. simpl.
  now rewrite insert_descending_perm, IH.
Qed.

Lemma insert_descending_sorted (x : A) (l : list A) :
  StronglySorted descending l ->
  StronglySorted descending (insert_descending key x l).
Proof.
  induction 1 as [|y l Hs IH Hy]; simpl; [repeat constructor|].
  destruct (key x <? key y)%Z eqn:E.
  - apply Z.ltb_lt in E. constructor; [exact IH|].
    rewrite insert_descending_perm. constructor; [lia | exact Hy].
  - apply Z.ltb_ge in E. constructor; [now constructor|].
    constructor; [exact E|].
    eapply Forall_impl; [exact Hy|]. simpl. intros z Hz. lia.
Qed.

Lemma sorted_descending_sorted (l : list A) :
  StronglySorted descending (sorted_descending key l).
Proof.
  induction l as [|x l IH]; [constructor|]. simpl.
  now apply insert_descending_sorted.
Qed.

(** Stability: the items with a given key come in the order of the input. *)
Lemma insert_descending_stable (v : Z) (x : A) (l : list A) :
  List.filter (fun a => (key a =? v)%Z) (insert_descending key x l)
  = List.filter (fun a => (key a =? v)%Z) (x :: l).
Proof.
  induction l as [|y l IH]; [reflexivity|]. simpl.
  destruct (key x <? key y)%Z eqn:E; [|reflexivity].
  apply Z.ltb_lt in E. simpl. rewrite IH. simpl.
  destruct (key x =? v)%Z eqn:Ex, (key y =? v)%Z eqn:Ey; try reflexivity.
  apply Z.eqb_eq in Ex, Ey. lia.
Qed.

Lemma sorted_descending_stable (v : Z) (l : list A) :
  List.filter (fun a => (key a =? v)%Z) (sorted_descending key l)
  = List.filter (fun a => (key a =? v)%Z) l.
Proof.
  induction l as [|x l IH]; [reflexivity|]. simpl sorted_descending.
  rewrite insert_descending_stable. simpl. now rewrite IH.
Qed.

Lemma up_to_firstn (k : Z) (l : list A) :
  exists n, up_to k l = firstn n l
            /\ n = (if (0 <=? k)%Z then Z.to_nat k
                    else List.length l - Z.to_nat (- k)).
Proof. unfold up_to. destruct (0 <=? k)%Z; eauto. Qed.

End TopKeywordFacts.

Section TopKeywordResults.
Import Py KeywordIdeas CsvExport.

Lemma StronglySorted_app_split {A} (R : A -> A -> Prop) (l1 l2 : list A) :
  StronglySorted R (l1 ++ l2) ->
  StronglySorted R l1 /\ forall a b, a ∈ l1 -> b ∈ l2 -> R a b.
Proof.
  induction l1 as [|x l1 IH]; simpl; intros H.
  - split; [constructor|]. intros a b Ha%elem_of_nil. contradiction.
  - apply StronglySorted_inv in H as [Hs Hx]. destruct (IH Hs) as [H1 H2].
    apply Forall_app in Hx as [Hx1 Hx2].
    split; [now constructor|].
    intros a b [->|Ha]%elem_of_cons Hb; [|now apply H2].
    rewrite Forall_forall in Hx2. now apply Hx2.
Qed.

(** X14: the top keywords are taken from the given ideas, each as often as it
    was given; they come in descending order of volume (an idea without a
    volume counting as 0); no idea left out has a larger volume than one
    that was kept; and their number is [top_k], or the number of ideas when
    there are fewer (for a negative [top_k], all but the last [-top_k]). *)
Theorem top_keywords_are_the_largest (keyword_ideas : list keyword_idea)
    (top_k : Z) :
  exists rest,
    get_top_keywords_by_volume keyword_ideas top_k ++ rest ≡ₚ keyword_ideas
    /\ StronglySorted (fun a b => (volume b <= volume a)%Z)
         (get_top_keywords_by_volume keyword_ideas top_k)
    /\ (forall kept dropped,
          kept ∈ get_top_keywords_by_volume keyword_ideas top_k ->
          dropped ∈ rest -> (volume dropped <= volume kept)%Z)
    /\ List.length (get_top_keywords_by_volume keyword_ideas top_k)
       = (if (0 <=? top_k)%Z
          then Nat.min (Z.to_nat top_k) (List.length keyword_ideas)
          else List.length keyword_ideas - Z.to_nat (- top_k)).
Proof.
  unfold get_top_keywords_by_volume.
  set (sorted_keywords := sorted_descending volume keyword_ideas).
  destruct (up_to_firstn top_k sorted_keywords) as (n & -> & Hn).
  exists (skipn n sorted_keywords).
  assert (Hlen : List.length sorted_keywords = List.length keyword_ideas).
  { apply Permutation_length, sorted_descending_perm. }
  pose proof (sorted_descending_sorted volume keyword_ideas) as Hs.
  fold sorted_keywords in Hs.
  rewrite <- (firstn_skipn n sorted_keywords) in Hs.
  apply StronglySorted_app_split in Hs as [Hs Hle].
  split; [rewrite firstn_skipn; apply sorted_descending_perm|].
  split; [exact Hs|]. split; [exact Hle|].
  rewrite length_firstn, Hn, Hlen. destruct (0 <=? top_k)%Z; lia.
Qed.

(** X15: among the top keywords, ideas of equal volume come in the order in
    which they were given, and an idea is kept only if the ideas of the same
    volume given before it are kept: for every volume, the top keywords of
    that volume are the first ones given; they are all of them when [top_k]
    is not less than the number of ideas. *)
Theorem ties_keep_input_order (keyword_ideas : list keyword_idea)
    (top_k v : Z) :
  List.filter (fun idea => (volume idea =? v)%Z)
    (get_top_keywords_by_volume keyword_ideas top_k)
  `prefix_of` List.filter (fun idea => (volume idea =? v)%Z) keyword_ideas
  /\ ((Z.of_nat (List.length keyword_ideas) <= top_k)%Z ->
      List.filter (fun idea => (volume idea =? v)%Z)
        (get_top_keywords_by_volume keyword_ideas top_k)
      = List.filter (fun idea => (volume idea =? v)%Z) keyword_ideas).
Proof.
  unfold get_top_keywords_by_volume.
  set (sorted_keywords := sorted_descending volume keyword_ideas).
  assert (Hlen : List.length sorted_keywords = List.length keyword_ideas).
  { apply Permutation_length, sorted_descending_perm. }
  rewrite <- (sorted_descending_stable volume v keyword_ideas).
  fold sorted_keywords.
  destruct (up_to_firstn top_k sorted_keywords) as (n & -> & Hn).
  split.
  - rewrite <- (firstn_skipn n sorted_keywords) at 2.
    rewrite List.filter_app. now eexists.
  - intros Hk. rewrite firstn_all2; [reflexivity|].
    destruct (0 <=? top_k)%Z eqn:E; [lia|]. apply Z.leb_gt in E. lia.
Qed.

End TopKeywordResults.

(** ** The CSV text *)

Section CsvFacts.
Import Py KeywordIdeas CsvExport Rfc4180.

Lemma special_false (c : char) :
  special c = false ->
  N.eqb c dquote = false /\ N.eqb c comma = false
  /\ N.eqb c carriage_return = false /\ N.eqb c newline = false.
Proof.
  unfold special. intros H.
  apply orb_false_elim in H as [H Hn]. apply orb_false_elim in H as [H Hr].
  apply orb_false_elim in H as [Hc Hq]. auto.
Qed.

(** Reading a field written without quotes, up to the character that ends
    it. *)
Lemma read_plain (f : str) :
  existsb special f = false ->
  forall st field record records rest,
    st = FieldStart \/ st = Plain ->
    read st field record records (f ++ rest)
    = read (match f with [] => st | _ :: _ => Plain end) (rev f ++ field)
        record records rest.
Proof.
  induction f as [|c f IH]; intros Hf st field record records rest Hst;
    [reflexivity|].
  simpl in Hf. apply orb_false_elim in Hf as [Hc Hf].
  apply special_false in Hc as (Hq & Hcm & Hr & Hn).
  assert (Hstep : read st field record records ((c :: f) ++ rest)
                  = read Plain (c :: field) record records (f ++ rest)).
  { destruct Hst as [-> | ->]; cbn [app read]; now rewrite Hq, Hcm, Hr, Hn. }
  rewrite Hstep, (IH Hf Plain) by now right.
  simpl rev. rewrite <- app_assoc. now destruct f.
Qed.

(** Reading the inside of a quoted field up to its closing quote. *)
Lemma read_quoted (f : str) :
  forall field record records rest,
    read Quoted field record records (double_quotes f ++ dquote :: rest)
    = read QuoteSeen (rev f ++ field) record records rest.
Proof.
  induction f as [|c f IH]; intros field record records rest.
  - cbn [double_quotes app read rev]. now rewrite (N.eqb_refl dquote).
  - cbn [double_quotes]. destruct (N.eqb c dquote) eqn:E.
    + apply N.eqb_eq in E as ->. cbn [app read]. rewrite (N.eqb_refl dquote).
      cbn [read]. rewrite ?(N.eqb_refl dquote), IH. simpl rev.
      now rewrite <- app_assoc.
    + cbn [app read]. rewrite E, IH. simpl rev. now rewrite <- app_assoc.
Qed.

Lemma read_after_field (st : state) (field : str) (record : list str)
    (records : list (list str)) (rest : str) :
  st = QuoteSeen \/ st = Plain \/ (st = FieldStart /\ field = []) ->
  read st field record records (comma :: rest)
  = read FieldStart [] (rev field :: record) records rest
  /\ read st field record records (carriage_return :: newline :: rest)
     = read FieldStart [] [] (rev (rev field :: record) :: records) rest.
Proof.
  intros [-> | [-> | [-> ->]]]; split; reflexivity.
Qed.

(** A written field followed by a comma is read back as the field. *)
Lemma read_field_comma (f : str) (record : list str)
    (records : list (list str)) (rest : str) :
  read FieldStart [] record records (write_field f ++ comma :: rest)
  = read FieldStart [] (f :: record) records rest.
Proof.
  unfold write_field. destruct (existsb special f) eqn:Hf.
  - cbn [app read]. rewrite (N.eqb_refl dquote).
    rewrite <- app_assoc. cbn [app]. rewrite read_quoted.
    rewrite (proj1 (read_after_field QuoteSeen _ _ _ _ (or_introl eq_refl))).
    now rewrite app_nil_r, rev_involutive.
  - rewrite (read_plain f Hf FieldStart) by now left.
    rewrite app_nil_r.
    destruct f as [|c f].
    + now rewrite (proj1 (read_after_field FieldStart [] _ _ _
                            (or_intror (or_intror (conj eq_refl eq_refl))))).
    + rewrite (proj1 (read_after_field Plain _ _ _ _
                        (or_intror (or_introl eq_refl)))).
      now rewrite rev_involutive.
Qed.

(** A written field followed by CR LF ends the record. *)
Lemma read_field_end (f : str) (record : list str)
    (records : list (list str)) (rest : str) :
  read FieldStart [] record records
    (write_field f ++ carriage_return :: newline :: rest)
  = read FieldStart [] [] (rev (f :: record) :: records) rest.
Proof.
  unfold write_field. destruct (existsb special f) eqn:Hf.
  - cbn [app read]. rewrite (N.eqb_refl dquote).
    rewrite <- app_assoc. cbn [app]. rewrite read_quoted.
    rewrite (proj2 (read_after_field QuoteSeen _ _ _ _ (or_introl eq_refl))).
    now rewrite app_nil_r, rev_involutive.
  - rewrite (read_plain f Hf FieldStart) by now left.
    rewrite app_nil_r.
    destruct f as [|c f].
    + now rewrite (proj2 (read_after_field FieldStart [] _ _ _
                            (or_intror (or_intror (conj eq_refl eq_refl))))).
    + rewrite (proj2 (read_after_field Plain _ _ _ _
                        (or_intror (or_introl eq_refl)))).
      now rewrite rev_involutive.
Qed.

(** A written row is read back as one record. *)
Lemma read_row (fields : list str) :
  fields <> [] ->
  forall record records rest,
    read FieldStart [] record records (writerow fields ++ rest)
    = read FieldStart [] [] (rev (rev fields ++ record) :: records) rest.
Proof.
  unfold writerow.
  induction fields as [|f fields IH]; [congruence|]. intros _ record records rest.
  destruct fields as [|g fields].
  - cbn [List.map join]. rewrite <- app_assoc. cbn [app].
    now rewrite read_field_end.
  - change (join [comma] (List.map write_field (f :: g :: fields)))
      with (write_field f ++ [comma] ++ join [comma] (List.map write_field (g :: fields))).
    rewrite <- !app_assoc. cbn [app]. rewrite read_field_comma.
    assert (Hne : g :: fields <> []) by discriminate.
    specialize (IH Hne (f :: record) records rest).
    rewrite <- app_assoc in IH. cbn [app] in IH. rewrite IH.
    simpl rev. now rewrite <- !app_assoc.
Qed.

Lemma read_rows (rows : list (list str)) :
  Forall (fun fields => fields <> []) rows ->
  forall records,
    read FieldStart [] [] records (List.concat (List.map writerow rows))
    = Some (rev records ++ rows).
Proof.
  induction 1 as [|fields rows Hf _ IH]; intros records.
  - simpl. now rewrite app_nil_r.
  - cbn [List.map List.concat]. rewrite (read_row fields Hf).
    rewrite IH. rewrite app_nil_r, rev_involutive. simpl.
    now rewrite <- app_assoc.
Qed.

(** X16: the CSV text of a non-empty list of ideas is well-formed CSV: read
    back, it gives the header and then one record of six fields for every
    idea, in order, whatever characters the keywords hold (commas, double
    quotes and line breaks included); the CSV text of no idea is empty. *)
Theorem csv_reads_back (keyword_ideas : list keyword_idea) :
  records (keyword_ideas_to_csv keyword_ideas)
  = Some (match keyword_ideas with
          | [] => []
          | _ :: _ => fieldnames :: List.map row keyword_ideas
          end)
  /\ (keyword_ideas = [] -> keyword_ideas_to_csv keyword_ideas = [])
  /\ Forall (fun record => List.length record = 6)
       (fieldnames :: List.map row keyword_ideas).
Proof.
  split; [|split].
  - destruct keyword_ideas as [|idea ideas]; [reflexivity|].
    unfold records, keyword_ideas_to_csv.
    rewrite (read_row fieldnames) by discriminate.
    rewrite <- (List.map_map row writerow).
    rewrite read_rows.
    + reflexivity.
    + apply Forall_forall. intros fields Hin.
      apply list_elem_of_fmap in Hin as (i & -> & _). discriminate.
  - now intros ->.
  - constructor; [reflexivity|]. apply Forall_forall. intros record Hin.
    apply list_elem_of_fmap in Hin as (i & -> & _). reflexivity.
Qed.

End CsvFacts.

(** ** From the answer of the service to the request to the language model *)

Section ExportFacts.
Import Py KeywordIdeas CsvExport.

(** X17: the CSV row of the keyword idea built from a result of the service
    holds the text of the keyword, its volume, the name of its competition
    level ([UNKNOWN] when the level is unspecified), and the competition
    index and the two bids, each left blank when it is 0: in the CSV text a
    metric of 0 cannot be told from a missing one. *)
Theorem exported_row_of_a_result (result : result) :
  let metrics := metrics result in
  let blank_if_zero (x : Z) := if (x =? 0)%Z then [] else str_of_Z x in
  row (keyword_data result)
  = [ text result;
      str_of_Z (metric_avg_monthly_searches metrics);
      (if (number (metric_competition metrics) =? 0)%Z then lit "UNKNOWN"
       else name (metric_competition metrics));
      blank_if_zero (metric_competition_index metrics);
      blank_if_zero (metric_low_top_of_page_bid_micros metrics);
      blank_if_zero (metric_high_top_of_page_bid_micros metrics) ].
Proof.
  intros metrics blank_if_zero. unfold row, keyword_data. cbn.
  fold metrics.
  assert (Hb : forall x, or_blank (nonzero x) = blank_if_zero x).
  { intros x. unfold or_blank, nonzero, blank_if_zero.
    destruct (x =? 0)%Z eqn:E; [reflexivity|]. now rewrite E. }
  rewrite !Hb. repeat f_equal.
  destruct (metric_avg_monthly_searches metrics =? 0)%Z eqn:E; [|reflexivity].
  apply Z.eqb_eq in E. now rewrite E.
Qed.

Lemma top_keywords_nil (keyword_ideas : list keyword_idea) (top_k : Z) :
  (0 < top_k)%Z ->
  get_top_keywords_by_volume keyword_ideas top_k = [] <-> keyword_ideas = [].
Proof.
  intros Hk. unfold get_top_keywords_by_volume, up_to.
  replace (0 <=? top_k)%Z with true by (symmetry; apply Z.leb_le; lia).
  split.
  - intros H. apply (f_equal List.length) in H.
    rewrite length_firstn, (Permutation_length (sorted_descending_perm volume _)) in H.
    simpl in H. destruct keyword_ideas; [reflexivity | simpl in H; lia].
  - intros ->. apply firstn_nil.
Qed.

Lemma strip_solid (x : char) (s : str) :
  isspace x = false -> strip (x :: s) <> [].
Proof.
  intros Hx. unfold strip. cbn [lstrip]. rewrite Hx.
  change (x :: s) with ([] ++ x :: s).
  rewrite (rstrip_app_nonspace [] s x Hx). discriminate.
Qed.

Lemma csv_not_blank (idea : keyword_idea) (ideas : list keyword_idea) :
  strip (keyword_ideas_to_csv (idea :: ideas)) <> [].
Proof.
  unfold keyword_ideas_to_csv.
  change (writerow fieldnames)
    with (ch "k" :: List.tl (writerow fieldnames)).
  cbn [app]. now apply strip_solid.
Qed.

End ExportFacts.

Section PipelineFacts.
Import Py Json KeywordIdeas CsvExport OpenAIClient.

Variable depth : nat.
Context {model response : Type}.
Variable has_responses : bool.
Variable responses_create : str -> str -> model -> outcome response * model.
Variable chat_completions_create : str -> str -> model -> outcome response * model.
Variable response_text_of : response -> outcome str.

Local Abbreviation categorize :=
  (categorize_keywords_with_gpt52 depth model response has_responses
     responses_create chat_completions_create response_text_of).
Local Abbreviation asked := (requests model).

(** X18: when the keyword data sent for categorization is the CSV text of the
    top keywords, as the application builds it, the language model is asked
    nothing exactly when the blog content is blank or there is no keyword
    idea; with both present it is always asked, since the CSV text starts
    with its header. *)
Theorem categorization_asks_iff_there_is_input
    (blog_content developer_prompt : str) (keyword_ideas : list keyword_idea)
    (top_k : Z) (w : world model) :
  (0 < top_k)%Z ->
  asked (categorize blog_content
           (keyword_ideas_to_csv (get_top_keywords_by_volume keyword_ideas top_k))
           developer_prompt w).2 = asked w
  <-> strip blog_content = [] \/ keyword_ideas = [].
Proof.
  intros Hk.
  set (csv_content :=
         keyword_ideas_to_csv (get_top_keywords_by_volume keyword_ideas top_k)).
  assert (Hcsv : strip csv_content = [] <-> keyword_ideas = []).
  { subst csv_content. rewrite <- (top_keywords_nil keyword_ideas top_k Hk).
    destruct (get_top_keywords_by_volume keyword_ideas top_k) as [|idea ideas].
    - split; reflexivity.
    - split; [intros H; now apply csv_not_blank in H | discriminate]. }
  rewrite <- Hcsv. split.
  - intros H.
    destruct (strip blog_content) as [|b bs] eqn:Eb; [now left|].
    destruct (strip csv_content) as [|c cs] eqn:Ec; [now right|].
    exfalso. revert H.
    rewrite (categorize_world depth has_responses responses_create
               chat_completions_create response_text_of)
      by (rewrite ?Eb, ?Ec; discriminate).
    destruct (create_response_asks has_responses responses_create
                chat_completions_create developer_prompt
                (user_message blog_content csv_content) w) as [more ->].
    intros H. rewrite <- (app_nil_r (asked w)) in H at 2.
    apply app_inv_head in H. discriminate H.
  - intros H.
    now rewrite (categorize_blank depth has_responses responses_create
                   chat_completions_create response_text_of _ _ _ _ H).
Qed.

End PipelineFacts.

(** ** The configuration of the Google Ads client *)

Section ConfigFacts.
Import Py GoogleAdsConfig.

Variable getenv : str -> option str.

(** X19: the configuration given to the Google Ads client has a login
    customer id exactly when the environment variable is set and, its
    dashes removed, is made of ten digits; the id given is then the value
    without its dashes.  Any other value is left out without an error. *)
Theorem login_customer_id_is_ten_digits (id : str) :
  login_customer_id (client_config getenv) = Some id
  <-> exists raw,
        getenv (lit "GOOGLE_ADS_LOGIN_CUSTOMER_ID") = Some raw
        /\ id = List.filter (fun c => negb (N.eqb (ch "-") c)) raw
        /\ List.length id = 10
        /\ Forall (fun c => is_digit_char c = true) id.
Proof.
  unfold client_config. cbn [login_customer_id].
  destruct (getenv (lit "GOOGLE_ADS_LOGIN_CUSTOMER_ID")) as [raw|];
    [|split; [discriminate | intros (raw & H & _); discriminate]].
  change (lit "-") with [ch "-"].
  assert (Hd : forall s, List.length s = 10 ->
                         isdigit s = forallb is_digit_char s).
  { intros [|c s] H; [discriminate | reflexivity]. }
  destruct raw as [|c s].
  - split; [discriminate|]. intros (raw & [= <-] & -> & H & _). discriminate.
  - rewrite (replace_char_by_nothing (ch "-") (c :: s)).
    set (clean := List.filter _ (c :: s)).
    destruct (List.length clean =? 10) eqn:El.
    + apply Nat.eqb_eq in El. rewrite (Hd _ El), andb_true_r.
      destruct (forallb is_digit_char clean) eqn:Ef.
      * split.
        -- intros [= <-]. exists (c :: s). repeat split; auto.
           apply Forall_forall. intros x Hx.
           rewrite forallb_forall in Ef. apply Ef. now apply list_elem_of_In.
        -- intros (raw & [= <-] & -> & _). reflexivity.
      * split; [discriminate|]. intros (raw & [= <-] & -> & _ & Hall).
        fold clean in Hall.
        assert (forallb is_digit_char clean = true); [|congruence].
        apply forallb_forall. intros x Hx. rewrite Forall_forall in Hall.
        apply Hall. now apply list_elem_of_In.
    + rewrite andb_false_r. split; [discriminate|].
      intros (raw & [= <-] & -> & Hlen & _). fold clean in Hlen.
      apply Nat.eqb_neq in El. contradiction.
Qed.

End ConfigFacts.

Section ExportInstances.
Import Py Json KeywordIdeas CsvExport OpenAIClient Samples Instances.

(** The CSV text of the two sample ideas: the keyword with a comma and
    double quotes is quoted, and metrics of 0 are left blank. *)
Example sample_csv :
  keyword_ideas_to_csv sample_ideas
  = lit "keyword,avg_monthly_searches,competition,competition_index,low_top_of_page_bid_micros,high_top_of_page_bid_micros"
    ++ [carriage_return; newline]
    ++ qlit "`shoes, ``red```,0,UNKNOWN,,," ++ [carriage_return; newline]
    ++ lit "running shoes,1000,HIGH,87,250000,1500000"
    ++ [carriage_return; newline].
Proof. vm_compute. reflexivity. Qed.

(** The top keyword of the two sample ideas. *)
Example sample_top_keyword :
  get_top_keywords_by_volume sample_ideas 1 = [keyword_data running_shoes].
Proof. vm_compute. reflexivity. Qed.

Lemma categorization_asks_iff_there_is_input_witness :
  (0 < 500)%Z
  /\ (requests unit
        (categorize_keywords_with_gpt52 recursion_limit unit str true parrot
           parrot Return (lit "my blog")
           (keyword_ideas_to_csv (get_top_keywords_by_volume sample_ideas 500))
           (lit "prompt") quiet).2
      = requests unit quiet
      <-> strip (lit "my blog") = [] \/ sample_ideas = []).
Proof.
  assert (H : (0 < 500)%Z) by lia.
  exact (conj H (categorization_asks_iff_there_is_input recursion_limit true
                   parrot parrot Return (lit "my blog") (lit "prompt")
                   sample_ideas 500 quiet H)).
Defined.

End ExportInstances.
